(** * Batched migrations: the runner, its control surface and its loop

    A shallow embedding of [batched-migrations-runner.ts] (class
    [BatchedMigrationsRunner] and the module-level functions around it)
    and of the statements of [batched-migration.sql].

    Asynchronous methods are written as programs over the calls they
    await ([Prog]); a program is run either against an arbitrary
    environment ([exec] with any handler), against a reference world
    ([World], [world_handler]) or interleaved with other tasks of the
    same process ([step]). *)

From Stdlib Require Import ZArith List String Ascii Bool Lia.
Import ListNotations.
Local Open Scope Z_scope.
Local Open Scope list_scope.

(** ** Values *)

(** A JavaScript [Error], identified by its message. *)
Definition Error := string.

(** What a call (or an awaited promise) produces. *)
Inductive Outcome (A : Type) : Type :=
| Returned (a : A)
| Threw (e : Error).
Arguments Returned {A} a.
Arguments Threw {A} e.

(** A property of a JavaScript object that may be missing, [null] or set. *)
Inductive Nullable (A : Type) : Type :=
| Undefined
| Null
| Value (a : A).
Arguments Undefined {A}.
Arguments Null {A}.
Arguments Value {A} a.

(** [v ?? d] *)
Definition nullish {A} (v : Nullable A) (d : A) : A :=
  match v with
  | Value a => a
  | Undefined | Null => d
  end.

(** [v === null] *)
Definition is_null {A} (v : Nullable A) : bool :=
  match v with
  | Null => true
  | Undefined | Value _ => false
  end.

Inductive BatchedMigrationStatus : Type :=
| Pending | Paused | Running | Finalizing | Failed | Succeeded.

Definition status_eqb (a b : BatchedMigrationStatus) : bool :=
  match a, b with
  | Pending, Pending | Paused, Paused | Running, Running
  | Finalizing, Finalizing | Failed, Failed | Succeeded, Succeeded => true
  | _, _ => false
  end.

Definition status_name (s : BatchedMigrationStatus) : string :=
  match s with
  | Pending => "pending"
  | Paused => "paused"
  | Running => "running"
  | Finalizing => "finalizing"
  | Failed => "failed"
  | Succeeded => "succeeded"
  end.

Module MigrationFile.
Record t : Type := mk { directory : string; filename : string; timestamp : string }.
End MigrationFile.

Module Options.
(** [BatchedMigrationRunnerOptions]. *)
Record t : Type := mk { project : string; directories : list string }.
End Options.

Module BatchedMigrationRow.
(** A row of [batched_migrations]. *)
Record t : Type := mk {
  id : Z;
  project : string;
  filename : string;
  timestamp : string;
  batch_size : Z;
  min_value : Z;
  max_value : Z;
  status : BatchedMigrationStatus
}.
End BatchedMigrationRow.

Module NewBatchedMigration.
(** The object [enqueueBatchedMigration] hands to [insertBatchedMigration]. *)
Record t : Type := mk {
  project : string;
  filename : string;
  timestamp : string;
  batch_size : Z;
  min_value : Z;
  max_value : Z;
  status : BatchedMigrationStatus
}.
End NewBatchedMigration.

Module Parameters.
(** What a definition's [getParameters()] resolves to. *)
Record t : Type := mk { min : Nullable Z; max : Nullable Z; batchSize : Nullable Z }.
End Parameters.

(** The options [maybePerformWork] passes to [runner.run]. *)
Record RunOptions : Type := { signal : bool; durationMs : Z }.

(** A loaded migration class, identified by the module it was imported from. *)
Definition MigrationClass := string.

Definition DEFAULT_MIN_VALUE : Z := 1.
Definition DEFAULT_BATCH_SIZE : Z := 1000.
Definition EXTENSIONS : list string :=
  [".js"%string; ".ts"%string; ".mjs"%string; ".mts"%string].

(** ** Programs *)

(** The calls of the runner: the first group reads and writes the fields of
    the [BatchedMigrationsRunner] object and returns at once; the second
    group is awaited. *)
Inductive Cmd : Type -> Type :=
| GetRunning : Cmd bool
| SetRunning (b : bool) : Cmd unit
| GetAborted : Cmd bool
| SignalAbort : Cmd unit
| GetMigrationFiles : Cmd (option (list MigrationFile.t))
| SetMigrationFiles (fs : list MigrationFile.t) : Cmd unit
| Emit (err : Error) : Cmd unit
| ReadAndValidateMigrationsFromDirectories
    (dirs : list string) (exts : list string) : Cmd (list MigrationFile.t)
| ImportDefault (path : string) : Cmd (option MigrationClass)
| GetParameters (cls : MigrationClass) : Cmd Parameters.t
| InsertBatchedMigration (m : NewBatchedMigration.t) : Cmd unit
| SelectBatchedMigrationForTimestamp
    (project timestamp : string) : Cmd BatchedMigrationRow.t
| UpdateBatchedMigrationStatus
    (id : Z) (status : BatchedMigrationStatus) : Cmd BatchedMigrationRow.t
| SelectOrStartRunningMigration (project : string) : Cmd (option BatchedMigrationRow.t)
| LockTry (name : string) : Cmd bool
| LockRelease (name : string) : Cmd unit
| RunnerRun (migration : BatchedMigrationRow.t) (cls : MigrationClass)
    (opts : option RunOptions) : Cmd unit
| Sleep (ms : Z) (with_signal : bool) : Cmd unit.

Inductive Prog (A : Type) : Type :=
| Ret (a : A)
| Throw (e : Error)
| Call (X : Type) (c : Cmd X) (k : Outcome X -> Prog A).
Arguments Ret {A} a.
Arguments Throw {A} e.
Arguments Call {A X} c k.

(** A call whose failure propagates. *)
Definition call {X} (c : Cmd X) : Prog X :=
  Call c (fun o => match o with Returned x => Ret x | Threw e => Throw e end).

Fixpoint bind {A B} (p : Prog A) (f : A -> Prog B) : Prog B :=
  match p with
  | Ret a => f a
  | Throw e => Throw e
  | Call c k => Call c (fun o => bind (k o) f)
  end.

(** [try { p } catch (err) { h err }] *)
Fixpoint try_catch {A} (p : Prog A) (h : Error -> Prog A) : Prog A :=
  match p with
  | Ret a => Ret a
  | Throw e => h e
  | Call c k => Call c (fun o => try_catch (k o) h)
  end.

(** [try { p } finally { fin }] *)
Fixpoint try_finally {A} (p : Prog A) (fin : Prog unit) : Prog A :=
  match p with
  | Ret a => bind fin (fun _ => Ret a)
  | Throw e => bind fin (fun _ => Throw e)
  | Call c k => Call c (fun o => try_finally (k o) fin)
  end.

Declare Scope prog_scope.
Delimit Scope prog_scope with prog.
Notation "x <- p ;; q" := (bind p (fun x => q))
  (at level 61, p at next level, right associativity) : prog_scope.
Notation "p ;; q" := (bind p (fun _ => q))
  (at level 61, right associativity) : prog_scope.
Local Open Scope prog_scope.

(** ** Strings of the runner *)

(** [s.split(sep)[0]]: what precedes the first [sep], all of [s] without one. *)
Fixpoint split_head (sep : ascii) (s : string) : string :=
  match s with
  | EmptyString => EmptyString
  | String c rest =>
      if Ascii.eqb c sep then EmptyString else String c (split_head sep rest)
  end.

Definition underscore : ascii := "_"%char.

(** [path.join(directory, filename)] without the normalisation that
    [path.join] applies (of [.], [..], doubled and trailing separators):
    the two agree on a directory written in normal form and a plain file
    name. *)
Definition path_join (directory filename : string) : string :=
  (directory ++ "/" ++ filename)%string.

Definition no_migration_found (identifier : string) : Error :=
  ("No migration found for identifier " ++ identifier)%string.

Definition invalid_migration_class (migrationModulePath : string) : Error :=
  ("Invalid migration class in " ++ migrationModulePath)%string.

Definition not_marked_succeeded (identifier : string) (s : BatchedMigrationStatus) : Error :=
  ("Expected batched migration with identifier " ++ identifier
   ++ " to be marked as 'succeeded', but it is '" ++ status_name s ++ "'.")%string.

Definition already_running : Error := "BatchedMigrationsRunner is already running"%string.
Definition not_initialized : Error := "Batched migrations not initialized"%string.
Definition already_initialized : Error := "Batched migrations already initialized"%string.

(** ** The methods of [BatchedMigrationsRunner] *)

Inductive LoopCtl : Type := Continue | Exit.

Section Runner.

Variable options : Options.t.

Definition lockNameForTimestamp (timestamp : string) : string :=
  ("batched-migrations:" ++ Options.project options ++ ":" ++ timestamp)%string.

Definition getMigrationFiles : Prog (list MigrationFile.t) :=
  cached <- call GetMigrationFiles ;;
  match cached with
  | Some migrationFiles => Ret migrationFiles
  | None =>
      migrationFiles <- call (ReadAndValidateMigrationsFromDirectories
                                (Options.directories options) EXTENSIONS) ;;
      call (SetMigrationFiles migrationFiles) ;;
      Ret migrationFiles
  end.

Definition getMigrationForIdentifier (identifier : string)
  : Prog (option MigrationFile.t) :=
  let timestamp := split_head underscore identifier in
  migrationFiles <- getMigrationFiles ;;
  Ret (find (fun m => String.eqb (MigrationFile.timestamp m) timestamp) migrationFiles).

(** The default export of the module is a [MigrationClass] when it is a
    class that extends [BatchedMigration]. *)
Definition loadMigrationClass (migrationFile : MigrationFile.t) : Prog MigrationClass :=
  let migrationModulePath :=
    path_join (MigrationFile.directory migrationFile) (MigrationFile.filename migrationFile) in
  default <- call (ImportDefault migrationModulePath) ;;
  match default with
  | None => Throw (invalid_migration_class migrationModulePath)
  | Some MigrationClass => Ret MigrationClass
  end.

Definition enqueueBatchedMigration (identifier : string) : Prog unit :=
  found <- getMigrationForIdentifier identifier ;;
  match found with
  | None => Throw (no_migration_found identifier)
  | Some migrationFile =>
      MigrationClass <- loadMigrationClass migrationFile ;;
      migrationParameters <- call (GetParameters MigrationClass) ;;
      let status :=
        if is_null (Parameters.max migrationParameters) then Succeeded else Pending in
      let minValue := nullish (Parameters.min migrationParameters) DEFAULT_MIN_VALUE in
      let maxValue := nullish (Parameters.max migrationParameters) minValue in
      let batchSize := nullish (Parameters.batchSize migrationParameters) DEFAULT_BATCH_SIZE in
      call (InsertBatchedMigration
              {| NewBatchedMigration.project := Options.project options;
                 NewBatchedMigration.filename := MigrationFile.filename migrationFile;
                 NewBatchedMigration.timestamp := MigrationFile.timestamp migrationFile;
                 NewBatchedMigration.batch_size := batchSize;
                 NewBatchedMigration.min_value := minValue;
                 NewBatchedMigration.max_value := maxValue;
                 NewBatchedMigration.status := status |})
  end.

Definition finalizeBatchedMigration (identifier : string) : Prog unit :=
  let timestamp := split_head underscore identifier in
  migration <- call (SelectBatchedMigrationForTimestamp (Options.project options) timestamp) ;;
  if status_eqb (BatchedMigrationRow.status migration) Succeeded then Ret tt
  else
    migration <-
      (if negb (status_eqb (BatchedMigrationRow.status migration) Finalizing)
       then call (UpdateBatchedMigrationStatus (BatchedMigrationRow.id migration) Finalizing)
       else Ret migration) ;;
    found <- getMigrationForIdentifier identifier ;;
    match found with
    | None => Throw (no_migration_found identifier)
    | Some migrationFile =>
        MigrationClass <- loadMigrationClass migrationFile ;;
        call (RunnerRun migration MigrationClass None) ;;
        migration <- call (SelectBatchedMigrationForTimestamp
                             (Options.project options) timestamp) ;;
        if status_eqb (BatchedMigrationRow.status migration) Succeeded then Ret tt
        else Throw (not_marked_succeeded identifier (BatchedMigrationRow.status migration))
    end.

Definition getOrStartMigration : Prog (option BatchedMigrationRow.t) :=
  call (SelectOrStartRunningMigration (Options.project options)).

(** Modelled from the spec: [tryWithLock] of [@prairielearn/named-locks] is
    not part of the sources; the lock primitive is "acquire named lock,
    run function, release on exit/crash", and a lock held by another
    process means the function is not run. The result tells whether the
    function ran. *)
Definition tryWithLock {A} (name : string) (func : Prog A) : Prog (option A) :=
  acquired <- call (LockTry name) ;;
  if acquired : bool
  then try_finally (a <- func ;; Ret (Some a)) (call (LockRelease name))
  else Ret None.

(** [didWork] is set by the first statement of the function given to
    [tryWithLock]: it is [true] exactly when that function ran. *)
Definition maybePerformWork (durationMs : Z) : Prog bool :=
  started <- getOrStartMigration ;;
  match started with
  | None => Ret false
  | Some migration =>
      found <- getMigrationForIdentifier (BatchedMigrationRow.timestamp migration) ;;
      match found with
      | None => Ret false
      | Some migrationFile =>
          ran <- tryWithLock (lockNameForTimestamp (MigrationFile.timestamp migrationFile))
                   (MigrationClass <- loadMigrationClass migrationFile ;;
                    try_catch
                      (call (RunnerRun migration MigrationClass
                               (Some {| signal := true; durationMs := durationMs |})))
                      (fun err => call (Emit err))) ;;
          Ret (match ran with Some _ => true | None => false end)
      end
  end.

(** The [try]/[catch] around [maybePerformWork] in [loop]. *)
Definition loop_round : Prog bool :=
  try_catch (maybePerformWork (60 * 1000))
            (fun err => call (Emit err) ;; Ret false).

(** One turn of the [while (true)] of [loop]. *)
Definition loop_iteration : Prog LoopCtl :=
  stopping <- call GetAborted ;;
  if stopping : bool
  then call (SetRunning false) ;; Ret Exit
  else
    didWork <- loop_round ;;
    if negb didWork
    then try_catch (call (Sleep 30000 true) ;; Ret Continue) (fun _ => Ret Continue)
    else Ret Continue.

(** One turn of the [while (this.running)] of [stop]. *)
Definition stop_iteration : Prog LoopCtl :=
  spinning <- call GetRunning ;;
  if spinning : bool
  then call (Sleep 1000 false) ;; Ret Continue
  else Ret Exit.

End Runner.


(** ** The Batch Runner *)

Module BatchRunner.

(** Why one invocation of the Batch Runner came back. *)
Inductive Stop : Type := Completed | Yielded | BatchFailed.

Definition Range : Type := (Z * Z)%type.

(** Modelled from the spec: [BatchedMigrationRunner]
    (batched-migration-runner.ts) is not part of the sources: "compute the
    next subrange [cursor+1, min(cursor+batch_size, max_value)]". *)
Definition next_range (batch_size max_value cursor : Z) : Range :=
  (cursor + 1, Z.min (cursor + batch_size) max_value).

(** Modelled from the spec: one invocation of the Batch Runner (the runner
    class is not part of the sources). Before each batch the budget is
    looked at, here the number of turns it still allows; a cursor that has
    reached [max_value] completes the migration; otherwise the batch
    function runs on the next subrange and, on success, the cursor is
    persisted; a failure of the batch function is not retried and
    propagates. The result lists the subranges the batch function was
    invoked on, in order. *)
Fixpoint run (batch_ok : Z -> Z -> bool) (batch_size max_value : Z)
  (budget : nat) (cursor : Z) : Stop * Z * list Range :=
  match budget with
  | O => (Yielded, cursor, [])
  | S budget' =>
      if max_value <=? cursor then (Completed, cursor, [])
      else
        let '(batch_start, batch_end) := next_range batch_size max_value cursor in
        if batch_ok batch_start batch_end
        then
          let '(stop, cursor', invoked) :=
            run batch_ok batch_size max_value budget' batch_end in
          (stop, cursor', (batch_start, batch_end) :: invoked)
        else (BatchFailed, cursor, [(batch_start, batch_end)])
  end.

(** The invocations of the batch function that succeeded. *)
Definition succeeded_batches (stop : Stop) (invoked : list Range) : list Range :=
  match stop with
  | BatchFailed => removelast invoked
  | Completed | Yielded => invoked
  end.

(** What repeated invocations leave behind. *)
Record Progress : Type := {
  completed : bool;
  cursor : Z;
  invoked : list Range;
  done : list Range
}.

(** Modelled from the spec: the Batch Runner invoked again and again on one
    record, each time with the turns its budget allows and with the batch
    function as it behaves during that invocation, until it reports
    completion. The cursor is what one invocation persists for the next. *)
Fixpoint drive (batch_size max_value : Z)
  (calls : list (nat * (Z -> Z -> bool))) (cursor : Z) : Progress :=
  match calls with
  | [] => {| completed := false; cursor := cursor; invoked := []; done := [] |}
  | (budget, batch_ok) :: rest =>
      let '(stop, cursor', ranges) := run batch_ok batch_size max_value budget cursor in
      match stop with
      | Completed =>
          {| completed := true; cursor := cursor'; invoked := ranges; done := ranges |}
      | Yielded | BatchFailed =>
          let later := drive batch_size max_value rest cursor' in
          {| completed := completed later;
             cursor := BatchRunner.cursor later;
             invoked := ranges ++ invoked later;
             done := succeeded_batches stop ranges ++ done later |}
      end
  end.

(** "Starts at [min_value - 1] conceptually, i.e. before the range." *)
Definition initial_cursor (min_value : Z) : Z := min_value - 1.

Definition in_range (v : Z) (r : Range) : bool := (fst r <=? v) && (v <=? snd r).

(** How many of the subranges hold the unit [v]. *)
Definition cover_count (v : Z) (ranges : list Range) : nat :=
  List.length (filter (in_range v) ranges).

(** The subranges follow the runner's rule from [cursor] on: each starts
    right after the previous one, is the next subrange of the cursor it
    starts from, is not empty and is no longer than [batch_size]. *)
Fixpoint chained (batch_size max_value cursor : Z) (ranges : list Range) : Prop :=
  match ranges with
  | [] => True
  | r :: rest =>
      r = next_range batch_size max_value cursor
      /\ fst r = cursor + 1
      /\ fst r <= snd r
      /\ snd r - fst r + 1 <= batch_size
      /\ chained batch_size max_value (snd r) rest
  end.

(** Where the cursor stands after the subranges. *)
Definition last_end (cursor : Z) (ranges : list Range) : Z :=
  fold_left (fun _ r => snd r) ranges cursor.

Definition always_ok (batch_start batch_end : Z) : bool := true.

End BatchRunner.


(** ** Running a program *)

(** What the listeners registered for ['error'] do with an error: they
    return ([None]) or one of them throws ([Some e]). *)
Definition Listener : Type := Error -> option Error.

(** The fields of a [BatchedMigrationsRunner] object and, of the
    [EventEmitter] it extends, the listeners registered for ['error'] (if
    any) and the errors handed to them. *)
Record ObjState : Type := {
  running : bool;
  aborted : bool;
  migrationFiles : option (list MigrationFile.t);
  error_listener : option Listener;
  emitted : list Error
}.

(** [new BatchedMigrationsRunner(options)]: no listener is registered. *)
Definition new_runner : ObjState :=
  {| running := false; aborted := false; migrationFiles := None;
     error_listener := None; emitted := [] |}.

Definition set_running (b : bool) (o : ObjState) : ObjState :=
  {| running := b; aborted := aborted o;
     migrationFiles := migrationFiles o;
     error_listener := error_listener o; emitted := emitted o |}.

Definition set_aborted (o : ObjState) : ObjState :=
  {| running := running o; aborted := true;
     migrationFiles := migrationFiles o;
     error_listener := error_listener o; emitted := emitted o |}.

Definition set_migrationFiles (fs : list MigrationFile.t) (o : ObjState) : ObjState :=
  {| running := running o; aborted := aborted o;
     migrationFiles := Some fs;
     error_listener := error_listener o; emitted := emitted o |}.

(** [runner.on('error', listener)], [runner.removeAllListeners('error')] *)
Definition set_listener (l : option Listener) (o : ObjState) : ObjState :=
  {| running := running o; aborted := aborted o;
     migrationFiles := migrationFiles o;
     error_listener := l; emitted := emitted o |}.

(** The listeners are handed [err]. *)
Definition received (err : Error) (o : ObjState) : ObjState :=
  {| running := running o; aborted := aborted o;
     migrationFiles := migrationFiles o;
     error_listener := error_listener o; emitted := emitted o ++ [err] |}.

(** [this.emit('error', err)] of [EventEmitter]: without a listener for
    ['error'] the error is thrown; with listeners they are called at once,
    and what one of them throws is thrown by [emit]. *)
Definition emit (err : Error) (o : ObjState) : Outcome unit * ObjState :=
  match error_listener o with
  | None => (Threw err, o)
  | Some listener =>
      (match listener err with
       | None => Returned tt
       | Some thrown => Threw thrown
       end,
       received err o)
  end.

(** A listener is registered and it returns, whatever error it is handed. *)
Definition listens (o : ObjState) : Prop :=
  exists listener, error_listener o = Some listener /\ forall err, listener err = None.

(** The calls that read or write the object settle at once; the others are
    awaited ([None]). *)
Definition obj_handle {X} (c : Cmd X) (o : ObjState) : option (Outcome X * ObjState) :=
  match c in Cmd X return option (Outcome X * ObjState) with
  | GetRunning => Some (Returned (running o), o)
  | SetRunning b => Some (Returned tt, set_running b o)
  | GetAborted => Some (Returned (aborted o), o)
  | SignalAbort => Some (Returned tt, set_aborted o)
  | GetMigrationFiles => Some (Returned (migrationFiles o), o)
  | SetMigrationFiles fs => Some (Returned tt, set_migrationFiles fs o)
  | Emit err => Some (emit err o)
  | _ => None
  end.

(** The calls that cannot throw. *)
Definition always_returns {X} (c : Cmd X) : bool :=
  match c with
  | GetRunning | SetRunning _ | GetAborted | SignalAbort
  | GetMigrationFiles | SetMigrationFiles _ => true
  | _ => false
  end.

Definition awaited {X} (c : Cmd X) : bool :=
  match c with
  | GetRunning | SetRunning _ | GetAborted | SignalAbort
  | GetMigrationFiles | SetMigrationFiles _ | Emit _ => false
  | _ => true
  end.

(** An awaited call together with what it produced. *)
Inductive Reply : Type :=
| Replied (X : Type) (c : Cmd X) (out : Outcome X).
Arguments Replied {X} c out.

(** What stands behind the awaited calls: the database, the lock service,
    the file system, the migration modules, the Batch Runner, the clock. *)
Definition Handler (St : Type) : Type :=
  forall X, Cmd X -> ObjState -> St -> Outcome X * St.

Record Result (St A : Type) : Type := {
  outcome : Outcome A;
  obj_after : ObjState;
  env_after : St;
  trace : list Reply
}.
Arguments outcome {St A} r.
Arguments obj_after {St A} r.
Arguments env_after {St A} r.
Arguments trace {St A} r.

(** Runs a program to its end, with nothing else of the process
    interleaved. *)
Fixpoint exec {St A} (h : Handler St) (p : Prog A) (o : ObjState) (s : St)
  : Result St A :=
  match p with
  | Ret a => {| outcome := Returned a; obj_after := o; env_after := s; trace := [] |}
  | Throw e => {| outcome := Threw e; obj_after := o; env_after := s; trace := [] |}
  | Call c k =>
      match obj_handle c o with
      | Some (out, o') => exec h (k out) o' s
      | None =>
          let '(out, s') := h _ c o s in
          let r := exec h (k out) o s' in
          {| outcome := outcome r; obj_after := obj_after r;
             env_after := env_after r; trace := Replied c out :: trace r |}
      end
  end.

(** The call asks the lock service for a lock. *)
Definition asks_lock {X} (c : Cmd X) : bool :=
  match c with
  | LockTry _ => true
  | _ => false
  end.

(** The call runs the Batch Runner. *)
Definition runs_batches {X} (c : Cmd X) : bool :=
  match c with
  | RunnerRun _ _ _ => true
  | _ => false
  end.

Definition is_lock_try (r : Reply) : bool :=
  match r with
  | Replied c _ => asks_lock c
  end.

Definition is_runner_run (r : Reply) : bool :=
  match r with
  | Replied c _ => runs_batches c
  end.

(** The error a reply of the Batch Runner carries. *)
Definition runner_error (r : Reply) : option Error :=
  match r with
  | Replied (RunnerRun _ _ _) (Threw e) => Some e
  | _ => None
  end.

(** The error an awaited call threw. *)
Definition thrown (r : Reply) : option Error :=
  match r with
  | Replied _ (Threw e) => Some e
  | Replied _ (Returned _) => None
  end.

(** The release of a lock failed. *)
Definition release_failed (r : Reply) : bool :=
  match r with
  | Replied (LockRelease _) (Threw _) => true
  | _ => false
  end.

(** The error the release of a lock threw. *)
Definition release_error (r : Reply) : option Error :=
  match r with
  | Replied (LockRelease _) (Threw e) => Some e
  | _ => None
  end.

(** The sleep of [loop] or of [stop]. *)
Definition is_sleep_call {X} (c : Cmd X) : bool :=
  match c with
  | Sleep _ _ => true
  | _ => false
  end.

(** The error an awaited call of a round threw: the sleep that follows
    the round is not part of it. *)
Definition thrown_in_round (r : Reply) : option Error :=
  match r with
  | Replied c (Threw e) => if is_sleep_call c then None else Some e
  | Replied _ (Returned _) => None
  end.

(** The lock service answered that the lock is held elsewhere. *)
Definition lock_refused (r : Reply) : bool :=
  match r with
  | Replied (LockTry _) (Returned false) => true
  | _ => false
  end.

Definition is_update_status (r : Reply) : bool :=
  match r with
  | Replied (UpdateBatchedMigrationStatus _ _) _ => true
  | _ => false
  end.

(** The record an [insertBatchedMigration] call was given. *)
Definition inserted (r : Reply) : option NewBatchedMigration.t :=
  match r with
  | Replied (InsertBatchedMigration m) _ => Some m
  | _ => None
  end.


(** ** The reference world *)

Module MigrationDefinition.
(** A user-authored migration class: what its [getParameters()] resolves to
    and whether its [runBatch(start, end)] succeeds. *)
Record t : Type := mk { parameters : Parameters.t; batch_ok : Z -> Z -> bool }.
End MigrationDefinition.

Record World : Type := {
  (** the rows of [batched_migrations] *)
  table : list BatchedMigrationRow.t;
  (** the next value of the [id] sequence *)
  next_id : Z;
  (** the default of the [status] column; the table's DDL is not part of
      the sources *)
  status_default : BatchedMigrationStatus;
  (** the Batch Runner's persisted cursor of each migration id *)
  checkpoints : list (Z * Z);
  (** named locks held by other processes, and by this one *)
  locks_elsewhere : list string;
  locks_here : list string;
  (** the migration files [readAndValidateMigrationsFromDirectories] finds *)
  disk : list MigrationFile.t;
  (** the modules that can be imported; [None] is a module whose default
      export does not extend [BatchedMigration] *)
  modules : list (string * option MigrationDefinition.t);
  (** how many turns of the Batch Runner fit in the duration of a round *)
  turns_per_round : nat;
  (** the invocations of batch functions: migration id and subrange *)
  batches : list (Z * BatchRunner.Range)
}.

Definition with_table (t : list BatchedMigrationRow.t) (n : Z) (w : World) : World :=
  {| table := t; next_id := n; status_default := status_default w;
     checkpoints := checkpoints w;
     locks_elsewhere := locks_elsewhere w; locks_here := locks_here w;
     disk := disk w; modules := modules w;
     turns_per_round := turns_per_round w; batches := batches w |}.

Definition with_locks_here (l : list string) (w : World) : World :=
  {| table := table w; next_id := next_id w; status_default := status_default w;
     checkpoints := checkpoints w;
     locks_elsewhere := locks_elsewhere w; locks_here := l;
     disk := disk w; modules := modules w;
     turns_per_round := turns_per_round w; batches := batches w |}.

Definition with_progress (c : list (Z * Z)) (b : list (Z * BatchRunner.Range))
  (w : World) : World :=
  {| table := table w; next_id := next_id w; status_default := status_default w;
     checkpoints := c;
     locks_elsewhere := locks_elsewhere w; locks_here := locks_here w;
     disk := disk w; modules := modules w;
     turns_per_round := turns_per_round w; batches := b |}.

Definition set_status (s : BatchedMigrationStatus) (r : BatchedMigrationRow.t)
  : BatchedMigrationRow.t :=
  {| BatchedMigrationRow.id := BatchedMigrationRow.id r;
     BatchedMigrationRow.project := BatchedMigrationRow.project r;
     BatchedMigrationRow.filename := BatchedMigrationRow.filename r;
     BatchedMigrationRow.timestamp := BatchedMigrationRow.timestamp r;
     BatchedMigrationRow.batch_size := BatchedMigrationRow.batch_size r;
     BatchedMigrationRow.min_value := BatchedMigrationRow.min_value r;
     BatchedMigrationRow.max_value := BatchedMigrationRow.max_value r;
     BatchedMigrationRow.status := s |}.

(** [insert_batched_migration] of batched-migration.sql: the statement
    names the columns [project], [filename], [timestamp], [batch_size],
    [min_value] and [max_value]; [id] and [status] are left to the table. *)
Definition insert_batched_migration (p : NewBatchedMigration.t) (w : World)
  : BatchedMigrationRow.t * World :=
  let row :=
    {| BatchedMigrationRow.id := next_id w;
       BatchedMigrationRow.project := NewBatchedMigration.project p;
       BatchedMigrationRow.filename := NewBatchedMigration.filename p;
       BatchedMigrationRow.timestamp := NewBatchedMigration.timestamp p;
       BatchedMigrationRow.batch_size := NewBatchedMigration.batch_size p;
       BatchedMigrationRow.min_value := NewBatchedMigration.min_value p;
       BatchedMigrationRow.max_value := NewBatchedMigration.max_value p;
       BatchedMigrationRow.status := status_default w |} in
  (row, with_table (table w ++ [row]) (next_id w + 1) w).

(** [update_batched_migration_status] of batched-migration.sql
    ([updated_at] is not modelled). *)
Definition update_batched_migration_status (id : Z) (s : BatchedMigrationStatus)
  (w : World) : World :=
  with_table
    (map (fun r => if BatchedMigrationRow.id r =? id then set_status s r else r) (table w))
    (next_id w) w.

Definition same_migration (project timestamp : string) (r : BatchedMigrationRow.t) : bool :=
  String.eqb (BatchedMigrationRow.project r) project
  && String.eqb (BatchedMigrationRow.timestamp r) timestamp.

(** Modelled from the spec: the statement behind
    [selectBatchedMigrationForTimestamp] is not part of the sources;
    "selectForTimestamp(project, timestamp) (fails with NotFound if
    absent)". *)
Definition select_batched_migration_for_timestamp (project timestamp : string)
  (w : World) : option BatchedMigrationRow.t :=
  find (same_migration project timestamp) (table w).

Definition runnable (project : string) (r : BatchedMigrationRow.t) : bool :=
  String.eqb (BatchedMigrationRow.project r) project
  && (status_eqb (BatchedMigrationRow.status r) Pending
      || status_eqb (BatchedMigrationRow.status r) Running).

Fixpoint lowest_id (rows : list BatchedMigrationRow.t) : option BatchedMigrationRow.t :=
  match rows with
  | [] => None
  | r :: rest =>
      match lowest_id rest with
      | None => Some r
      | Some r' =>
          if BatchedMigrationRow.id r <=? BatchedMigrationRow.id r' then Some r else Some r'
      end
  end.

(** Modelled from the spec: [select_or_start_running_migration]
    (batched-migrations-runner.sql) is not part of the sources; it "finds
    the oldest (lowest id) migration for the project whose status is
    pending or running, transitions a pending match to running, and
    returns it (or returns nothing if no candidate exists)". *)
Definition select_or_start_running_migration (project : string) (w : World)
  : option BatchedMigrationRow.t * World :=
  match lowest_id (filter (runnable project) (table w)) with
  | None => (None, w)
  | Some r =>
      if status_eqb (BatchedMigrationRow.status r) Pending
      then (Some (set_status Running r),
            update_batched_migration_status (BatchedMigrationRow.id r) Running w)
      else (Some r, w)
  end.

Fixpoint assoc {V : Type} (key : string) (l : list (string * V)) : option V :=
  match l with
  | [] => None
  | (k, v) :: rest => if String.eqb k key then Some v else assoc key rest
  end.

Definition cursor_of (w : World) (m : BatchedMigrationRow.t) : Z :=
  match find (fun c => fst c =? BatchedMigrationRow.id m) (checkpoints w) with
  | Some c => snd c
  | None => BatchRunner.initial_cursor (BatchedMigrationRow.min_value m)
  end.

Definition batch_failure : Error := "runBatch failed"%string.

(** What stands behind [new BatchedMigrationRunner(migration, instance).run(options)]. *)
Definition RunnerModel : Type :=
  BatchedMigrationRow.t -> MigrationClass -> option RunOptions ->
  ObjState -> World -> Outcome unit * World.

(** Modelled from the spec: the Batch Runner on the reference world
    ([BatchedMigrationRunner] is not part of the sources). Without
    options there is no limit: the turns given are those a migration with
    a positive [batch_size] needs at most. With options the round's turns
    are given, none once the signal is aborted. Completion marks the
    record [succeeded]. *)
Definition spec_runner : RunnerModel :=
  fun m cls opts o w =>
    let start := cursor_of w m in
    let budget :=
      match opts with
      | None => S (Z.to_nat (BatchedMigrationRow.max_value m - start))
      | Some ro => if signal ro && aborted o then O else turns_per_round w
      end in
    let batch_ok :=
      match assoc cls (modules w) with
      | Some (Some d) => MigrationDefinition.batch_ok d
      | _ => fun _ _ => false
      end in
    let '(stop, cursor', ranges) :=
      BatchRunner.run batch_ok (BatchedMigrationRow.batch_size m)
        (BatchedMigrationRow.max_value m) budget start in
    let w' :=
      with_progress
        ((BatchedMigrationRow.id m, cursor') :: checkpoints w)
        (batches w ++ map (pair (BatchedMigrationRow.id m)) ranges) w in
    match stop with
    | BatchRunner.Completed =>
        (Returned tt,
         update_batched_migration_status (BatchedMigrationRow.id m) Succeeded w')
    | BatchRunner.Yielded => (Returned tt, w')
    | BatchRunner.BatchFailed => (Threw batch_failure, w')
    end.

Definition duplicate_key : Error :=
  "duplicate key value violates unique constraint"%string.
Definition no_such_row : Error := "no such row in batched_migrations"%string.
Definition cannot_find_module (path : string) : Error :=
  ("Cannot find module " ++ path)%string.
Definition abort_error : Error := "The operation was aborted"%string.
Definition not_awaited : Error := "not an awaited call"%string.

Definition in_directories (dirs : list string) (f : MigrationFile.t) : bool :=
  existsb (String.eqb (MigrationFile.directory f)) dirs.

(** The awaited calls on the reference world. The statements of
    batched-migration.sql are the ones above. Modelled from the spec: a
    second row of one [(project, timestamp)] is refused ("fails with
    DuplicateKey"), and the lock service grants a name no one holds. *)
Definition world_handler (runner : RunnerModel) : Handler World :=
  fun X c =>
    match c in Cmd X return ObjState -> World -> Outcome X * World with
    | ReadAndValidateMigrationsFromDirectories dirs exts => fun o w =>
        (Returned (filter (in_directories dirs) (disk w)), w)
    | ImportDefault path => fun o w =>
        match assoc path (modules w) with
        | None => (Threw (cannot_find_module path), w)
        | Some (Some _) => (Returned (Some path), w)
        | Some None => (Returned None, w)
        end
    | GetParameters cls => fun o w =>
        match assoc cls (modules w) with
        | Some (Some d) => (Returned (MigrationDefinition.parameters d), w)
        | _ => (Threw (cannot_find_module cls), w)
        end
    | InsertBatchedMigration p => fun o w =>
        if existsb (same_migration (NewBatchedMigration.project p)
                      (NewBatchedMigration.timestamp p)) (table w)
        then (Threw duplicate_key, w)
        else (Returned tt, snd (insert_batched_migration p w))
    | SelectBatchedMigrationForTimestamp project timestamp => fun o w =>
        match select_batched_migration_for_timestamp project timestamp w with
        | Some r => (Returned r, w)
        | None => (Threw no_such_row, w)
        end
    | UpdateBatchedMigrationStatus id s => fun o w =>
        let w' := update_batched_migration_status id s w in
        match find (fun r => BatchedMigrationRow.id r =? id) (table w') with
        | Some r => (Returned r, w')
        | None => (Threw no_such_row, w')
        end
    | SelectOrStartRunningMigration project => fun o w =>
        let '(r, w') := select_or_start_running_migration project w in
        (Returned r, w')
    | LockTry name => fun o w =>
        if existsb (String.eqb name) (locks_elsewhere w ++ locks_here w)
        then (Returned false, w)
        else (Returned true, with_locks_here (name :: locks_here w) w)
    | LockRelease name => fun o w =>
        (Returned tt,
         with_locks_here (filter (fun n => negb (String.eqb n name)) (locks_here w)) w)
    | RunnerRun m cls opts => fun o w => runner m cls opts o w
    | Sleep ms with_signal => fun o w =>
        if with_signal && aborted o then (Threw abort_error, w) else (Returned tt, w)
    | GetRunning | GetAborted | GetMigrationFiles =>
        fun o w => (Threw not_awaited, w)
    | SetRunning _ | SignalAbort | SetMigrationFiles _ | Emit _ =>
        fun o w => (Threw not_awaited, w)
    end.

(** The migration files the runner object works with: those it has read
    already, else those it reads now. *)
Definition known_files (options : Options.t) (o : ObjState) (w : World)
  : list MigrationFile.t :=
  match migrationFiles o with
  | Some fs => fs
  | None => filter (in_directories (Options.directories options)) (disk w)
  end.

Definition file_for (options : Options.t) (o : ObjState) (w : World)
  (identifier : string) : option MigrationFile.t :=
  find (fun m => String.eqb (MigrationFile.timestamp m) (split_head underscore identifier))
       (known_files options o w).

Definition module_of (f : MigrationFile.t) : string :=
  path_join (MigrationFile.directory f) (MigrationFile.filename f).


(** What [getMigrationFiles] leaves in the object, and the call it awaits. *)
Definition remember_files (options : Options.t) (o : ObjState) (w : World) : ObjState :=
  match migrationFiles o with
  | Some _ => o
  | None => set_migrationFiles (known_files options o w) o
  end.

Definition files_trace (options : Options.t) (o : ObjState) (w : World) : list Reply :=
  match migrationFiles o with
  | Some _ => []
  | None =>
      [Replied (ReadAndValidateMigrationsFromDirectories
                  (Options.directories options) EXTENSIONS)
               (Returned (known_files options o w))]
  end.

(** The row [enqueueBatchedMigration] creates in world [w] for the
    migration file [f] whose class reports the parameters [p]. *)
Definition enqueued_row (options : Options.t) (w : World) (f : MigrationFile.t)
  (p : Parameters.t) : BatchedMigrationRow.t :=
  {| BatchedMigrationRow.id := next_id w;
     BatchedMigrationRow.project := Options.project options;
     BatchedMigrationRow.filename := MigrationFile.filename f;
     BatchedMigrationRow.timestamp := MigrationFile.timestamp f;
     BatchedMigrationRow.batch_size := nullish (Parameters.batchSize p) DEFAULT_BATCH_SIZE;
     BatchedMigrationRow.min_value := nullish (Parameters.min p) DEFAULT_MIN_VALUE;
     BatchedMigrationRow.max_value :=
       nullish (Parameters.max p) (nullish (Parameters.min p) DEFAULT_MIN_VALUE);
     BatchedMigrationRow.status := status_default w |}.

(** The columns [enqueueBatchedMigration] fills from the parameters. *)
Definition range_columns (r : BatchedMigrationRow.t) : Z * Z * Z :=
  (BatchedMigrationRow.batch_size r, BatchedMigrationRow.min_value r,
   BatchedMigrationRow.max_value r).


(** The world once [finalizeBatchedMigration] has seen to it that the
    record [m], not [succeeded], is [finalizing]. *)
Definition marked (m : BatchedMigrationRow.t) (w : World) : World :=
  if status_eqb (BatchedMigrationRow.status m) Finalizing then w
  else update_batched_migration_status (BatchedMigrationRow.id m) Finalizing w.


(** ** The tasks of one runner object *)

(** An asynchronous function runs without interruption up to its next
    [await]. *)
Fixpoint advance {A} (p : Prog A) (o : ObjState) : Prog A * ObjState :=
  match p with
  | Call c k =>
      match obj_handle c o with
      | Some (out, o') => advance (k out) o'
      | None => (p, o)
      end
  | Ret _ | Throw _ => (p, o)
  end.

(** The two loops of the class: the [while (true)] of [loop] and the
    [while (this.running)] of [stop]. *)
Inductive TaskKind : Type := LoopTask | StopTask.

(** A call in flight: its kind and what is left of its current turn. *)
Record Task : Type := { kind : TaskKind; cur : Prog LoopCtl }.

Inductive Event : Type :=
| Awaits (k : TaskKind) (X : Type) (c : Cmd X)
| LoopExited
| StopReturned
| Rejected (k : TaskKind) (e : Error).
Arguments Awaits k {X} c.

Record Sys : Type := { obj : ObjState; tasks : list Task; log : list Event }.

Definition initial : Sys := {| obj := new_runner; tasks := []; log := [] |}.

Definition exit_event (k : TaskKind) : Event :=
  match k with
  | LoopTask => LoopExited
  | StopTask => StopReturned
  end.

Section Machine.

Variable options : Options.t.

Definition body (k : TaskKind) : Prog LoopCtl :=
  match k with
  | LoopTask => loop_iteration options
  | StopTask => stop_iteration
  end.

(** From [p] to the next [await]: a turn of the [while] that ends goes on
    with the next turn at once. *)
Definition turn (k : TaskKind) (p : Prog LoopCtl) (o : ObjState)
  : Prog LoopCtl * ObjState :=
  let '(p1, o1) := advance p o in
  match p1 with
  | Ret Continue => advance (body k) o1
  | _ => (p1, o1)
  end.

(** Where a task of kind [k] stands once it has run to [p]: it left its
    loop, it was rejected, or it awaits a call. *)
Definition settle (before after : list Task) (k : TaskKind) (p : Prog LoopCtl)
  (o : ObjState) (l : list Event) : Sys :=
  match p with
  | Ret Exit =>
      {| obj := o; tasks := before ++ after; log := l ++ [exit_event k] |}
  | Ret Continue =>
      {| obj := o; tasks := before ++ {| kind := k; cur := p |} :: after; log := l |}
  | Throw e =>
      {| obj := o; tasks := before ++ after; log := l ++ [Rejected k e] |}
  | Call c _ =>
      {| obj := o; tasks := before ++ {| kind := k; cur := p |} :: after;
         log := l ++ [Awaits k c] |}
  end.

Definition run_task (before after : list Task) (k : TaskKind) (p : Prog LoopCtl)
  (s : Sys) : Sys :=
  let '(p', o') := turn k p (obj s) in settle before after k p' o' (log s).

(** [loop()]: sets [running] and enters the [while (true)]. *)
Definition loop (s : Sys) : Sys :=
  run_task (tasks s) [] LoopTask (Ret Continue)
    {| obj := snd (advance (call (SetRunning true)) (obj s));
       tasks := tasks s; log := log s |}.

(** [start()] *)
Definition start (s : Sys) : Outcome unit * Sys :=
  if running (obj s) then (Threw already_running, s)
  else (Returned tt, loop s).

(** [stop()], up to its first [await] or its return: aborts the signal and
    enters the [while (this.running)]. *)
Definition stop (s : Sys) : Sys :=
  run_task (tasks s) [] StopTask (Ret Continue)
    {| obj := snd (advance (call SignalAbort) (obj s));
       tasks := tasks s; log := log s |}.

(** What may happen next in the process: a caller starts or stops the
    runner, a call some task awaits settles (with any outcome), a task
    standing at the head of its loop goes on, another method of the
    object ([getMigrationFiles]) stores the migration files, or a caller
    registers or removes the listeners for ['error']. *)
Inductive step : Sys -> Sys -> Prop :=
| step_start s : step s (snd (start s))
| step_stop s : step s (stop s)
| step_resume s before after k X (c : Cmd X) cont (out : Outcome X) :
    tasks s = before ++ {| kind := k; cur := Call c cont |} :: after ->
    awaited c = true ->
    step s (run_task before after k (cont out) s)
| step_head s before after k :
    tasks s = before ++ {| kind := k; cur := Ret Continue |} :: after ->
    step s (run_task before after k (Ret Continue) s)
| step_files s fs :
    step s {| obj := set_migrationFiles fs (obj s); tasks := tasks s; log := log s |}
| step_listener s l :
    step s {| obj := set_listener l (obj s); tasks := tasks s; log := log s |}.

Inductive reachable : Sys -> Prop :=
| reachable_initial : reachable initial
| reachable_step s s' : reachable s -> step s s' -> reachable s'.

End Machine.

(** *** Playing the process *)

(** The task at position [i], with those before and after it. *)
Fixpoint split_at {A} (i : nat) (l : list A) {struct l}
  : option (list A * A * list A) :=
  match l, i with
  | [], _ => None
  | x :: rest, O => Some ([], x, rest)
  | x :: rest, S i' =>
      match split_at i' rest with
      | Some (before, y, after) => Some (x :: before, y, after)
      | None => None
      end
  end.

(** What the awaited calls produce. *)
Definition Answers : Type := forall X, Cmd X -> Outcome X.

(** Task [i] goes on: the call it awaits settles as [answer] says, or it
    leaves the head of its loop. *)
Definition resume (options : Options.t) (answer : Answers) (i : nat) (s : Sys) : Sys :=
  match split_at i (tasks s) with
  | Some (before, t, after) =>
      match cur t with
      | Call c cont =>
          if awaited c
          then run_task options before after (kind t) (cont (answer _ c)) s
          else s
      | Ret Continue => run_task options before after (kind t) (Ret Continue) s
      | Ret Exit | Throw _ => s
      end
  | None => s
  end.

Inductive Move : Type :=
| CallStart
| CallStop
| Resume (i : nat) (answer : Answers)
| Listen (l : option Listener).

Definition play_move (options : Options.t) (m : Move) (s : Sys) : Sys :=
  match m with
  | CallStart => snd (start options s)
  | CallStop => stop options s
  | Resume i answer => resume options answer i s
  | Listen l => {| obj := set_listener l (obj s); tasks := tasks s; log := log s |}
  end.

Definition play (options : Options.t) (moves : list Move) (s : Sys) : Sys :=
  fold_left (fun s m => play_move options m s) moves s.

Definition is_loop_task (t : Task) : bool :=
  match kind t with
  | LoopTask => true
  | StopTask => false
  end.

(** A lock acquisition, a batch run or any other call awaited by the loop. *)
Definition is_loop_await (e : Event) : bool :=
  match e with
  | Awaits LoopTask _ => true
  | _ => false
  end.

Definition is_stop_returned (e : Event) : bool :=
  match e with
  | StopReturned => true
  | _ => false
  end.

Definition is_loop_rejected (e : Event) : bool :=
  match e with
  | Rejected LoopTask _ => true
  | _ => false
  end.

(** No call of the loop follows a return of [stop()] in the log; [seen]
    tells whether [stop()] has returned before the log starts. *)
Fixpoint quiet_after_stop (seen : bool) (l : list Event) : bool :=
  match l with
  | [] => true
  | e :: rest =>
      (if seen then negb (is_loop_await e) else true)
      && quiet_after_stop (seen || is_stop_returned e) rest
  end.

(** ** Shapes of programs *)

(** Every call of the program satisfies [C], every value it returns [R]
    and every error it throws [T]; a read or write of a field returns. *)
Inductive Shape (C : forall X, Cmd X -> Prop) {A} (R : A -> Prop) (T : Error -> Prop)
  : Prog A -> Prop :=
| Shape_ret a : R a -> Shape C R T (Ret a)
| Shape_throw e : T e -> Shape C R T (Throw e)
| Shape_call X (c : Cmd X) k :
    C X c ->
    (forall out, (always_returns c = true -> exists x, out = Returned x) ->
                 Shape C R T (k out)) ->
    Shape C R T (Call c k).

Definition anything {A} (a : A) : Prop := True.

Definition writes_flags {X} (c : Cmd X) : bool :=
  match c with
  | SetRunning _ | SignalAbort => true
  | _ => false
  end.

(** The call leaves [running] and the abort signal alone. *)
Definition keeps_flags X (c : Cmd X) : Prop := writes_flags c = false.

Definition not_lock_try X (c : Cmd X) : Prop := asks_lock c = false.

Definition not_runner_run X (c : Cmd X) : Prop := runs_batches c = false.

Definition reply_satisfies (C : forall X, Cmd X -> Prop) (r : Reply) : Prop :=
  match r with
  | Replied c _ => C _ c
  end.

(** What is left of a turn of [loop] or [stop]: it leaves the flags of the
    object alone and ends in [Continue], unless it throws. *)
Definition in_turn (k : TaskKind) (p : Prog LoopCtl) : Prop :=
  Shape keeps_flags (eq Continue) anything p.

Definition is_emit {X} (c : Cmd X) : bool :=
  match c with
  | Emit _ => true
  | _ => false
  end.

Definition is_threw {X} (out : Outcome X) : bool :=
  match out with
  | Threw _ => true
  | Returned _ => false
  end.

(** The program throws only where [emit] has thrown, and then at once:
    every other error is caught. *)
Fixpoint guarded {A} (p : Prog A) : Prop :=
  match p with
  | Ret _ => True
  | Throw _ => False
  | Call c k =>
      forall out, (always_returns c = true -> exists x, out = Returned x) ->
        guarded (k out)
        \/ (is_emit c && is_threw out = true /\ exists e, k out = Throw e)
  end.

(** What follows the check of the abort signal in a turn of [loop]. *)
Definition loop_after_check (options : Options.t) : Prog LoopCtl :=
  bind (loop_round options)
    (fun didWork =>
       if negb didWork
       then try_catch (bind (call (Sleep 30000 true)) (fun _ => Ret Continue))
                      (fun _ => Ret Continue)
       else Ret Continue).

(** What holds of the process at every moment. *)
Record invariant (s : Sys) : Prop := {
  inv_turns : forall t, In t (tasks s) -> in_turn (kind t) (cur t);
  inv_running :
    running (obj s) = false -> forall t, In t (tasks s) -> kind t = StopTask;
  inv_one_loop : (List.length (filter is_loop_task (tasks s)) <= 1)%nat;
  inv_stopping :
    (exists t, In t (tasks s) /\ kind t = StopTask)
    \/ existsb is_stop_returned (log s) = true ->
    aborted (obj s) = true;
  inv_stopped : existsb is_stop_returned (log s) = true -> running (obj s) = false;
  inv_quiet : quiet_after_stop false (log s) = true
}.


(** ** The module-level functions *)

(** The object the module-level [runner] refers to. *)
Record Instance : Type := { instance_options : Options.t; instance : Sys }.

Module Api.

Definition assertRunner (runner : option Instance) : Outcome Instance :=
  match runner with
  | None => Threw not_initialized
  | Some r => Returned r
  end.

Definition initBatchedMigrations (options : Options.t) (runner : option Instance)
  : Outcome unit * option Instance :=
  match runner with
  | Some _ => (Threw already_initialized, runner)
  | None =>
      (Returned tt, Some {| instance_options := options; instance := initial |})
  end.

Definition startBatchedMigrations (runner : option Instance)
  : Outcome unit * option Instance :=
  match assertRunner runner with
  | Threw e => (Threw e, runner)
  | Returned r =>
      let '(out, s') := start (instance_options r) (instance r) in
      (out, Some {| instance_options := instance_options r; instance := s' |})
  end.

Definition enqueueBatchedMigration (runner : option Instance) (identifier : string)
  : Prog unit :=
  match assertRunner runner with
  | Threw e => Throw e
  | Returned r => enqueueBatchedMigration (instance_options r) identifier
  end.

Definition finalizeBatchedMigration (runner : option Instance) (identifier : string)
  : Prog unit :=
  match assertRunner runner with
  | Threw e => Throw e
  | Returned r => finalizeBatchedMigration (instance_options r) identifier
  end.

(** [stopBatchedMigrations] up to [await runner.stop()] ... *)
Definition stopBatchedMigrations_enter (runner : option Instance)
  : Outcome unit * option Instance :=
  match assertRunner runner with
  | Threw e => (Threw e, runner)
  | Returned r =>
      (Returned tt,
       Some {| instance_options := instance_options r;
               instance := stop (instance_options r) (instance r) |})
  end.

(** ... and once [runner.stop()] has returned: [runner = null]. *)
Definition stopBatchedMigrations_leave (runner : option Instance) : option Instance :=
  None.

End Api.


(** ** Scenarios *)

(** The scenario of the spec: [min = 1], [max = 2500], [batchSize = 1000]. *)
Definition backfill_row : BatchedMigrationRow.t :=
  {| BatchedMigrationRow.id := 1;
     BatchedMigrationRow.project := "prairielearn"%string;
     BatchedMigrationRow.filename := "20230406184103_backfill.ts"%string;
     BatchedMigrationRow.timestamp := "20230406184103"%string;
     BatchedMigrationRow.batch_size := 1000;
     BatchedMigrationRow.min_value := 1;
     BatchedMigrationRow.max_value := 2500;
     BatchedMigrationRow.status := Running |}.

(** Three invocations: the budget of the first allows two turns, the batch
    function fails during the second, the third has turns to spare. *)
Definition backfill_calls : list (nat * (Z -> Z -> bool)) :=
  [(2%nat, BatchRunner.always_ok); (1%nat, fun _ _ => false); (5%nat, BatchRunner.always_ok)].


Definition backfill_options : Options.t :=
  Options.mk "prairielearn"%string ["batched-migrations"%string].

Definition backfill_file : MigrationFile.t :=
  MigrationFile.mk "batched-migrations"%string "20230406184103_backfill.ts"%string
    "20230406184103"%string.

(** *** Worlds *)

Definition backfill_module : string :=
  "batched-migrations/20230406184103_backfill.ts"%string.

Definition backfill_identifier : string := "20230406184103_backfill"%string.

(** One migration file, its class reporting the parameters [p] and a batch
    function that succeeds; an empty table whose [status] column defaults
    to [pending]. *)
Definition backfill_world (p : Parameters.t) : World :=
  {| table := [];
     next_id := 1;
     status_default := Pending;
     checkpoints := [];
     locks_elsewhere := [];
     locks_here := [];
     disk := [backfill_file];
     modules := [(backfill_module, Some (MigrationDefinition.mk p BatchRunner.always_ok))];
     turns_per_round := 10%nat;
     batches := [] |}.

Definition backfill_parameters : Parameters.t :=
  Parameters.mk (Value 1) (Value 2500) (Value 1000).

(** [getParameters()] resolving to [{ max: null }] and to [{}]. *)
Definition no_rows_parameters : Parameters.t := Parameters.mk Undefined Null Undefined.
Definition no_parameters : Parameters.t := Parameters.mk Undefined Undefined Undefined.

(** [getParameters()] resolving to [{ max: 0n }]. *)
Definition inverted_parameters : Parameters.t :=
  Parameters.mk Undefined (Value 0) Undefined.

Definition enqueue_in (p : Parameters.t) : Result World unit :=
  exec (world_handler spec_runner)
    (enqueueBatchedMigration backfill_options backfill_identifier)
    new_runner (backfill_world p).

(** The migration of the scenario stuck at [running] with its cursor at
    2000 of 2500; [held] are the locks other processes hold and [files]
    the migration files on this server. *)
Definition stuck_world (held : list string) (files : list MigrationFile.t) : World :=
  {| table := [backfill_row];
     next_id := 2;
     status_default := Pending;
     checkpoints := [(1, 2000)];
     locks_elsewhere := held;
     locks_here := [];
     disk := files;
     modules :=
       [(backfill_module,
         Some (MigrationDefinition.mk backfill_parameters BatchRunner.always_ok))];
     turns_per_round := 10%nat;
     batches := [] |}.

Definition backfill_lock : string :=
  "batched-migrations:prairielearn:20230406184103"%string.

Definition finalize_in (w : World) : Result World unit :=
  exec (world_handler spec_runner)
    (finalizeBatchedMigration backfill_options backfill_identifier) new_runner w.

(** *** A run of the process: [stop()] is called in the middle of a round *)

(** Every awaited call succeeds: the migration of the scenario is
    runnable, its file is known, the lock is free. *)
Definition all_well : Answers :=
  fun X c =>
    match c in Cmd X return Outcome X with
    | ReadAndValidateMigrationsFromDirectories _ _ => Returned [backfill_file]
    | ImportDefault path => Returned (Some path)
    | GetParameters _ =>
        Returned (Parameters.mk (Value 1) (Value 2500) (Value 1000))
    | InsertBatchedMigration _ => Returned tt
    | SelectBatchedMigrationForTimestamp _ _ => Returned backfill_row
    | UpdateBatchedMigrationStatus _ s => Returned (set_status s backfill_row)
    | SelectOrStartRunningMigration _ => Returned (Some backfill_row)
    | LockTry _ => Returned true
    | LockRelease _ => Returned tt
    | RunnerRun _ _ _ => Returned tt
    | Sleep _ _ => Returned tt
    | GetRunning | GetAborted | GetMigrationFiles => Threw not_awaited
    | SetRunning _ | SignalAbort | SetMigrationFiles _ | Emit _ => Threw not_awaited
    end.

(** The database is down: the query of [getOrStartMigration] fails. *)
Definition connection_refused : Error := "connection refused"%string.

Definition database_down : Answers :=
  fun X c =>
    match c in Cmd X return Outcome X with
    | SelectOrStartRunningMigration _ => Threw connection_refused
    | c => all_well _ c
    end.

(** A new runner, no listener registered: [start()]; the query of the
    first round fails. *)
Definition error_without_listener : list Move :=
  [CallStart; Resume 0 database_down].

(** The same with a listener registered first that returns. *)
Definition returning_listener : Listener := fun _ => None.

Definition error_with_listener : list Move :=
  [Listen (Some returning_listener); CallStart; Resume 0 database_down].

(** [start()]; the loop finds the migration; [stop()] is called; the loop
    reads the migration files, takes the lock, loads the class, runs the
    Batch Runner, releases the lock and sees the signal; the sleep of
    [stop()] ends. *)
Definition stop_mid_round : list Move :=
  [CallStart; Resume 0 all_well; CallStop;
   Resume 0 all_well; Resume 0 all_well; Resume 0 all_well;
   Resume 0 all_well; Resume 0 all_well; Resume 0 all_well].


(** ** Further readings of programs and traces *)

(** The character does not occur in the string. *)
Fixpoint no_char (c : ascii) (s : string) : bool :=
  match s with
  | EmptyString => true
  | String c' rest => negb (Ascii.eqb c' c) && no_char c rest
  end.

Definition colon : ascii := ":"%char.

Definition is_returned {A} (o : Outcome A) : bool :=
  match o with
  | Returned _ => true
  | Threw _ => false
  end.

Definition is_insert (r : Reply) : bool :=
  match r with
  | Replied (InsertBatchedMigration _) _ => true
  | _ => false
  end.

(** The parameters a [getParameters()] call resolved to. *)
Definition parameters_given (r : Reply) : option Parameters.t :=
  match r with
  | Replied (GetParameters _) (Returned p) => Some p
  | _ => None
  end.

(** The lock service granted the lock. *)
Definition lock_acquired (r : Reply) : bool :=
  match r with
  | Replied (LockTry _) (Returned true) => true
  | _ => false
  end.

(** The options a run of the Batch Runner was given. *)
Definition run_options (r : Reply) : option (option RunOptions) :=
  match r with
  | Replied (RunnerRun _ _ opts) _ => Some opts
  | _ => None
  end.

(** The Batch Runner threw. *)
Definition runner_threw (r : Reply) : bool :=
  match runner_error r with
  | Some _ => true
  | None => false
  end.

(** An awaited call of a round, the sleep after it apart, threw. *)
Definition round_threw (r : Reply) : bool :=
  match thrown_in_round r with
  | Some _ => true
  | None => false
  end.

(** The round failed here: an awaited call threw, or the default export
    imported is no migration class. *)
Definition round_failed (r : Reply) : bool :=
  match r with
  | Replied (ImportDefault _) (Returned None) => true
  | _ => round_threw r
  end.

Definition is_sleep (r : Reply) : bool :=
  match r with
  | Replied (Sleep _ _) _ => true
  | _ => false
  end.

(** The status a read of the record returned. *)
Definition status_read (r : Reply) : option BatchedMigrationStatus :=
  match r with
  | Replied (SelectBatchedMigrationForTimestamp _ _) (Returned m) =>
      Some (BatchedMigrationRow.status m)
  | _ => None
  end.

(** The status an update of the record asked for. *)
Definition status_written (r : Reply) : option BatchedMigrationStatus :=
  match r with
  | Replied (UpdateBatchedMigrationStatus _ s) _ => Some s
  | _ => None
  end.

(** The lock discipline of a trace: a lock is taken only when none is
    held, the Batch Runner runs only while one is held, a release names
    the lock held, and at the end every lock taken has been handed back
    to the lock service, whatever the release produced. [held] is the
    lock held when the trace starts. *)
Fixpoint lock_scan (held : option string) (tr : list Reply) : bool :=
  match tr with
  | [] =>
      match held with
      | None => true
      | Some _ => false
      end
  | Replied (LockTry n) (Returned true) :: rest =>
      match held with
      | None => lock_scan (Some n) rest
      | Some _ => false
      end
  | Replied (LockRelease n) _ :: rest =>
      match held with
      | Some n' => String.eqb n n' && lock_scan None rest
      | None => false
      end
  | Replied (RunnerRun _ _ _) _ :: rest =>
      match held with
      | Some _ => lock_scan held rest
      | None => false
      end
  | _ :: rest => lock_scan held rest
  end.

(** An [insertBatchedMigration] call that returned. *)
Definition insert_returned (r : Reply) : bool :=
  match r with
  | Replied (InsertBatchedMigration _) (Returned _) => true
  | _ => false
  end.

(** Two runs awaited the same calls, got the same replies and left the
    same object and environment, and both returned or both threw. *)
Definition same_effects {St A} (r1 r2 : Result St A) : Prop :=
  trace r1 = trace r2 /\ obj_after r1 = obj_after r2
  /\ env_after r1 = env_after r2
  /\ is_returned (outcome r1) = is_returned (outcome r2).

(** The name a [tryWithLock] call asked the lock service for. *)
Definition lock_asked (r : Reply) : option string :=
  match r with
  | Replied (LockTry n) _ => Some n
  | _ => None
  end.

(** The record and the options a run of the Batch Runner was given. *)
Definition run_given (r : Reply) : option (BatchedMigrationRow.t * option RunOptions) :=
  match r with
  | Replied (RunnerRun m _ opts) _ => Some (m, opts)
  | _ => None
  end.

(** The migration [getOrStartMigration] returned. *)
Definition started (r : Reply) : option BatchedMigrationRow.t :=
  match r with
  | Replied (SelectOrStartRunningMigration _) (Returned (Some m)) => Some m
  | _ => None
  end.

(** The record a read of the table returned. *)
Definition read_row (r : Reply) : option BatchedMigrationRow.t :=
  match r with
  | Replied (SelectBatchedMigrationForTimestamp _ _) (Returned m) => Some m
  | _ => None
  end.

(** The project and timestamp a read of the table asked for. *)
Definition read_key (r : Reply) : option (string * string) :=
  match r with
  | Replied (SelectBatchedMigrationForTimestamp project timestamp) _ =>
      Some (project, timestamp)
  | _ => None
  end.

(** The id and status an update of the table asked for, and the record
    it returned. *)
Definition update_asked (r : Reply) : option (Z * BatchedMigrationStatus) :=
  match r with
  | Replied (UpdateBatchedMigrationStatus id s) _ => Some (id, s)
  | _ => None
  end.

Definition updated_row (r : Reply) : option BatchedMigrationRow.t :=
  match r with
  | Replied (UpdateBatchedMigrationStatus _ _) (Returned m) => Some m
  | _ => None
  end.

(** ** Letting the tasks of a process go on *)

(** The task stands at an [await] or at the head of its loop. *)
Definition waits (p : Prog LoopCtl) : bool :=
  match p with
  | Ret Continue => true
  | Call c _ => awaited c
  | Ret Exit | Throw _ => false
  end.

(** What is left of a turn of [stop] at its [await sleep(1000)]. *)
Definition stop_sleep : Prog LoopCtl :=
  bind (call (Sleep 1000 false)) (fun _ => Ret Continue).

Definition is_stop_task (t : Task) : bool := negb (is_loop_task t).

(** The tasks at the given positions go on, one after the other, the
    calls they await settling as [answer] says. *)
Definition resumes (answer : Answers) (positions : list nat) : list Move :=
  map (fun i => Resume i answer) positions.

(** Whatever the call a program awaits produces, the turn ends or throws. *)
Definition ends_after_reply (p : Prog LoopCtl) : Prop :=
  match p with
  | Call c k => forall out, k out = Ret Continue \/ exists e, k out = Throw e
  | _ => True
  end.

(** ** The migration files and classes a method works with *)

Definition is_read_directories (r : Reply) : bool :=
  match r with
  | Replied (ReadAndValidateMigrationsFromDirectories _ _) _ => true
  | _ => false
  end.

(** The path a class was imported from, with the class. *)
Definition imported_class (r : Reply) : option (string * MigrationClass) :=
  match r with
  | Replied (ImportDefault path) (Returned (Some cls)) => Some (path, cls)
  | _ => None
  end.

(** The class whose parameters were asked for or whose batches were run. *)
Definition class_used (r : Reply) : option MigrationClass :=
  match r with
  | Replied (GetParameters cls) _ => Some cls
  | Replied (RunnerRun _ cls _) _ => Some cls
  | _ => None
  end.

(** The run used no other class than one imported from the file of the
    migration files of the object that [getMigrationForIdentifier] finds
    for the identifier. *)
Definition uses_the_class_found {St A} (identifier : string) (r : Result St A) : Prop :=
  forall cls, In (Some cls) (map class_used (trace r)) ->
    exists f files,
      migrationFiles (obj_after r) = Some files
      /\ In f files
      /\ MigrationFile.timestamp f = split_head underscore identifier
      /\ In (Some (path_join (MigrationFile.directory f) (MigrationFile.filename f), cls))
            (map imported_class (trace r)).

(** The run read no directory and kept the migration files [fs]. *)
Definition keeps_the_files {St A} (fs : list MigrationFile.t) (r : Result St A) : Prop :=
  existsb is_read_directories (trace r) = false
  /\ migrationFiles (obj_after r) = Some fs.

(** ** A loop that was rejected *)

(** No event [banned] follows an event [trigger] in the log; [seen]
    tells whether [trigger] has occurred before the log starts. *)
Fixpoint never_after (trigger banned : Event -> bool) (seen : bool) (l : list Event)
  : bool :=
  match l with
  | [] => true
  | e :: rest =>
      (if seen then negb (banned e) else true)
      && never_after trigger banned (seen || trigger e) rest
  end.

(** What the rejection of [loop()] leaves behind: [running] is set exactly
    when a call of [loop] is in flight or one was rejected; after a
    rejection [running] stays set, no call of [loop] is in flight and no
    [stop()] returns. *)
Record stuck_or_alive (s : Sys) : Prop := {
  alive_or_rejected :
    running (obj s) = true ->
    (exists t, In t (tasks s) /\ kind t = LoopTask)
    \/ existsb is_loop_rejected (log s) = true;
  rejected_stays :
    existsb is_loop_rejected (log s) = true ->
    running (obj s) = true /\ forall t, In t (tasks s) -> kind t = StopTask;
  no_return_after_rejection :
    never_after is_loop_rejected is_stop_returned false (log s) = true
}.

(** The import of a migration module fails; every other call succeeds. *)
Definition module_missing : Error := "Cannot find module"%string.

Definition import_fails : Answers :=
  fun X c =>
    match c in Cmd X return Outcome X with
    | ImportDefault _ => Threw module_missing
    | c => all_well _ c
    end.

(** ** The statement that updates a status, with its timestamp *)

Module StoredRow.
(** A row of [batched_migrations] as the table holds it: the columns the
    runner reads and [updated_at], which it does not read. *)
Record t : Type := mk { columns : BatchedMigrationRow.t; updated_at : Z }.
End StoredRow.

(** [update_batched_migration_status] of batched-migration.sql with all
    it sets: [status = $status, updated_at = CURRENT_TIMESTAMP] in the
    rows [WHERE id = $id]; [now] is the value of [CURRENT_TIMESTAMP]. *)
Definition update_batched_migration_status_at (now : Z) (id : Z)
  (s : BatchedMigrationStatus) (rows : list StoredRow.t) : list StoredRow.t :=
  map (fun r =>
         if BatchedMigrationRow.id (StoredRow.columns r) =? id
         then {| StoredRow.columns := set_status s (StoredRow.columns r);
                 StoredRow.updated_at := now |}
         else r)
      rows.

(** The columns of a record other than [status]. *)
Definition fixed_columns (r : BatchedMigrationRow.t)
  : Z * string * string * string * Z * Z * Z :=
  (BatchedMigrationRow.id r, BatchedMigrationRow.project r,
   BatchedMigrationRow.filename r, BatchedMigrationRow.timestamp r,
   BatchedMigrationRow.batch_size r, BatchedMigrationRow.min_value r,
   BatchedMigrationRow.max_value r).


(** * Properties *)

(** ** The Batch Runner covers its range *)

Section BatchRunnerFacts.

Import BatchRunner.


Lemma removelast_cons (A : Type) (x : A) (l : list A) :
  l <> [] -> removelast (x :: l) = x :: removelast l.
Proof. destruct l; [congruence | reflexivity]. Qed.

Lemma last_end_app c l1 l2 : last_end c (l1 ++ l2) = last_end (last_end c l1) l2.
Proof. unfold last_end. apply fold_left_app. Qed.

Lemma last_end_cons c r l : last_end c (r :: l) = last_end (snd r) l.
Proof. reflexivity. Qed.

Lemma chained_app b hi l1 : forall c l2,
  chained b hi c l1 -> chained b hi (last_end c l1) l2 -> chained b hi c (l1 ++ l2).
Proof.
  induction l1 as [|r l1 IH]; intros c l2 H1 H2; simpl in *.
  - exact H2.
  - destruct H1 as (E & S & L & Z & H1). repeat split; auto.
Qed.

Lemma chained_last_end b hi l : forall c,
  chained b hi c l -> c <= last_end c l.
Proof.
  induction l as [|r l IH]; intros c H.
  - simpl. lia.
  - rewrite last_end_cons. destruct H as (_ & S & L & _ & H). apply IH in H. lia.
Qed.

Lemma run_failed_invokes ok b hi budget : forall c stop c' inv,
  run ok b hi budget c = (stop, c', inv) -> stop = BatchFailed -> inv <> [].
Proof.
  induction budget as [|n IH]; intros c stop c' inv H F; simpl in H.
  - congruence.
  - destruct (hi <=? c); [congruence|].
    destruct (ok _ _).
    + destruct (run ok b hi n _) as [[s1 c1] i1]. inversion H. congruence.
    + inversion H. congruence.
Qed.

Lemma run_spec ok b hi budget : forall c stop c' inv,
  1 <= b -> c <= hi ->
  run ok b hi budget c = (stop, c', inv) ->
  chained b hi c (succeeded_batches stop inv)
  /\ c' = last_end c (succeeded_batches stop inv)
  /\ c' <= hi
  /\ (stop = Completed -> c' = hi).
Proof.
  induction budget as [|n IH]; intros c stop c' inv Hb Hc H; simpl in H.
  - inversion H; subst. simpl. repeat split; auto; congruence.
  - destruct (Z.leb_spec hi c).
    + inversion H; subst. simpl. repeat split; auto; intros; lia.
    + destruct (ok _ _) eqn:Hok.
      * destruct (run ok b hi n _) as [[s1 c1] i1] eqn:Hr. inversion H; subst.
        assert (Z.min (c + b) hi <= hi) as Hm by lia.
        pose proof (IH _ _ _ _ Hb Hm Hr) as (C & E & L & D).
        assert (succeeded_batches stop ((c + 1, Z.min (c + b) hi) :: i1)
                = (c + 1, Z.min (c + b) hi) :: succeeded_batches stop i1) as ->.
        { destruct stop; try reflexivity. simpl succeeded_batches.
          apply removelast_cons. eapply run_failed_invokes; eauto. }
        split; [|split; [|split]]; auto.
        simpl. repeat split; auto; lia.
      * inversion H; subst. simpl. repeat split; auto; try lia; congruence.
Qed.

Lemma run_stuck ok b hi budget : forall c stop c' inv,
  b <= 0 -> c < hi ->
  run ok b hi budget c = (stop, c', inv) -> stop <> Completed /\ c' < hi.
Proof.
  induction budget as [|n IH]; intros c stop c' inv Hb Hc H; simpl in H.
  - inversion H; subst. split; [congruence | lia].
  - destruct (Z.leb_spec hi c); [lia|].
    destruct (ok _ _).
    + destruct (run ok b hi n _) as [[s1 c1] i1] eqn:Hr. inversion H; subst.
      apply (IH (Z.min (c + b) hi) stop c' i1 Hb); [lia | exact Hr].
    + inversion H; subst. split; [congruence | lia].
Qed.

Lemma drive_spec b hi calls : forall c,
  1 <= b -> c <= hi ->
  let p := drive b hi calls c in
  chained b hi c (done p) /\ cursor p = last_end c (done p)
  /\ (completed p = true -> cursor p = hi).
Proof.
  induction calls as [|[budget ok] rest IH]; intros c Hb Hc; simpl.
  - repeat split; auto. congruence.
  - destruct (run ok b hi budget c) as [[stop c1] inv] eqn:Hr.
    destruct (run_spec _ _ _ _ _ _ _ _ Hb Hc Hr) as (C & E & L & D).
    destruct stop; simpl.
    + repeat split; auto.
    + destruct (IH c1 Hb L) as (C2 & E2 & D2). simpl in *.
      rewrite last_end_app, <- E. repeat split; auto.
      apply chained_app; auto. rewrite <- E. auto.
    + destruct (IH c1 Hb L) as (C2 & E2 & D2). simpl in *.
      rewrite last_end_app, <- E. repeat split; auto.
      apply chained_app; auto. rewrite <- E. auto.
Qed.

Lemma drive_stuck b hi calls : forall c,
  b <= 0 -> c < hi -> completed (drive b hi calls c) = false.
Proof.
  induction calls as [|[budget ok] rest IH]; intros c Hb Hc; simpl.
  - reflexivity.
  - destruct (run ok b hi budget c) as [[stop c1] inv] eqn:Hr.
    destruct (run_stuck _ _ _ _ _ _ _ _ Hb Hc Hr) as (N & L).
    destruct stop; simpl; try congruence; apply IH; auto.
Qed.

Lemma chained_cover b hi l : forall c v,
  chained b hi c l ->
  cover_count v l = if (c <? v) && (v <=? last_end c l) then 1%nat else 0%nat.
Proof.
  induction l as [|r l IH]; intros c v H.
  - unfold cover_count. simpl.
    destruct (Z.ltb_spec c v), (Z.leb_spec v c); simpl; auto; lia.
  - pose proof H as (E & S & L & Z & H').
    rewrite last_end_cons. pose proof (chained_last_end _ _ _ _ H') as M.
    specialize (IH _ v H'). unfold cover_count in *. simpl.
    unfold in_range at 1. rewrite S.
    destruct (Z.leb_spec (c + 1) v), (Z.leb_spec v (snd r)); simpl;
      rewrite ?IH;
      destruct (Z.ltb_spec (snd r) v), (Z.ltb_spec c v),
        (Z.leb_spec v (last_end (snd r) l)); simpl; auto; lia.
Qed.

Lemma run_all_ok_invoked ok b hi budget : forall c stop c' inv,
  (forall s e, ok s e = true) ->
  run ok b hi budget c = (stop, c', inv) -> stop <> BatchFailed.
Proof.
  induction budget as [|n IH]; intros c stop c' inv A H; simpl in H.
  - inversion H. congruence.
  - destruct (hi <=? c); [inversion H; congruence|].
    rewrite A in H. destruct (run ok b hi n _) as [[s1 c1] i1] eqn:Hr.
    inversion H; subst. eapply IH; eauto.
Qed.

Lemma drive_all_ok b hi calls : forall c,
  Forall (fun call => forall s e, snd call s e = true) calls ->
  invoked (drive b hi calls c) = done (drive b hi calls c).
Proof.
  induction calls as [|[budget ok] rest IH]; intros c A; simpl.
  - reflexivity.
  - inversion A; subst. simpl in *.
    destruct (run ok b hi budget c) as [[stop c1] inv] eqn:Hr.
    pose proof (run_all_ok_invoked _ _ _ _ _ _ _ _ H1 Hr).
    destruct stop; simpl; try congruence. rewrite IH; auto.
Qed.

Lemma run_completes ok b hi : forall budget c,
  (forall s e, ok s e = true) -> 1 <= b ->
  (Z.to_nat (hi - c) < budget)%nat ->
  fst (fst (run ok b hi budget c)) = Completed.
Proof.
  induction budget as [|n IH]; intros c A Hb F; [lia|]. simpl.
  destruct (Z.leb_spec hi c); [reflexivity|].
  rewrite A. destruct (run ok b hi n _) as [[s1 c1] i1] eqn:Hr. simpl.
  specialize (IH (Z.min (c + b) hi) A Hb). rewrite Hr in IH. apply IH. lia.
Qed.

End BatchRunnerFacts.

(** C1. For every migration record with [min_value <= max_value] and
    every sequence of invocations of the Batch Runner (each with its own
    budget and behaviour of the batch function), started from the cursor
    [min_value - 1]: once the runner reports completion, the subranges
    the batch function completed are each the next subrange
    [cursor+1, min(cursor+batch_size, max_value)] of the cursor they
    start from, follow one another without gap from [min_value] to
    [max_value], are not empty and no longer than [batch_size], and every
    unit lies in exactly one of them when it is in the range and in none
    otherwise; when the batch function never fails these are all the
    invocations. With a positive [batch_size] and a batch function that
    succeeds, one invocation with enough turns does complete. *)
Theorem batch_runner_partitions_range
  (m : BatchedMigrationRow.t) (calls : list (nat * (Z -> Z -> bool))) :
  BatchedMigrationRow.min_value m <= BatchedMigrationRow.max_value m ->
  let size := BatchedMigrationRow.batch_size m in
  let lo := BatchedMigrationRow.min_value m in
  let hi := BatchedMigrationRow.max_value m in
  let p := BatchRunner.drive size hi calls (BatchRunner.initial_cursor lo) in
  (BatchRunner.completed p = true ->
   BatchRunner.chained size hi (lo - 1) (BatchRunner.done p)
   /\ BatchRunner.last_end (lo - 1) (BatchRunner.done p) = hi
   /\ BatchRunner.cursor p = hi
   /\ (forall v, BatchRunner.cover_count v (BatchRunner.done p)
                 = if (lo <=? v) && (v <=? hi) then 1%nat else 0%nat)
   /\ (Forall (fun call => forall s e, snd call s e = true) calls ->
       BatchRunner.invoked p = BatchRunner.done p))
  /\ (1 <= size ->
      forall budget, (Z.to_nat (hi - lo + 1) < budget)%nat ->
      BatchRunner.completed
        (BatchRunner.drive size hi [(budget, BatchRunner.always_ok)]
           (BatchRunner.initial_cursor lo)) = true).
Proof.
  intros Hrange size lo hi p. split.
  - intros Hdone.
    destruct (Z_le_gt_dec 1 size) as [Hsize | Hsize].
    + assert (BatchRunner.initial_cursor lo <= hi) as Hc
        by (unfold BatchRunner.initial_cursor; lia).
      destruct (drive_spec size hi calls _ Hsize Hc) as (C & E & D).
      fold p in C, E, D. unfold BatchRunner.initial_cursor in *.
      specialize (D Hdone).
      split; [exact C|]. split; [congruence|]. split; [exact D|]. split.
      * intros v. rewrite (chained_cover _ _ _ _ v C), <- E, D.
        destruct (Z.ltb_spec (lo - 1) v), (Z.leb_spec lo v); try lia; reflexivity.
      * intros A. apply drive_all_ok. exact A.
    + assert (BatchRunner.completed p = false) as F.
      { apply drive_stuck; unfold BatchRunner.initial_cursor; lia. }
      congruence.
  - intros Hsize budget Hbudget. simpl.
    pose proof (run_completes BatchRunner.always_ok size hi budget
                  (BatchRunner.initial_cursor lo) (fun _ _ => eq_refl) Hsize) as R.
    destruct (BatchRunner.run _ _ _ _ _) as [[stop c] r]. simpl in R.
    rewrite R; [reflexivity|]. unfold BatchRunner.initial_cursor.
    replace (hi - (lo - 1)) with (hi - lo + 1) by lia. exact Hbudget.
Qed.

(** The scenario runs [[1,1000]], [[1001,2000]], [[2001,2500]]. *)
Lemma batch_runner_partitions_range_witness :
  BatchRunner.done
    (BatchRunner.drive 1000 2500 backfill_calls (BatchRunner.initial_cursor 1))
  = [(1, 1000); (1001, 2000); (2001, 2500)]
  /\ BatchRunner.cover_count 2000
       (BatchRunner.done
          (BatchRunner.drive 1000 2500 backfill_calls (BatchRunner.initial_cursor 1)))
     = 1%nat.
Proof.
  split; [reflexivity|].
  assert (BatchedMigrationRow.min_value backfill_row
          <= BatchedMigrationRow.max_value backfill_row) as H by (simpl; lia).
  destruct (batch_runner_partitions_range backfill_row backfill_calls H) as [P _].
  destruct (P eq_refl) as (_ & _ & _ & Cov & _).
  exact (Cov 2000).
Defined.

(** ** Running programs: equations *)

Section ExecFacts.

Context {St : Type} (h : Handler St).

Lemma exec_bind {A B} (p : Prog A) (f : A -> Prog B) : forall o s,
  exec h (bind p f) o s =
  let r := exec h p o s in
  match outcome r with
  | Returned a =>
      let r2 := exec h (f a) (obj_after r) (env_after r) in
      {| outcome := outcome r2; obj_after := obj_after r2;
         env_after := env_after r2; trace := trace r ++ trace r2 |}
  | Threw e =>
      {| outcome := Threw e; obj_after := obj_after r;
         env_after := env_after r; trace := trace r |}
  end.
Proof.
  induction p as [a | e | X c k IH]; intros o s; simpl.
  - destruct (exec h (f a) o s); reflexivity.
  - reflexivity.
  - destruct (obj_handle c o) as [[x o']|].
    + apply IH.
    + destruct (h X c o s) as [out s']. rewrite IH. simpl.
      destruct (exec h (k out) o s') as [[a | e] o2 s2 t2]; reflexivity.
Qed.

Lemma exec_try_catch {A} (p : Prog A) (handler : Error -> Prog A) : forall o s,
  exec h (try_catch p handler) o s =
  let r := exec h p o s in
  match outcome r with
  | Returned a => r
  | Threw e =>
      let r2 := exec h (handler e) (obj_after r) (env_after r) in
      {| outcome := outcome r2; obj_after := obj_after r2;
         env_after := env_after r2; trace := trace r ++ trace r2 |}
  end.
Proof.
  induction p as [a | e | X c k IH]; intros o s; simpl.
  - reflexivity.
  - destruct (exec h (handler e) o s); reflexivity.
  - destruct (obj_handle c o) as [[x o']|].
    + apply IH.
    + destruct (h X c o s) as [out s']. rewrite IH. simpl.
      destruct (exec h (k out) o s') as [[a | e] o2 s2 t2]; reflexivity.
Qed.

Lemma exec_try_finally {A} (p : Prog A) (fin : Prog unit) : forall o s,
  exec h (try_finally p fin) o s =
  let r := exec h p o s in
  let r2 := exec h fin (obj_after r) (env_after r) in
  {| outcome := match outcome r2 with
                | Returned _ => outcome r
                | Threw e => Threw e
                end;
     obj_after := obj_after r2; env_after := env_after r2;
     trace := trace r ++ trace r2 |}.
Proof.
  induction p as [a | e | X c k IH]; intros o s; simpl.
  - rewrite exec_bind. simpl.
    destruct (exec h fin o s) as [[[]|e] o2 s2 t2]; simpl; rewrite ?app_nil_r; reflexivity.
  - rewrite exec_bind. simpl.
    destruct (exec h fin o s) as [[[]|e'] o2 s2 t2]; simpl; rewrite ?app_nil_r; reflexivity.
  - destruct (obj_handle c o) as [[x o']|].
    + apply IH.
    + destruct (h X c o s) as [out s']. rewrite IH. reflexivity.
Qed.

End ExecFacts.

(** ** Shapes of programs: closure and soundness *)

Lemma obj_handle_returns {X} (c : Cmd X) (o o' : ObjState) (out : Outcome X) :
  obj_handle c o = Some (out, o') -> always_returns c = true ->
  exists x, out = Returned x.
Proof.
  destruct c; simpl; intros E F; try discriminate; inversion E; eauto.
Qed.

Lemma obj_handle_none {X} (c : Cmd X) (o : ObjState) :
  obj_handle c o = None -> always_returns c = false.
Proof. destruct c; simpl; intros E; try discriminate; reflexivity. Qed.

Lemma awaited_may_throw {X} (c : Cmd X) :
  awaited c = true -> always_returns c = false.
Proof. destruct c; simpl; intros E; try discriminate; reflexivity. Qed.

Section ShapeFacts.

Variable C : forall X, Cmd X -> Prop.

Lemma Shape_bind {A B} (R : A -> Prop) (R' : B -> Prop) (T : Error -> Prop)
  (p : Prog A) (f : A -> Prog B) :
  Shape C R T p -> (forall a, R a -> Shape C R' T (f a)) -> Shape C R' T (bind p f).
Proof.
  induction 1 as [a Ha | e He | X c k Hc Hk IH]; intros Hf; simpl.
  - auto.
  - apply Shape_throw; auto.
  - apply Shape_call; auto.
Qed.

Lemma Shape_try_catch {A} (R : A -> Prop) (T T' : Error -> Prop)
  (p : Prog A) (handler : Error -> Prog A) :
  Shape C R T p -> (forall e, T e -> Shape C R T' (handler e)) ->
  Shape C R T' (try_catch p handler).
Proof.
  induction 1 as [a Ha | e He | X c k Hc Hk IH]; intros Hh; simpl.
  - apply Shape_ret; auto.
  - auto.
  - apply Shape_call; auto.
Qed.

Lemma Shape_try_finally {A} (R : A -> Prop) (T : Error -> Prop)
  (p : Prog A) (fin : Prog unit) :
  Shape C R T p -> Shape C anything T fin -> Shape C R T (try_finally p fin).
Proof.
  induction 1 as [a Ha | e He | X c k Hc Hk IH]; intros Hf; simpl.
  - eapply Shape_bind; [exact Hf|]. intros _ _. apply Shape_ret; auto.
  - eapply Shape_bind; [exact Hf|]. intros _ _. apply Shape_throw; auto.
  - apply Shape_call; auto.
Qed.

Lemma Shape_call_inv {A X} (R : A -> Prop) (T : Error -> Prop)
  (c : Cmd X) (k : Outcome X -> Prog A) :
  Shape C R T (Call c k) ->
  forall out, (always_returns c = true -> exists x, out = Returned x) ->
              Shape C R T (k out).
Proof.
  intros H.
  change (match Call c k with
          | Call c' k' =>
              forall out, (always_returns c' = true -> exists x, out = Returned x) ->
                          Shape C R T (k' out)
          | _ => True
          end).
  destruct H; auto.
Qed.

Lemma Shape_call' {X} (c : Cmd X) (T : Error -> Prop) :
  C X c -> (always_returns c = false -> forall e, T e) -> Shape C anything T (call c).
Proof.
  intros Hc HT. apply Shape_call; [exact Hc|].
  intros [x | e] Hout.
  - apply Shape_ret. exact I.
  - apply Shape_throw. destruct (always_returns c) eqn:E.
    + destruct (Hout eq_refl) as [x Hx]. discriminate.
    + apply HT. reflexivity.
Qed.

(** What a program of a given shape does when run. *)
Lemma exec_shape {St A} (h : Handler St) (R : A -> Prop) (T : Error -> Prop)
  (p : Prog A) :
  Shape C R T p ->
  forall o s,
    match outcome (exec h p o s) with
    | Returned a => R a
    | Threw e => T e
    end
    /\ Forall (reply_satisfies C) (trace (exec h p o s)).
Proof.
  induction 1 as [a Ha | e He | X c k Hc Hk IH]; intros o s; simpl.
  - split; [exact Ha | constructor].
  - split; [exact He | constructor].
  - destruct (obj_handle c o) as [[x o']|] eqn:E.
    + apply IH. apply (obj_handle_returns c o o' x E).
    + destruct (h X c o s) as [out s']. simpl.
      assert (always_returns c = true -> exists x, out = Returned x) as Hout.
      { intros F. rewrite (obj_handle_none c o E) in F. discriminate. }
      destruct (IH out Hout o s') as [Ho Ht]. split; [exact Ho|].
      constructor; [exact Hc | exact Ht].
Qed.

End ShapeFacts.

Lemma emit_keeps_fields (err : Error) (o : ObjState) :
  running (snd (emit err o)) = running o
  /\ aborted (snd (emit err o)) = aborted o
  /\ migrationFiles (snd (emit err o)) = migrationFiles o
  /\ error_listener (snd (emit err o)) = error_listener o.
Proof.
  unfold emit. destruct (error_listener o) eqn:E; simpl; rewrite ?E; auto.
Qed.

Lemma obj_handle_keeps_flags {X} (c : Cmd X) (o : ObjState) x o' :
  keeps_flags X c -> obj_handle c o = Some (x, o') ->
  running o' = running o /\ aborted o' = aborted o.
Proof.
  unfold keeps_flags. destruct c; simpl; intros K H; inversion H; subst;
    try discriminate; try (split; reflexivity).
  pose proof (emit_keeps_fields err o) as (F1 & F2 & _).
  match goal with E : emit _ _ = _ |- _ => rewrite E in F1, F2 end.
  simpl in F1, F2. auto.
Qed.

Lemma exec_keeps_flags {St A} (h : Handler St) (R : A -> Prop) (T : Error -> Prop)
  (p : Prog A) :
  Shape keeps_flags R T p ->
  forall o s,
    running (obj_after (exec h p o s)) = running o
    /\ aborted (obj_after (exec h p o s)) = aborted o.
Proof.
  induction 1 as [a Ha | e He | X c k Hc Hk IH]; intros o s; simpl; auto.
  destruct (obj_handle c o) as [[x o']|] eqn:E.
  - destruct (obj_handle_keeps_flags _ _ _ _ Hc E) as [E1 E2].
    rewrite <- E1, <- E2. apply IH. apply (obj_handle_returns c o o' x E).
  - destruct (h X c o s) as [out s']. simpl. apply IH.
    intros F. rewrite (obj_handle_none c o E) in F. discriminate.
Qed.

Lemma advance_shape {A} (C : forall X, Cmd X -> Prop) (R : A -> Prop)
  (T : Error -> Prop) (p : Prog A) :
  Shape C R T p -> forall o, Shape C R T (fst (advance p o)).
Proof.
  induction 1 as [a Ha | e He | X c k Hc Hk IH]; intros o; simpl.
  - apply Shape_ret; auto.
  - apply Shape_throw; auto.
  - destruct (obj_handle c o) as [[x o']|] eqn:E.
    + apply IH. apply (obj_handle_returns c o o' x E).
    + simpl. apply Shape_call; auto.
Qed.

Lemma advance_keeps_flags {A} (R : A -> Prop) (T : Error -> Prop) (p : Prog A) :
  Shape keeps_flags R T p ->
  forall o, running (snd (advance p o)) = running o
            /\ aborted (snd (advance p o)) = aborted o.
Proof.
  induction 1 as [a Ha | e He | X c k Hc Hk IH]; intros o; simpl; auto.
  destruct (obj_handle c o) as [[x o']|] eqn:E; simpl; auto.
  destruct (obj_handle_keeps_flags _ _ _ _ Hc E) as [E1 E2].
  rewrite <- E1, <- E2. apply IH. apply (obj_handle_returns c o o' x E).
Qed.

(** ** Which calls the methods make *)

Section Calls.

Variable C : forall X, Cmd X -> Prop.

Lemma Uses_call {X} (c : Cmd X) : C X c -> Shape C anything anything (call c).
Proof. intros Hc. apply Shape_call'; [exact Hc | intros _ e; exact I]. Qed.

Lemma Uses_bind {A B} (p : Prog A) (f : A -> Prog B) :
  Shape C anything anything p -> (forall a, Shape C anything anything (f a)) ->
  Shape C (@anything B) anything (bind p f).
Proof. intros Hp Hf. eapply Shape_bind; [exact Hp | intros a _; apply Hf]. Qed.

Lemma Uses_try_catch {A} (p : Prog A) (handler : Error -> Prog A) :
  Shape C anything anything p -> (forall e, Shape C anything anything (handler e)) ->
  Shape C (@anything A) anything (try_catch p handler).
Proof. intros Hp Hh. eapply Shape_try_catch; [exact Hp | intros e _; apply Hh]. Qed.

End Calls.

Section MethodShapes.

Variable options : Options.t.

Lemma getMigrationForIdentifier_calls (C : forall X, Cmd X -> Prop) identifier :
  C _ GetMigrationFiles ->
  (forall fs, C _ (SetMigrationFiles fs)) ->
  (forall dirs exts, C _ (ReadAndValidateMigrationsFromDirectories dirs exts)) ->
  Shape C anything anything (getMigrationForIdentifier options identifier).
Proof.
  intros H1 H2 H3. unfold getMigrationForIdentifier, getMigrationFiles.
  apply Uses_bind; [|intros; apply Shape_ret; exact I].
  apply Uses_bind; [apply Uses_call; exact H1|].
  intros [fs|]; [apply Shape_ret; exact I|].
  apply Uses_bind; [apply Uses_call; apply H3|]. intros fs.
  apply Uses_bind; [apply Uses_call; apply H2|]. intros _. apply Shape_ret; exact I.
Qed.

Lemma loadMigrationClass_calls (C : forall X, Cmd X -> Prop) f :
  (forall path, C _ (ImportDefault path)) ->
  Shape C anything anything (loadMigrationClass f).
Proof.
  intros H. unfold loadMigrationClass.
  apply Uses_bind; [apply Uses_call; apply H|].
  intros [cls|]; [apply Shape_ret | apply Shape_throw]; exact I.
Qed.

(** [finalizeBatchedMigration] asks for no lock. *)
Lemma finalize_asks_no_lock identifier :
  Shape not_lock_try anything anything (finalizeBatchedMigration options identifier).
Proof.
  unfold finalizeBatchedMigration.
  apply Uses_bind; [apply Uses_call; reflexivity|]. intros m.
  destruct (status_eqb _ Succeeded); [apply Shape_ret; exact I|].
  apply Uses_bind.
  { destruct (negb _); [apply Uses_call; reflexivity | apply Shape_ret; exact I]. }
  intros m1. apply Uses_bind.
  { apply getMigrationForIdentifier_calls; intros; reflexivity. }
  intros [f|]; [|apply Shape_throw; exact I].
  apply Uses_bind; [apply loadMigrationClass_calls; intros; reflexivity|]. intros cls.
  apply Uses_bind; [apply Uses_call; reflexivity|]. intros _.
  apply Uses_bind; [apply Uses_call; reflexivity|]. intros m2.
  destruct (status_eqb _ Succeeded); [apply Shape_ret | apply Shape_throw]; exact I.
Qed.

(** [enqueueBatchedMigration] does not run the Batch Runner. *)
Lemma enqueue_runs_no_batch identifier :
  Shape not_runner_run anything anything (enqueueBatchedMigration options identifier).
Proof.
  unfold enqueueBatchedMigration.
  apply Uses_bind.
  { apply getMigrationForIdentifier_calls; intros; reflexivity. }
  intros [f|]; [|apply Shape_throw; exact I].
  apply Uses_bind; [apply loadMigrationClass_calls; intros; reflexivity|]. intros cls.
  apply Uses_bind; [apply Uses_call; reflexivity|]. intros p.
  apply Uses_call. reflexivity.
Qed.

Lemma maybePerformWork_keeps_flags durationMs :
  Shape keeps_flags anything anything (maybePerformWork options durationMs).
Proof.
  unfold maybePerformWork, getOrStartMigration, tryWithLock.
  apply Uses_bind; [apply Uses_call; reflexivity|]. intros [m|]; [|apply Shape_ret; exact I].
  apply Uses_bind.
  { apply getMigrationForIdentifier_calls; intros; reflexivity. }
  intros [f|]; [|apply Shape_ret; exact I].
  apply Uses_bind; [|intros; apply Shape_ret; exact I].
  apply Uses_bind; [apply Uses_call; reflexivity|]. intros [|]; [|apply Shape_ret; exact I].
  apply Shape_try_finally; [|apply Uses_call; reflexivity].
  apply Uses_bind; [|intros; apply Shape_ret; exact I].
  apply Uses_bind; [apply loadMigrationClass_calls; intros; reflexivity|]. intros cls.
  apply Uses_try_catch; [apply Uses_call; reflexivity|].
  intros e. apply Uses_call. reflexivity.
Qed.

(** The [try]/[catch] of [loop] leaves the flags of the object alone. *)
Lemma loop_round_shape : Shape keeps_flags anything anything (loop_round options).
Proof.
  unfold loop_round.
  apply Uses_try_catch; [apply maybePerformWork_keeps_flags|].
  intros e. apply Uses_bind; [apply Uses_call; reflexivity|].
  intros _. apply Shape_ret. exact I.
Qed.

Lemma loop_after_check_in_turn : in_turn LoopTask (loop_after_check options).
Proof.
  unfold in_turn, loop_after_check.
  eapply Shape_bind; [apply loop_round_shape|].
  intros didWork _. destruct (negb didWork); [|apply Shape_ret; reflexivity].
  eapply Shape_try_catch with (T := anything).
  - eapply Shape_bind; [apply Uses_call; reflexivity|].
    intros _ _. apply Shape_ret. reflexivity.
  - intros e _. apply Shape_ret. reflexivity.
Qed.

Lemma advance_loop_iteration o :
  advance (loop_iteration options) o =
  if aborted o then (Ret Exit, set_running false o) else advance (loop_after_check options) o.
Proof. unfold loop_iteration. simpl. destruct (aborted o); reflexivity. Qed.

Lemma advance_stop_iteration o :
  advance stop_iteration o =
  if running o
  then (bind (call (Sleep 1000 false)) (fun _ => Ret Continue), o)
  else (Ret Exit, o).
Proof. unfold stop_iteration. simpl. destruct (running o); reflexivity. Qed.

Lemma stop_sleep_in_turn :
  in_turn StopTask (bind (call (Sleep 1000 false)) (fun _ => Ret Continue)).
Proof.
  unfold in_turn. eapply Shape_bind; [apply Uses_call; reflexivity|].
  intros _ _. apply Shape_ret. reflexivity.
Qed.

End MethodShapes.

(** ** The invariant of the process *)

Lemma quiet_after_stop_app l : forall seen l',
  quiet_after_stop seen (l ++ l') =
  quiet_after_stop seen l
  && quiet_after_stop (seen || existsb is_stop_returned l) l'.
Proof.
  induction l as [|e l IH]; intros seen l'; simpl.
  - rewrite orb_false_r. reflexivity.
  - rewrite IH, orb_assoc, andb_assoc. reflexivity.
Qed.

Lemma count_loop_app (l1 l2 : list Task) :
  List.length (filter is_loop_task (l1 ++ l2)) =
  (List.length (filter is_loop_task l1) + List.length (filter is_loop_task l2))%nat.
Proof. rewrite filter_app, length_app. reflexivity. Qed.

Lemma no_loop_task (l : list Task) :
  List.length (filter is_loop_task l) = 0%nat ->
  forall t, In t l -> kind t = StopTask.
Proof.
  induction l as [|t' l IH]; simpl; intros H t Ht; [contradiction|].
  unfold is_loop_task in H at 1. destruct (kind t') eqn:K; simpl in H; [lia|].
  destruct Ht as [<- | Ht]; auto.
Qed.

Lemma all_stop_tasks (l : list Task) :
  (forall t, In t l -> kind t = StopTask) ->
  List.length (filter is_loop_task l) = 0%nat.
Proof.
  induction l as [|t' l IH]; simpl; intros H; [reflexivity|].
  unfold is_loop_task at 1. rewrite (H t' (or_introl eq_refl)). auto.
Qed.

Section Invariant.

Variable options : Options.t.

Lemma turn_cases k p o :
  in_turn k p ->
  let p' := fst (turn options k p o) in
  let o' := snd (turn options k p o) in
  (in_turn k p'
   /\ running o' = running o /\ aborted o' = aborted o
   /\ (k = LoopTask -> p = Ret Continue -> aborted o = false))
  \/ (p' = Ret Exit
      /\ match k with
         | LoopTask => aborted o = true /\ running o' = false /\ aborted o' = true
         | StopTask => running o = false /\ running o' = false /\ aborted o' = aborted o
         end).
Proof.
  intros Hp. cbv zeta. unfold turn.
  pose proof (advance_shape _ _ _ _ Hp o) as H1.
  pose proof (advance_keeps_flags _ _ _ Hp o) as [F1 F2].
  destruct (advance p o) as [p1 o1] eqn:E. simpl in H1, F1, F2.
  assert (forall q, p1 = q ->
          (q = Ret Continue -> False) ->
          in_turn k q /\ running o1 = running o /\ aborted o1 = aborted o
          /\ (k = LoopTask -> p = Ret Continue -> aborted o = false)) as Stay.
  { intros q -> N. repeat split; auto. intros _ ->. simpl in E.
    inversion E; subst. exfalso. apply N. reflexivity. }
  destruct p1 as [[|] | e | X c cont].
  - (* the turn ended: the next one starts *)
    destruct k; cbv beta iota delta [body].
    + rewrite advance_loop_iteration. destruct (aborted o1) eqn:A.
      * right. simpl. repeat split; congruence.
      * left. simpl.
        pose proof (advance_shape _ _ _ _ (loop_after_check_in_turn options) o1) as H2.
        pose proof (advance_keeps_flags _ _ _ (loop_after_check_in_turn options) o1) as [G1 G2].
        repeat split; try congruence. exact H2.
    + rewrite advance_stop_iteration. destruct (running o1) eqn:A.
      * left. simpl. repeat split; try congruence; try discriminate.
        apply stop_sleep_in_turn.
      * right. simpl. repeat split; congruence.
  - inversion H1; subst. discriminate.
  - left. simpl. apply Stay; [reflexivity | discriminate].
  - left. simpl. apply Stay; [reflexivity | discriminate].
Qed.

Lemma in_others (before after : list Task) (t t' : Task) :
  In t (before ++ t' :: after) <-> t = t' \/ In t (before ++ after).
Proof.
  rewrite !in_app_iff. simpl. intuition congruence.
Qed.

Lemma count_loop_others (before after : list Task) (t : Task) :
  List.length (filter is_loop_task (before ++ t :: after)) =
  (List.length (filter is_loop_task (before ++ after))
   + (if is_loop_task t then 1 else 0))%nat.
Proof.
  rewrite !count_loop_app. simpl. destruct (is_loop_task t); simpl; lia.
Qed.

(** A task that runs on from [p] keeps the invariant, when the rest of
    the process is as the invariant says. *)
Lemma run_task_invariant before after k p s :
  (forall t, In t (before ++ after) -> in_turn (kind t) (cur t)) ->
  in_turn k p ->
  (List.length (filter is_loop_task (before ++ after))
   + (match k with LoopTask => 1 | StopTask => 0 end) <= 1)%nat ->
  (running (obj s) = false ->
   k = StopTask /\ forall t, In t (before ++ after) -> kind t = StopTask) ->
  (k = StopTask \/ (exists t, In t (before ++ after) /\ kind t = StopTask)
   \/ existsb is_stop_returned (log s) = true -> aborted (obj s) = true) ->
  (existsb is_stop_returned (log s) = true ->
   running (obj s) = false \/ (k = LoopTask /\ p = Ret Continue)) ->
  quiet_after_stop false (log s) = true ->
  invariant (run_task options before after k p s).
Proof.
  intros R1 R2 R3 R4 R5 R6 R7. unfold run_task.
  pose proof (turn_cases k p (obj s) R2) as Cases. cbv zeta in Cases.
  destruct (turn options k p (obj s)) as [p' o']. simpl in Cases.
  assert (existsb is_stop_returned (log s) = true -> k = StopTask
          \/ aborted (obj s) = true /\ p = Ret Continue /\ k = LoopTask) as Seen.
  { intros S. destruct (R6 S) as [F | [K P]].
    - left. apply R4. exact F.
    - right. repeat split; auto. }
  destruct Cases as [(T' & F1 & F2 & Fresh) | (-> & Exits)].
  - (* the task goes on *)
    assert (existsb is_stop_returned (log s) = true -> k = StopTask) as SeenStop.
    { intros S. destruct (Seen S) as [K | (A & P & K)]; [exact K|].
      rewrite (Fresh K P) in A. discriminate. }
    assert (invariant {| obj := o';
                         tasks := before ++ {| kind := k; cur := p' |} :: after;
                         log := log s |}) as Kept.
    { constructor; simpl.
      - intros t Ht. apply in_others in Ht. destruct Ht as [-> | Ht]; auto.
      - intros F t Ht. rewrite F1 in F. destruct (R4 F) as [K Others].
        apply in_others in Ht. destruct Ht as [-> | Ht]; auto.
      - rewrite count_loop_others. unfold is_loop_task at 2. simpl.
        destruct k; exact R3.
      - intros H. rewrite F2. apply R5. destruct H as [(t & Ht & K) | S]; auto.
        apply in_others in Ht. destruct Ht as [-> | Ht]; eauto.
      - intros S. rewrite F1. destruct (R6 S) as [F | [K P]]; [exact F|].
        rewrite (SeenStop S) in K. discriminate.
      - exact R7. }
    destruct p' as [[|] | e | X c cont]; simpl.
    + exact Kept.
    + inversion T'; subst. discriminate.
    + (* the call is rejected: the task is gone, the flags stay *)
      destruct Kept as [K1 K2 K3 K4 K5 K6]. simpl in *.
      constructor; simpl.
      * intros t Ht. apply R1. exact Ht.
      * intros F t Ht. apply (K2 F). apply in_others. auto.
      * rewrite count_loop_others in K3. lia.
      * intros H. apply K4. rewrite existsb_app in H. simpl in H.
        rewrite orb_false_r in H. destruct H as [(t & Ht & K) | H]; auto.
        left. exists t. split; [apply in_others; auto | exact K].
      * rewrite existsb_app. simpl. rewrite orb_false_r. exact K5.
      * rewrite quiet_after_stop_app, R7. simpl.
        destruct (existsb is_stop_returned (log s)); reflexivity.
    + destruct Kept as [K1 K2 K3 K4 K5 K6]. simpl in *.
      constructor; simpl; auto.
      * intros H. apply K4. rewrite existsb_app in H. simpl in H.
        rewrite orb_false_r in H. exact H.
      * rewrite existsb_app. simpl. rewrite orb_false_r. exact K5.
      * rewrite quiet_after_stop_app, R7. simpl.
        destruct (existsb is_stop_returned (log s)) eqn:S; [|reflexivity].
        rewrite (SeenStop eq_refl). reflexivity.
  - (* the task leaves its loop *)
    simpl. destruct k.
    + destruct Exits as (A & F1 & F2).
      assert (forall t, In t (before ++ after) -> kind t = StopTask) as Others.
      { apply no_loop_task. lia. }
      constructor; simpl; auto.
      * apply all_stop_tasks in Others. lia.
      * rewrite quiet_after_stop_app, R7. simpl.
        destruct (existsb is_stop_returned (log s)); reflexivity.
    + destruct Exits as (F0 & F1 & F2).
      constructor; simpl; auto.
      * intros _. apply R4. exact F0.
      * lia.
      * intros _. rewrite F2. apply R5. auto.
      * rewrite quiet_after_stop_app, R7. simpl.
        destruct (existsb is_stop_returned (log s)); reflexivity.
Qed.

End Invariant.

Section Reachable.

Variable options : Options.t.

Lemma initial_invariant : invariant initial.
Proof.
  constructor; simpl; auto; try contradiction.
  intros [(t & [] & _) | H]; discriminate.
Qed.

(** A task of the process that runs on from [p] keeps the invariant. *)
Lemma task_step_invariant s before after k p0 p :
  invariant s ->
  tasks s = before ++ {| kind := k; cur := p0 |} :: after ->
  in_turn k p ->
  invariant (run_task options before after k p s).
Proof.
  intros [I1 I2 I3 I4 I5 I6] Ht Hp.
  assert (In {| kind := k; cur := p0 |} (tasks s)) as Here.
  { rewrite Ht. apply in_others. auto. }
  apply run_task_invariant; auto.
  - intros t Hin. apply I1. rewrite Ht. apply in_others. auto.
  - rewrite Ht, count_loop_others in I3. unfold is_loop_task in I3 at 2.
    simpl in I3. destruct k; lia.
  - intros F. split.
    + apply (I2 F _ Here).
    + intros t Hin. apply (I2 F). rewrite Ht. apply in_others. auto.
  - intros [K | [(t & Hin & K) | S]]; apply I4.
    + left. exists {| kind := k; cur := p0 |}. auto.
    + left. exists t. split; [rewrite Ht; apply in_others; auto | exact K].
    + right. exact S.
Qed.

Lemma step_invariant s s' : invariant s -> step options s s' -> invariant s'.
Proof.
  intros Inv St.
  destruct St as [s | s | s before after k X c cont out Ht Hc | s before after k Ht
                 | s fs | s l].
  - (* start() *)
    unfold start. destruct (running (obj s)) eqn:Run; simpl; [exact Inv|].
    destruct Inv as [I1 I2 I3 I4 I5 I6].
    unfold loop. apply run_task_invariant; simpl.
    + rewrite app_nil_r. exact I1.
    + apply Shape_ret. reflexivity.
    + rewrite app_nil_r. rewrite (all_stop_tasks _ (I2 Run)). lia.
    + discriminate.
    + intros [K | [(t & Hin & K) | S]]; [discriminate | |]; apply I4.
      * left. rewrite app_nil_r in Hin. eauto.
      * right. exact S.
    + intros _. right. split; reflexivity.
    + exact I6.
  - (* stop() *)
    destruct Inv as [I1 I2 I3 I4 I5 I6].
    unfold stop. apply run_task_invariant; simpl.
    + rewrite app_nil_r. exact I1.
    + apply Shape_ret. reflexivity.
    + rewrite app_nil_r. lia.
    + intros F. split; [reflexivity|]. rewrite app_nil_r. apply I2. exact F.
    + reflexivity.
    + intros S. left. apply I5. exact S.
    + exact I6.
  - (* an awaited call settles *)
    apply task_step_invariant with (p0 := Call c cont); [exact Inv | exact Ht |].
    pose proof (inv_turns _ Inv {| kind := k; cur := Call c cont |}) as T. simpl in T.
    eapply Shape_call_inv.
    + apply T. rewrite Ht. apply in_others. auto.
    + intros F. rewrite (awaited_may_throw c Hc) in F. discriminate.
  - (* a task at the head of its loop goes on *)
    apply task_step_invariant with (p0 := Ret Continue); [exact Inv | exact Ht |].
    apply Shape_ret. reflexivity.
  - (* the migration files are stored *)
    destruct Inv as [I1 I2 I3 I4 I5 I6]. constructor; simpl; auto.
  - (* the listeners change *)
    destruct Inv as [I1 I2 I3 I4 I5 I6]. constructor; simpl; auto.
Qed.

Lemma reachable_invariant s : reachable options s -> invariant s.
Proof.
  induction 1 as [| s s' _ IH St].
  - exact initial_invariant.
  - exact (step_invariant _ _ IH St).
Qed.

End Reachable.

(** ** Playing the process stays within its steps *)

Lemma split_at_spec {A} (l : list A) : forall i before x after,
  split_at i l = Some (before, x, after) -> l = before ++ x :: after.
Proof.
  induction l as [|y l IH]; intros i before x after H; simpl in H; [discriminate|].
  destruct i as [|i].
  - inversion H; subst. reflexivity.
  - destruct (split_at i l) as [[[b z] a]|] eqn:E; [|discriminate].
    inversion H; subst. simpl. f_equal. apply (IH i). exact E.
Qed.

Lemma play_move_reachable options m s :
  reachable options s -> reachable options (play_move options m s).
Proof.
  intros R. destruct m as [| | i answer | l]; simpl;
    [| | | eapply reachable_step; [exact R | apply step_listener]].
  - eapply reachable_step; [exact R | apply step_start].
  - eapply reachable_step; [exact R | apply step_stop].
  - unfold resume. destruct (split_at i (tasks s)) as [[[before t] after]|] eqn:E; [|exact R].
    apply split_at_spec in E. destruct t as [k p]. simpl.
    destruct p as [[|] | e | X c cont]; try exact R.
    + eapply reachable_step; [exact R | apply step_head; exact E].
    + destruct (awaited c) eqn:Aw; [|exact R].
      eapply reachable_step; [exact R | apply step_resume with (c := c); [exact E | exact Aw]].
Qed.

Lemma play_reachable options moves : forall s,
  reachable options s -> reachable options (play options moves s).
Proof.
  induction moves as [|m moves IH]; intros s R; simpl.
  - exact R.
  - apply IH. apply play_move_reachable. exact R.
Qed.

Lemma quiet_after_stop_seen l :
  quiet_after_stop true l = true -> Forall (fun e => is_loop_await e = false) l.
Proof.
  induction l as [|e l IH]; simpl; intros H; constructor.
  - apply andb_prop in H. destruct H as [H _]. destruct (is_loop_await e); [discriminate | reflexivity].
  - apply IH. apply andb_prop in H. apply H.
Qed.

Lemma quiet_after_stop_split l earlier later :
  quiet_after_stop false l = true -> l = earlier ++ StopReturned :: later ->
  Forall (fun e => is_loop_await e = false) later.
Proof.
  intros Q ->. rewrite quiet_after_stop_app in Q. apply andb_prop in Q.
  destruct Q as [_ Q]. simpl in Q. rewrite orb_true_r in Q.
  apply andb_prop in Q. apply quiet_after_stop_seen. apply Q.
Qed.

(** ** [stop()] *)

(** C5. In every state the process can reach (callers start and stop the
    runner at any moment, awaited calls settle in any order and with any
    outcome): once a call of [stop()] has returned, [running] is [false],
    the abort signal is set and no task of [loop] is left, and no call
    awaited by the loop (a lock acquisition, a run of the Batch Runner or
    any other) is logged after the return of [stop()]. *)
Theorem stop_returns_after_loop_exit (options : Options.t) (s : Sys) :
  reachable options s ->
  (existsb is_stop_returned (log s) = true ->
   running (obj s) = false /\ aborted (obj s) = true
   /\ forall t, In t (tasks s) -> kind t = StopTask)
  /\ (forall earlier later,
        log s = earlier ++ StopReturned :: later ->
        Forall (fun e => is_loop_await e = false) later).
Proof.
  intros R. apply reachable_invariant in R. destruct R as [I1 I2 I3 I4 I5 I6].
  split.
  - intros S. split; [auto|]. split; auto.
  - intros earlier later E. eapply quiet_after_stop_split; eauto.
Qed.

(** [stop()] called in the middle of a round returns after the round has
    ended and the loop has left. *)
Lemma stop_returns_after_loop_exit_witness :
  let s := play backfill_options stop_mid_round initial in
  log s =
    [Awaits LoopTask (SelectOrStartRunningMigration "prairielearn");
     Awaits LoopTask (ReadAndValidateMigrationsFromDirectories
                        ["batched-migrations"%string] EXTENSIONS);
     Awaits StopTask (Sleep 1000 false);
     Awaits LoopTask (LockTry "batched-migrations:prairielearn:20230406184103");
     Awaits LoopTask (ImportDefault "batched-migrations/20230406184103_backfill.ts");
     Awaits LoopTask (RunnerRun backfill_row
                        "batched-migrations/20230406184103_backfill.ts"%string
                        (Some {| signal := true; durationMs := 60000 |}));
     Awaits LoopTask (LockRelease "batched-migrations:prairielearn:20230406184103");
     LoopExited; StopReturned]
  /\ running (obj s) = false /\ aborted (obj s) = true
  /\ forall t, In t (tasks s) -> kind t = StopTask.
Proof.
  intros s. split; [reflexivity|].
  assert (reachable backfill_options s) as R
    by (apply play_reachable; apply reachable_initial).
  destruct (stop_returns_after_loop_exit backfill_options s R) as [Stopped _].
  apply Stopped. reflexivity.
Defined.

(** ** The methods on the reference world *)

Section WorldFacts.

Variable options : Options.t.
Variable runner : RunnerModel.

Lemma exec_getMigrationForIdentifier identifier o w :
  exec (world_handler runner) (getMigrationForIdentifier options identifier) o w =
  {| outcome := Returned (file_for options o w identifier);
     obj_after := remember_files options o w;
     env_after := w;
     trace := files_trace options o w |}.
Proof.
  unfold getMigrationForIdentifier, getMigrationFiles, file_for, known_files,
    remember_files, files_trace.
  simpl. destruct (migrationFiles o) eqn:E; simpl; unfold known_files; rewrite ?E;
    reflexivity.
Qed.

Lemma exec_enqueue identifier f d o w :
  file_for options o w identifier = Some f ->
  assoc (module_of f) (modules w) = Some (Some d) ->
  existsb (same_migration (Options.project options) (MigrationFile.timestamp f))
          (table w) = false ->
  let r := exec (world_handler runner) (enqueueBatchedMigration options identifier) o w in
  outcome r = Returned tt
  /\ obj_after r = remember_files options o w
  /\ env_after r =
     with_table (table w ++ [enqueued_row options w f (MigrationDefinition.parameters d)])
                (next_id w + 1) w.
Proof.
  intros Hf Hm Hd. cbv zeta. unfold enqueueBatchedMigration.
  rewrite exec_bind, exec_getMigrationForIdentifier. cbv zeta. simpl outcome. rewrite Hf.
  unfold loadMigrationClass. unfold module_of in Hm.
  simpl. rewrite !Hm. simpl. rewrite !Hm. simpl. rewrite Hd. simpl. auto.
Qed.

End WorldFacts.

Lemma update_keeps_range_columns id s w :
  map range_columns (table (update_batched_migration_status id s w)) =
  map range_columns (table w).
Proof.
  unfold update_batched_migration_status. simpl. rewrite map_map.
  apply map_ext. intros r. destruct (BatchedMigrationRow.id r =? id); reflexivity.
Qed.

(** ** [enqueueBatchedMigration] *)

(** C8. When [enqueueBatchedMigration] resolves the identifier to a
    migration file whose class loads and no row of that project and
    timestamp exists, it adds one row to the table: [batch_size] is 1000
    when [getParameters()] gives no [batchSize] and the value given
    otherwise, [min_value] is 1 when it gives no [min] and the value given
    otherwise, [max_value] is the [max] given; and
    [update_batched_migration_status], the only later statement on the
    row, leaves the three columns of every row as they are. *)
Theorem enqueue_stores_parameters
  (options : Options.t) (runner : RunnerModel) (o : ObjState) (w : World)
  (identifier : string) (f : MigrationFile.t) (d : MigrationDefinition.t) :
  file_for options o w identifier = Some f ->
  assoc (module_of f) (modules w) = Some (Some d) ->
  existsb (same_migration (Options.project options) (MigrationFile.timestamp f))
          (table w) = false ->
  let p := MigrationDefinition.parameters d in
  let r := exec (world_handler runner) (enqueueBatchedMigration options identifier) o w in
  exists row,
    outcome r = Returned tt
    /\ table (env_after r) = table w ++ [row]
    /\ (Parameters.batchSize p = Undefined \/ Parameters.batchSize p = Null ->
        BatchedMigrationRow.batch_size row = 1000)
    /\ (forall v, Parameters.batchSize p = Value v ->
                  BatchedMigrationRow.batch_size row = v)
    /\ (Parameters.min p = Undefined \/ Parameters.min p = Null ->
        BatchedMigrationRow.min_value row = 1)
    /\ (forall v, Parameters.min p = Value v -> BatchedMigrationRow.min_value row = v)
    /\ (forall v, Parameters.max p = Value v -> BatchedMigrationRow.max_value row = v)
    /\ (forall id s,
          map range_columns
              (table (update_batched_migration_status id s (env_after r)))
          = map range_columns (table (env_after r))).
Proof.
  intros Hf Hm Hd p r.
  destruct (exec_enqueue options runner identifier f d o w Hf Hm Hd) as (Ho & _ & He).
  fold r in Ho, He. fold p in He.
  exists (enqueued_row options w f p).
  split; [exact Ho|]. split; [rewrite He; reflexivity|]. simpl.
  split; [intros [E | E]; rewrite E; reflexivity|].
  split; [intros v E; rewrite E; reflexivity|].
  split; [intros [E | E]; rewrite E; reflexivity|].
  split; [intros v E; rewrite E; reflexivity|].
  split; [intros v E; rewrite E; reflexivity|].
  intros id s. apply update_keeps_range_columns.
Qed.

(** With [{ min: 1n, max: 2500n, batchSize: 1000 }] the row holds 1000, 1
    and 2500; with [{ max: null }] it holds 1000, 1 and 1. *)
Lemma enqueue_stores_parameters_witness :
  map range_columns (table (env_after (enqueue_in backfill_parameters)))
  = [(1000, 1, 2500)]
  /\ map range_columns (table (env_after (enqueue_in no_rows_parameters)))
     = [(1000, 1, 1)]
  /\ exists row,
       table (env_after (enqueue_in no_rows_parameters)) = [row]
       /\ BatchedMigrationRow.batch_size row = 1000
       /\ BatchedMigrationRow.min_value row = 1.
Proof.
  split; [reflexivity|]. split; [reflexivity|].
  destruct (enqueue_stores_parameters backfill_options spec_runner new_runner
              (backfill_world no_rows_parameters) backfill_identifier backfill_file
              (MigrationDefinition.mk no_rows_parameters BatchRunner.always_ok)
              eq_refl eq_refl eq_refl)
    as (row & _ & T & B & _ & M & _).
  exists row. split; [exact T|]. split; [apply B | apply M]; left; reflexivity.
Defined.

(** C7, as the code has it. Under the conditions of C8 the row added
    has [max_value = min_value] when [getParameters()] gives no [max]
    ([null] or nothing); when it gives one, [min_value <= max_value]
    holds exactly when the [min] given (1 without one) is at most that
    [max], for the bounds are stored as given; and
    [update_batched_migration_status] changes neither bound of any row. *)
Theorem enqueue_range_follows_parameters
  (options : Options.t) (runner : RunnerModel) (o : ObjState) (w : World)
  (identifier : string) (f : MigrationFile.t) (d : MigrationDefinition.t) :
  file_for options o w identifier = Some f ->
  assoc (module_of f) (modules w) = Some (Some d) ->
  existsb (same_migration (Options.project options) (MigrationFile.timestamp f))
          (table w) = false ->
  let p := MigrationDefinition.parameters d in
  let r := exec (world_handler runner) (enqueueBatchedMigration options identifier) o w in
  exists row,
    table (env_after r) = table w ++ [row]
    /\ (Parameters.max p = Null \/ Parameters.max p = Undefined ->
        BatchedMigrationRow.max_value row = BatchedMigrationRow.min_value row)
    /\ (forall hi, Parameters.max p = Value hi ->
          (BatchedMigrationRow.min_value row <= BatchedMigrationRow.max_value row
           <-> nullish (Parameters.min p) DEFAULT_MIN_VALUE <= hi))
    /\ (forall id s,
          map range_columns
              (table (update_batched_migration_status id s (env_after r)))
          = map range_columns (table (env_after r))).
Proof.
  intros Hf Hm Hd p r.
  destruct (exec_enqueue options runner identifier f d o w Hf Hm Hd) as (Ho & _ & He).
  fold r in Ho, He. fold p in He.
  exists (enqueued_row options w f p).
  split; [rewrite He; reflexivity|]. simpl.
  split; [intros [E | E]; rewrite E; reflexivity|].
  split; [intros hi E; rewrite E; simpl; tauto|].
  intros id s. apply update_keeps_range_columns.
Qed.

Lemma enqueue_range_follows_parameters_witness :
  exists row,
    table (env_after (enqueue_in no_rows_parameters)) = [row]
    /\ BatchedMigrationRow.max_value row = BatchedMigrationRow.min_value row.
Proof.
  destruct (enqueue_range_follows_parameters backfill_options spec_runner new_runner
              (backfill_world no_rows_parameters) backfill_identifier backfill_file
              (MigrationDefinition.mk no_rows_parameters BatchRunner.always_ok)
              eq_refl eq_refl eq_refl)
    as (row & T & N & _).
  exists row. split; [exact T|]. apply N. left. reflexivity.
Defined.

(** C7 as stated fails: a definition whose [getParameters()] resolves to
    [{ max: 0n }] is enqueued with [min_value = 1] and [max_value = 0],
    and the bounds are the same once a round of the loop has taken the
    record out of [pending]. *)
Lemma enqueue_stores_inverted_range :
  let r := enqueue_in inverted_parameters in
  let round :=
    exec (world_handler spec_runner) (maybePerformWork backfill_options (60 * 1000))
      (obj_after r) (env_after r) in
  outcome r = Returned tt
  /\ (exists row,
        table (env_after r) = [row]
        /\ ~ (BatchedMigrationRow.min_value row <= BatchedMigrationRow.max_value row))
  /\ (exists row,
        table (env_after round) = [row]
        /\ BatchedMigrationRow.status row <> Pending
        /\ ~ (BatchedMigrationRow.min_value row <= BatchedMigrationRow.max_value row)).
Proof.
  split; [reflexivity|]. split.
  - eexists. split; [vm_compute; reflexivity|]. simpl. lia.
  - eexists. split; [vm_compute; reflexivity|]. split; [discriminate|]. simpl. lia.
Qed.

(** Whatever the parameters, the row takes the status the table gives it. *)
Lemma enqueue_status_is_table_default
  (options : Options.t) (runner : RunnerModel) (o : ObjState) (w : World)
  (identifier : string) (f : MigrationFile.t) (d : MigrationDefinition.t) :
  file_for options o w identifier = Some f ->
  assoc (module_of f) (modules w) = Some (Some d) ->
  existsb (same_migration (Options.project options) (MigrationFile.timestamp f))
          (table w) = false ->
  let r := exec (world_handler runner) (enqueueBatchedMigration options identifier) o w in
  exists row,
    table (env_after r) = table w ++ [row]
    /\ BatchedMigrationRow.status row = status_default w.
Proof.
  intros Hf Hm Hd r.
  destruct (exec_enqueue options runner identifier f d o w Hf Hm Hd) as (_ & _ & He).
  fold r in He. eexists. rewrite He. split; reflexivity.
Qed.

(** C2, on the code. With [getParameters()] resolving to [{ max: null }]
    the object handed to [insertBatchedMigration] has status [succeeded],
    but the row the INSERT creates has the status the table gives it
    ([pending] here), and the next round of the loop runs the batch
    [[1, 1]] for it. With no [max] at all the object handed over has
    status [pending] already. *)
Theorem enqueue_without_rows_is_left_pending :
  let r := enqueue_in no_rows_parameters in
  let r' := enqueue_in no_parameters in
  map (option_map NewBatchedMigration.status) (map inserted (trace r))
  = [None; None; None; Some Succeeded]
  /\ map BatchedMigrationRow.status (table (env_after r)) = [Pending]
  /\ batches (env_after (exec (world_handler spec_runner)
                           (maybePerformWork backfill_options (60 * 1000))
                           (obj_after r) (env_after r)))
     = [(1, (1, 1))]
  /\ map (option_map NewBatchedMigration.status) (map inserted (trace r'))
     = [None; None; None; Some Pending]
  /\ map BatchedMigrationRow.status (table (env_after r')) = [Pending].
Proof. repeat split. Qed.

(** ** [finalizeBatchedMigration] *)

Lemma status_eqb_eq a b : status_eqb a b = true <-> a = b.
Proof. destruct a, b; simpl; split; intros H; congruence. Qed.

Lemma status_eqb_neq a b : status_eqb a b = false <-> a <> b.
Proof. destruct a, b; simpl; split; intros H; congruence. Qed.

Lemma same_migration_set_status project timestamp s r :
  same_migration project timestamp (set_status s r) = same_migration project timestamp r.
Proof. reflexivity. Qed.

Lemma select_after_update project timestamp s w m :
  select_batched_migration_for_timestamp project timestamp w = Some m ->
  select_batched_migration_for_timestamp project timestamp
    (update_batched_migration_status (BatchedMigrationRow.id m) s w)
  = Some (set_status s m).
Proof.
  unfold select_batched_migration_for_timestamp, update_batched_migration_status. simpl.
  induction (table w) as [|r rows IH]; simpl; intros H; [discriminate|].
  destruct (BatchedMigrationRow.id r =? BatchedMigrationRow.id m) eqn:E.
  - rewrite same_migration_set_status.
    destruct (same_migration project timestamp r).
    + inversion H; subst. reflexivity.
    + apply IH. exact H.
  - destruct (same_migration project timestamp r).
    + inversion H; subst. rewrite Z.eqb_refl in E. discriminate.
    + apply IH. exact H.
Qed.

Lemma find_id_after_update s w m :
  In m (table w) ->
  exists m',
    find (fun r => BatchedMigrationRow.id r =? BatchedMigrationRow.id m)
         (table (update_batched_migration_status (BatchedMigrationRow.id m) s w))
    = Some m'.
Proof.
  unfold update_batched_migration_status. simpl.
  induction (table w) as [|r rows IH]; simpl; intros H; [contradiction|].
  destruct (BatchedMigrationRow.id r =? BatchedMigrationRow.id m) eqn:E.
  - simpl. rewrite E. eauto.
  - rewrite E. destruct H as [-> | H]; [rewrite Z.eqb_refl in E; discriminate|].
    apply IH. exact H.
Qed.

Lemma find_id_after_update_unique s w m :
  NoDup (map BatchedMigrationRow.id (table w)) ->
  In m (table w) ->
  find (fun r => BatchedMigrationRow.id r =? BatchedMigrationRow.id m)
       (table (update_batched_migration_status (BatchedMigrationRow.id m) s w))
  = Some (set_status s m).
Proof.
  unfold update_batched_migration_status. simpl.
  induction (table w) as [|r rows IH]; simpl; intros N H; [contradiction|].
  inversion N as [|x l Hx N']; subst.
  destruct (BatchedMigrationRow.id r =? BatchedMigrationRow.id m) eqn:E.
  - simpl. rewrite E. destruct H as [-> | H]; [reflexivity|].
    exfalso. apply Hx. apply Z.eqb_eq in E. rewrite E. apply in_map. exact H.
  - rewrite E. destruct H as [-> | H]; [rewrite Z.eqb_refl in E; discriminate|].
    apply IH; assumption.
Qed.

Lemma select_in project timestamp w m :
  select_batched_migration_for_timestamp project timestamp w = Some m -> In m (table w).
Proof. intros H. apply find_some in H. apply H. Qed.

Section FinalizeFacts.

Variable options : Options.t.
Variable runner : RunnerModel.

Lemma set_status_same m :
  BatchedMigrationRow.status m = Finalizing -> set_status Finalizing m = m.
Proof. destruct m; simpl; intros ->; reflexivity. Qed.

Lemma select_marked project timestamp w m :
  select_batched_migration_for_timestamp project timestamp w = Some m ->
  select_batched_migration_for_timestamp project timestamp (marked m w)
  = Some (set_status Finalizing m).
Proof.
  intros H. unfold marked.
  destruct (status_eqb (BatchedMigrationRow.status m) Finalizing) eqn:E.
  - apply status_eqb_eq in E. rewrite (set_status_same _ E). exact H.
  - apply select_after_update. exact H.
Qed.

Lemma finalize_prefix identifier o w m :
  select_batched_migration_for_timestamp (Options.project options)
    (split_head underscore identifier) w = Some m ->
  BatchedMigrationRow.status m <> Succeeded ->
  exists m1 tr,
    (BatchedMigrationRow.status m = Finalizing -> m1 = m)
    /\ (NoDup (map BatchedMigrationRow.id (table w)) -> m1 = set_status Finalizing m)
    /\ existsb is_runner_run tr = false
    /\ filter is_update_status tr
       = (if status_eqb (BatchedMigrationRow.status m) Finalizing then []
          else [Replied (UpdateBatchedMigrationStatus (BatchedMigrationRow.id m) Finalizing)
                        (Returned m1)])
    /\ forall (k : BatchedMigrationRow.t -> Prog unit),
         exec (world_handler runner)
           (bind (call (SelectBatchedMigrationForTimestamp (Options.project options)
                          (split_head underscore identifier)))
              (fun migration =>
                 if status_eqb (BatchedMigrationRow.status migration) Succeeded
                 then Ret tt
                 else
                   bind (if negb (status_eqb (BatchedMigrationRow.status migration)
                                    Finalizing)
                         then call (UpdateBatchedMigrationStatus
                                      (BatchedMigrationRow.id migration) Finalizing)
                         else Ret migration) k)) o w
         = let r := exec (world_handler runner) (k m1) o (marked m w) in
           {| outcome := outcome r; obj_after := obj_after r;
              env_after := env_after r; trace := tr ++ trace r |}.
Proof.
  intros Hs Hn. apply status_eqb_neq in Hn.
  pose proof (select_in _ _ _ _ Hs) as Hin. unfold marked.
  destruct (status_eqb (BatchedMigrationRow.status m) Finalizing) eqn:E.
  - exists m.
    exists [Replied (SelectBatchedMigrationForTimestamp (Options.project options)
                       (split_head underscore identifier)) (Returned m)].
    split; [reflexivity|]. split.
    { intros _. apply status_eqb_eq in E. symmetry. apply set_status_same. exact E. }
    split; [reflexivity|]. split; [reflexivity|].
    intros k. simpl. rewrite Hs. simpl. rewrite Hn, E. reflexivity.
  - destruct (find_id_after_update Finalizing w m Hin) as [m1 Hm1].
    exists m1.
    exists [Replied (SelectBatchedMigrationForTimestamp (Options.project options)
                       (split_head underscore identifier)) (Returned m);
            Replied (UpdateBatchedMigrationStatus (BatchedMigrationRow.id m) Finalizing)
                    (Returned m1)].
    split; [intros F; apply status_eqb_eq in F; congruence|]. split.
    { intros N. rewrite (find_id_after_update_unique Finalizing w m N Hin) in Hm1.
      congruence. }
    split; [reflexivity|]. split; [reflexivity|].
    intros k. unfold update_batched_migration_status in Hm1. simpl in Hm1.
    simpl. rewrite Hs. simpl. rewrite Hn, E. simpl. rewrite Hm1. reflexivity.
Qed.

Lemma file_for_marked identifier o w m :
  file_for options o (marked m w) identifier = file_for options o w identifier.
Proof.
  unfold marked. destruct (status_eqb _ _); reflexivity.
Qed.

Lemma files_trace_no_run o w : existsb is_runner_run (files_trace options o w) = false.
Proof. unfold files_trace. destruct (migrationFiles o); reflexivity. Qed.

Lemma files_trace_no_update o w :
  filter is_update_status (files_trace options o w) = [].
Proof. unfold files_trace. destruct (migrationFiles o); reflexivity. Qed.

Lemma exec_finalize_unresolved identifier o w m :
  select_batched_migration_for_timestamp (Options.project options)
    (split_head underscore identifier) w = Some m ->
  BatchedMigrationRow.status m <> Succeeded ->
  file_for options o w identifier = None ->
  let r := exec (world_handler runner) (finalizeBatchedMigration options identifier) o w in
  outcome r = Threw (no_migration_found identifier)
  /\ env_after r = marked m w
  /\ existsb is_runner_run (trace r) = false.
Proof.
  intros Hs Hn Hf. cbv zeta.
  destruct (finalize_prefix identifier o w m Hs Hn) as (m1 & tr & _ & _ & Htr & _ & Hk).
  unfold finalizeBatchedMigration. cbv zeta. rewrite Hk. cbv zeta.
  rewrite exec_bind, exec_getMigrationForIdentifier. cbv zeta. simpl outcome.
  rewrite file_for_marked, Hf. simpl.
  split; [reflexivity|]. split; [reflexivity|].
  rewrite existsb_app, Htr, app_nil_r. simpl. apply (files_trace_no_run o (marked m w)).
Qed.

Lemma modules_marked w m : modules (marked m w) = modules w.
Proof. unfold marked. destruct (status_eqb _ _); reflexivity. Qed.

Lemma exec_finalize_resolved identifier o w m f d :
  NoDup (map BatchedMigrationRow.id (table w)) ->
  select_batched_migration_for_timestamp (Options.project options)
    (split_head underscore identifier) w = Some m ->
  BatchedMigrationRow.status m <> Succeeded ->
  file_for options o w identifier = Some f ->
  assoc (module_of f) (modules w) = Some (Some d) ->
  let r := exec (world_handler runner) (finalizeBatchedMigration options identifier) o w in
  let ran := runner (set_status Finalizing m) (module_of f) None
               (remember_files options o w) (marked m w) in
  env_after r = snd ran
  /\ List.length (filter is_update_status (trace r))
     = (if status_eqb (BatchedMigrationRow.status m) Finalizing then 0%nat else 1%nat)
  /\ match fst ran with
     | Threw e => outcome r = Threw e
     | Returned _ =>
         match select_batched_migration_for_timestamp (Options.project options)
                 (split_head underscore identifier) (snd ran) with
         | Some m2 =>
             outcome r =
             if status_eqb (BatchedMigrationRow.status m2) Succeeded
             then Returned tt
             else Threw (not_marked_succeeded identifier (BatchedMigrationRow.status m2))
         | None => outcome r = Threw no_such_row
         end
     end.
Proof.
  intros Hu Hs Hn Hf Hm. cbv zeta.
  destruct (finalize_prefix identifier o w m Hs Hn) as (m1 & tr & _ & Hm1 & _ & Hup & Hk).
  specialize (Hm1 Hu). subst m1.
  unfold finalizeBatchedMigration. cbv zeta. rewrite Hk. cbv zeta.
  rewrite exec_bind, exec_getMigrationForIdentifier. cbv zeta. simpl outcome.
  rewrite file_for_marked, Hf.
  assert (remember_files options o (marked m w) = remember_files options o w) as Ho.
  { unfold remember_files, known_files, marked.
    destruct (migrationFiles o); [reflexivity|]. destruct (status_eqb _ _); reflexivity. }
  unfold loadMigrationClass. unfold module_of in *. simpl.
  rewrite !modules_marked, !Hm. simpl. rewrite Ho.
  destruct (runner _ _ None _ _) as [[[] | e] w2]; simpl.
  - destruct (select_batched_migration_for_timestamp _ _ w2) as [m2|]; simpl;
      [destruct (status_eqb (BatchedMigrationRow.status m2) Succeeded); simpl|];
      (split; [reflexivity|]; split; [|reflexivity]);
      rewrite !filter_app, Hup, (files_trace_no_update o (marked m w));
      destruct (status_eqb _ Finalizing); reflexivity.
  - split; [reflexivity|]. split; [|reflexivity].
    rewrite !filter_app, Hup, (files_trace_no_update o (marked m w)).
    destruct (status_eqb _ Finalizing); reflexivity.
Qed.

End FinalizeFacts.

(** C9. When the record of the identifier's timestamp exists and is not
    [succeeded] but this process knows no migration file of that
    timestamp, [finalizeBatchedMigration] throws "No migration found for
    identifier ..." after it has made the record [finalizing]: the record
    read back is [finalizing], the table has changed when it was not
    [finalizing] before, and the Batch Runner has not run. *)
Theorem finalize_marks_before_resolving
  (options : Options.t) (runner : RunnerModel) (o : ObjState) (w : World)
  (identifier : string) (m : BatchedMigrationRow.t) :
  select_batched_migration_for_timestamp (Options.project options)
    (split_head underscore identifier) w = Some m ->
  BatchedMigrationRow.status m <> Succeeded ->
  file_for options o w identifier = None ->
  let r := exec (world_handler runner) (finalizeBatchedMigration options identifier) o w in
  outcome r = Threw (no_migration_found identifier)
  /\ select_batched_migration_for_timestamp (Options.project options)
       (split_head underscore identifier) (env_after r)
     = Some (set_status Finalizing m)
  /\ (BatchedMigrationRow.status m <> Finalizing -> table (env_after r) <> table w)
  /\ existsb is_runner_run (trace r) = false.
Proof.
  intros Hs Hn Hf r.
  destruct (exec_finalize_unresolved options runner identifier o w m Hs Hn Hf)
    as (Ho & He & Ht).
  fold r in Ho, He, Ht.
  assert (select_batched_migration_for_timestamp (Options.project options)
            (split_head underscore identifier) (env_after r)
          = Some (set_status Finalizing m)) as Hsel.
  { rewrite He. apply select_marked. exact Hs. }
  split; [exact Ho|]. split; [exact Hsel|]. split; [|exact Ht].
  intros Hfin Same. unfold select_batched_migration_for_timestamp in Hsel, Hs.
  rewrite Same, Hs in Hsel. inversion Hsel as [E]. apply Hfin.
  rewrite E. reflexivity.
Qed.

(** The migration of the scenario is [running] and this server has no
    migration file: the call fails and the record is left [finalizing]. *)
Lemma finalize_marks_before_resolving_witness :
  outcome (finalize_in (stuck_world [] [])) = Threw (no_migration_found backfill_identifier)
  /\ map BatchedMigrationRow.status (table (env_after (finalize_in (stuck_world [] []))))
     = [Finalizing]
  /\ select_batched_migration_for_timestamp "prairielearn" "20230406184103"
       (env_after (finalize_in (stuck_world [] [])))
     = Some (set_status Finalizing backfill_row).
Proof.
  split; [reflexivity|]. split; [reflexivity|].
  assert (BatchedMigrationRow.status backfill_row <> Succeeded) as N by discriminate.
  exact (proj1 (proj2 (finalize_marks_before_resolving backfill_options spec_runner
                         new_runner (stuck_world [] []) backfill_identifier backfill_row
                         eq_refl N eq_refl))).
Defined.

(** C4. When the record of the identifier's timestamp exists (ids being
    unique in the table) and the migration class of the identifier loads:
    on a [succeeded] record [finalizeBatchedMigration] returns after its
    first read and changes nothing; otherwise the Batch Runner is run once,
    without options (no time limit, no signal), on the record made
    [finalizing] (one status update, none when the record is [finalizing]
    already); an error of the Batch Runner is the error of the call; else
    the record is read again and the call returns exactly when it is
    [succeeded], and throws "Expected batched migration ..." for any other
    status. *)
Theorem finalize_requires_succeeded
  (options : Options.t) (runner : RunnerModel) (o : ObjState) (w : World)
  (identifier : string) (m : BatchedMigrationRow.t)
  (f : MigrationFile.t) (d : MigrationDefinition.t) :
  NoDup (map BatchedMigrationRow.id (table w)) ->
  select_batched_migration_for_timestamp (Options.project options)
    (split_head underscore identifier) w = Some m ->
  file_for options o w identifier = Some f ->
  assoc (module_of f) (modules w) = Some (Some d) ->
  let read :=
    SelectBatchedMigrationForTimestamp (Options.project options)
      (split_head underscore identifier) in
  let r := exec (world_handler runner) (finalizeBatchedMigration options identifier) o w in
  (BatchedMigrationRow.status m = Succeeded ->
   outcome r = Returned tt /\ obj_after r = o /\ env_after r = w
   /\ trace r = [Replied read (Returned m)])
  /\ (BatchedMigrationRow.status m <> Succeeded ->
      let ran := runner (set_status Finalizing m) (module_of f) None
                   (remember_files options o w) (marked m w) in
      select_batched_migration_for_timestamp (Options.project options)
        (split_head underscore identifier) (marked m w)
      = Some (set_status Finalizing m)
      /\ List.length (filter is_update_status (trace r))
         = (if status_eqb (BatchedMigrationRow.status m) Finalizing
            then 0%nat else 1%nat)
      /\ env_after r = snd ran
      /\ (forall e, fst ran = Threw e -> outcome r = Threw e)
      /\ (fst ran = Returned tt ->
          forall m2,
            select_batched_migration_for_timestamp (Options.project options)
              (split_head underscore identifier) (snd ran) = Some m2 ->
            (outcome r = Returned tt <-> BatchedMigrationRow.status m2 = Succeeded)
            /\ (BatchedMigrationRow.status m2 <> Succeeded ->
                outcome r = Threw (not_marked_succeeded identifier
                                     (BatchedMigrationRow.status m2))))).
Proof.
  intros Hu Hs Hf Hm read r. split.
  - intros Done. subst r read. unfold finalizeBatchedMigration. simpl.
    rewrite Hs. simpl. rewrite Done. simpl. auto.
  - intros Hn ran.
    destruct (exec_finalize_resolved options runner identifier o w m f d Hu Hs Hn Hf Hm)
      as (He & Hup & Hout).
    fold r in He, Hup, Hout. fold ran in He, Hout.
    split; [apply select_marked; exact Hs|]. split; [exact Hup|]. split; [exact He|].
    split.
    + intros e E. rewrite E in Hout. exact Hout.
    + intros E m2 S2. rewrite E, S2 in Hout. rewrite Hout.
      destruct (status_eqb (BatchedMigrationRow.status m2) Succeeded) eqn:B.
      * apply status_eqb_eq in B. split; [tauto|]. intros N. contradiction.
      * apply status_eqb_neq in B. split; [|reflexivity].
        split; [discriminate | intros Y; contradiction].
Qed.

(** The scenario of the spec: the migration is stuck at [running] with
    its cursor at 2000 of 2500; finalizing drives the batch
    [[2001, 2500]] and returns with the record [succeeded]. *)
Lemma finalize_requires_succeeded_witness :
  outcome (finalize_in (stuck_world [] [backfill_file])) = Returned tt
  /\ batches (env_after (finalize_in (stuck_world [] [backfill_file])))
     = [(1, (2001, 2500))]
  /\ map BatchedMigrationRow.status
       (table (env_after (finalize_in (stuck_world [] [backfill_file]))))
     = [Succeeded]
  /\ List.length (filter is_update_status
                    (trace (finalize_in (stuck_world [] [backfill_file])))) = 1%nat.
Proof.
  split; [reflexivity|]. split; [reflexivity|]. split; [reflexivity|].
  assert (BatchedMigrationRow.status backfill_row <> Succeeded) as N by discriminate.
  pose proof (finalize_requires_succeeded backfill_options spec_runner new_runner
                (stuck_world [] [backfill_file]) backfill_identifier backfill_row
                backfill_file
                (MigrationDefinition.mk backfill_parameters BatchRunner.always_ok)
                (NoDup_cons 1 (fun H : In 1 [] => H) (NoDup_nil Z))
                eq_refl eq_refl eq_refl) as [_ Run].
  exact (proj1 (proj2 (Run N))).
Defined.

Lemma no_lock_try_in (tr : list Reply) :
  Forall (reply_satisfies not_lock_try) tr -> existsb is_lock_try tr = false.
Proof.
  induction 1 as [|r tr Hr _ IH]; simpl; [reflexivity|].
  rewrite IH, orb_false_r. destruct r as [X c out]. exact Hr.
Qed.

(** C3, on the code. In no environment does [finalizeBatchedMigration]
    ask for a lock. With the lock of the scenario's migration held by
    another process, a round of the loop does no work, while
    [finalizeBatchedMigration] runs the batch [[2001, 2500]]. *)
Theorem finalize_takes_no_lock :
  (forall St (h : Handler St) options identifier o s,
     existsb is_lock_try
       (trace (exec h (finalizeBatchedMigration options identifier) o s)) = false)
  /\ lockNameForTimestamp backfill_options "20230406184103" = backfill_lock
  /\ (let w := stuck_world [backfill_lock] [backfill_file] in
      let round :=
        exec (world_handler spec_runner)
          (maybePerformWork backfill_options (60 * 1000)) new_runner w in
      outcome round = Returned false
      /\ existsb lock_refused (trace round) = true
      /\ batches (env_after round) = []
      /\ outcome (finalize_in w) = Returned tt
      /\ batches (env_after (finalize_in w)) = [(1, (2001, 2500))]
      /\ locks_here (env_after (finalize_in w)) = []).
Proof.
  split.
  - intros St h options identifier o s. apply no_lock_try_in.
    apply (exec_shape _ h _ _ _ (finalize_asks_no_lock options identifier) o s).
  - repeat split.
Qed.

(** ** The loop *)

Ltac settle_calls h :=
  repeat (simpl;
          match goal with
          | |- context [emit _ _] => unfold emit
          | |- context [h ?X ?c ?o ?s] =>
              let out := fresh "out" in
              let s' := fresh "s" in
              destruct (h X c o s) as [[out | out] s']
          | |- context [match migrationFiles ?o with _ => _ end] =>
              destruct (migrationFiles o)
          | |- context [find ?f ?l] => destruct (find f l)
          | |- context [match ?x with Some _ => _ | None => _ end] => destruct x
          | |- context [if ?b then _ else _] => destruct b
          end).

(** The same with the listeners of the object taken into account. *)
Ltac settle_calls_with h El Hl :=
  repeat (simpl; unfold emit; simpl;
          match goal with
          | |- context [error_listener _] => rewrite El
          | |- context [match ?l ?e with Some _ => _ | None => _ end] =>
              rewrite (Hl e)
          | |- context [h ?X ?c ?o ?s] =>
              let out := fresh "out" in
              let s' := fresh "s" in
              destruct (h X c o s) as [[out | out] s']
          | |- context [match migrationFiles ?o with _ => _ end] =>
              destruct (migrationFiles o)
          | |- context [find ?f ?l] => destruct (find f l)
          | |- context [match ?x with Some _ => _ | None => _ end] => destruct x
          | |- context [if ?b then _ else _] => destruct b
          end).

Lemma exec_loop_iteration {St} (h : Handler St) options o s :
  aborted o = false ->
  exec h (loop_iteration options) o s = exec h (loop_after_check options) o s.
Proof.
  intros A. unfold loop_iteration. simpl. rewrite A. reflexivity.
Qed.

Ltac emitted_here :=
  match goal with
  | |- exists before after, ?l ++ ?m = ?l ++ before ++ ?e :: after =>
      first [ exists [], []; reflexivity
            | exists [], [e]; reflexivity
            | eexists [_], []; reflexivity
            | eexists [_], [_]; reflexivity
            | eexists [], [_]; reflexivity ]
  | |- exists before after, (?l ++ ?m) ++ ?n = ?l ++ before ++ ?e :: after =>
      rewrite <- app_assoc;
      first [ exists [], []; reflexivity
            | eexists [], [_]; reflexivity
            | eexists [_], []; reflexivity ]
  end.

Section LoopFacts.

Variable options : Options.t.
Context {St : Type} (h : Handler St).

(** With a listener that returns, a turn of [loop] that finds the signal
    not aborted hands the errors of its round to the listener and ends in
    a next turn. *)
Lemma loop_iteration_reports o s :
  aborted o = false -> listens o ->
  let work := exec h (maybePerformWork options (60 * 1000)) o s in
  let r := exec h (loop_iteration options) o s in
  outcome r = Returned Continue
  /\ running (obj_after r) = running o
  /\ (forall e, outcome work = Threw e ->
                emitted (obj_after r) = emitted (obj_after work) ++ [e])
  /\ (forall e, In (Some e) (map runner_error (trace r)) ->
                exists before after,
                  emitted (obj_after r) = emitted o ++ before ++ e :: after)
  /\ (forall e, In (Some e) (map release_error (trace r)) ->
                exists before after,
                  emitted (obj_after r) = emitted o ++ before ++ e :: after)
  /\ (existsb release_failed (trace r) = false ->
      forall e, In (Some e) (map thrown_in_round (trace r)) ->
                exists before after,
                  emitted (obj_after r) = emitted o ++ before ++ e :: after)
  /\ (existsb lock_refused (trace r) = true -> emitted (obj_after r) = emitted o).
Proof.
  intros Ab (listener & El & Hl). cbv zeta.
  rewrite (exec_loop_iteration h options o s Ab).
  unfold loop_after_check, loop_round, maybePerformWork, getOrStartMigration,
    getMigrationForIdentifier, getMigrationFiles, tryWithLock, loadMigrationClass.
  settle_calls_with h El Hl; simpl;
    (split; [reflexivity|]); (split; [reflexivity|]);
    (split; [intros e H; try discriminate; inversion H; subst; reflexivity|]);
    (split;
     [intros e Hin; repeat (destruct Hin as [Hin | Hin]; try discriminate);
      try contradiction; inversion Hin; subst; emitted_here|]);
    (split;
     [intros e Hin; repeat (destruct Hin as [Hin | Hin]; try discriminate);
      try contradiction; inversion Hin; subst; emitted_here|]);
    (split;
     [intros Hrel e Hin; try discriminate;
      repeat (destruct Hin as [Hin | Hin]; try discriminate);
      try contradiction; inversion Hin; subst; emitted_here|]);
    intros Hl'; try discriminate; reflexivity.
Qed.

(** Without a listener, an error thrown out of the round is thrown out of
    the turn: nothing is emitted and no sleep follows. *)
Lemma loop_iteration_rejects o s e :
  aborted o = false -> error_listener o = None ->
  outcome (exec h (maybePerformWork options (60 * 1000)) o s) = Threw e ->
  let r := exec h (loop_iteration options) o s in
  outcome r = Threw e /\ emitted (obj_after r) = emitted o
  /\ running (obj_after r) = running o
  /\ existsb is_sleep (trace r) = false.
Proof.
  intros Ab El. cbv zeta.
  rewrite (exec_loop_iteration h options o s Ab).
  unfold loop_after_check, loop_round, maybePerformWork, getOrStartMigration,
    getMigrationForIdentifier, getMigrationFiles, tryWithLock, loadMigrationClass.
  assert (Hl : forall err : Error, (fun _ : Error => @None Error) err = None)
    by reflexivity.
  settle_calls_with h El Hl; simpl;
    intros H; try discriminate; inversion H; subst; repeat split; reflexivity.
Qed.

End LoopFacts.

(** ** The loop is rejected only where [emit] throws *)

Lemma guarded_bind {A B} (p : Prog A) (f : A -> Prog B) :
  guarded p -> (forall a, guarded (f a)) -> guarded (bind p f).
Proof.
  induction p as [a | e | X c k IH]; simpl; intros Hp Hf; auto.
  intros out Hout. destruct (Hp out Hout) as [G | (E & e & Ek)].
  - left. apply IH; auto.
  - right. split; [exact E|]. exists e. rewrite Ek. reflexivity.
Qed.

Lemma guarded_try_catch {A} (p : Prog A) (handler : Error -> Prog A) :
  (forall e, guarded (handler e)) -> guarded (try_catch p handler).
Proof.
  intros Hh. induction p as [a | e | X c k IH]; simpl; auto.
Qed.

Lemma guarded_loop_after_check options : guarded (loop_after_check options).
Proof.
  unfold loop_after_check. apply guarded_bind.
  - unfold loop_round. apply guarded_try_catch. intros e. simpl.
    intros [[] | e'] _; simpl; auto.
    right. split; [reflexivity|]. eauto.
  - intros didWork. destruct (negb didWork); [|exact I].
    apply guarded_try_catch. intros e. exact I.
Qed.

Lemma obj_handle_keeps_listener {X} (c : Cmd X) (o o' : ObjState) (out : Outcome X) :
  obj_handle c o = Some (out, o') -> error_listener o' = error_listener o.
Proof.
  destruct c; simpl; intros E; try discriminate; inversion E; subst; try reflexivity.
  pose proof (emit_keeps_fields err o) as (_ & _ & _ & F).
  match goal with H : emit _ _ = _ |- _ => rewrite H in F end. exact F.
Qed.

Lemma emit_returns_to_listener {X} (c : Cmd X) (o o' : ObjState) (out : Outcome X) :
  listens o -> obj_handle c o = Some (out, o') -> is_emit c && is_threw out = false.
Proof.
  intros (listener & El & Hl).
  destruct c; simpl; intros E; try reflexivity.
  unfold emit in E. rewrite El, Hl in E. inversion E. reflexivity.
Qed.

Lemma advance_guarded {A} (p : Prog A) : forall o,
  guarded p ->
  guarded (fst (advance p o)) \/ exists e, fst (advance p o) = Throw e.
Proof.
  induction p as [a | e | X c k IH]; intros o G; simpl; auto.
  destruct (obj_handle c o) as [[out o']|] eqn:E.
  - destruct (G out (obj_handle_returns c o o' out E)) as [Gk | (_ & e & Ek)].
    + apply IH. exact Gk.
    + right. exists e. rewrite Ek. reflexivity.
  - left. exact G.
Qed.

Lemma advance_guarded_listens {A} (p : Prog A) : forall o,
  guarded p -> listens o ->
  guarded (fst (advance p o)) /\ listens (snd (advance p o)).
Proof.
  induction p as [a | e | X c k IH]; intros o G L; simpl; auto.
  destruct (obj_handle c o) as [[out o']|] eqn:E.
  - destruct (G out (obj_handle_returns c o o' out E)) as [Gk | (F & _)].
    + apply IH; [exact Gk|]. unfold listens.
      rewrite (obj_handle_keeps_listener c o o' out E). exact L.
    + rewrite (emit_returns_to_listener c o o' out L E) in F. discriminate.
  - split; [exact G | exact L].
Qed.

Section Rejection.

Variable options : Options.t.

Lemma turn_guarded p o :
  guarded p ->
  guarded (fst (turn options LoopTask p o))
  \/ exists e, fst (turn options LoopTask p o) = Throw e.
Proof.
  intros G. unfold turn. pose proof (advance_guarded p o G) as H.
  destruct (advance p o) as [p1 o1]. simpl in H.
  destruct p1 as [[|] | e | X c cont]; try (simpl; eauto; fail).
  cbn [body]. rewrite advance_loop_iteration. destruct (aborted o1); [simpl; auto|].
  apply advance_guarded. apply guarded_loop_after_check.
Qed.

Lemma turn_guarded_listens p o :
  guarded p -> listens o -> guarded (fst (turn options LoopTask p o)).
Proof.
  intros G L. unfold turn. pose proof (advance_guarded_listens p o G L) as [H L1].
  destruct (advance p o) as [p1 o1]. simpl in H, L1.
  destruct p1 as [[|] | e | X c cont]; try (simpl; eauto; fail).
  cbn [body]. rewrite advance_loop_iteration. destruct (aborted o1); [exact I|].
  apply advance_guarded_listens; [apply guarded_loop_after_check | exact L1].
Qed.

Lemma run_task_guarded before after k p s :
  (forall t, In t (before ++ after) -> kind t = LoopTask -> guarded (cur t)) ->
  (k = LoopTask -> guarded p) ->
  forall t, In t (tasks (run_task options before after k p s)) ->
            kind t = LoopTask -> guarded (cur t).
Proof.
  intros Others Hp. unfold run_task. destruct k.
  - pose proof (turn_guarded p (obj s) (Hp eq_refl)) as H.
    destruct (turn options LoopTask p (obj s)) as [p' o']. simpl in H.
    destruct p' as [[|] | e | X c cont]; simpl; intros t Hin K; auto.
    + apply in_others in Hin. destruct Hin as [-> | Hin]; [exact I | auto].
    + apply in_others in Hin. destruct Hin as [-> | Hin]; [|auto].
      destruct H as [H | (e & He)]; [exact H | discriminate].
  - destruct (turn options StopTask p (obj s)) as [p' o'].
    destruct p' as [[|] | e | X c cont]; simpl; auto;
      intros t Hin K; apply in_others in Hin; destruct Hin as [-> | Hin]; auto;
      discriminate.
Qed.

(** What is left of a turn of [loop] throws only where [emit] throws. *)
Lemma reachable_guarded s :
  reachable options s ->
  forall t, In t (tasks s) -> kind t = LoopTask -> guarded (cur t).
Proof.
  induction 1 as [| s s' Rs IH St]; [intros t []|].
  destruct St as [s | s | s before after k X c cont out Ht Hc | s before after k Ht
                 | s fs | s l].
  - unfold start. destruct (running (obj s)); simpl; [exact IH|].
    unfold loop. apply run_task_guarded; [|intros _; exact I].
    rewrite app_nil_r. exact IH.
  - unfold stop. apply run_task_guarded; [|discriminate].
    rewrite app_nil_r. exact IH.
  - apply run_task_guarded.
    + intros t Hin. apply IH. rewrite Ht. apply in_others. auto.
    + intros ->.
      pose proof (IH {| kind := LoopTask; cur := Call c cont |}) as G.
      simpl in G. rewrite Ht in G.
      specialize (G (proj2 (in_others before after _ _) (or_introl eq_refl)) eq_refl).
      destruct (G out) as [Gk | (F & _)]; [| exact Gk |].
      * intros F. rewrite (awaited_may_throw c Hc) in F. discriminate.
      * destruct c; simpl in F, Hc; discriminate.
  - apply run_task_guarded; [|intros _; exact I].
    intros t Hin. apply IH. rewrite Ht. apply in_others. auto.
  - exact IH.
  - exact IH.
Qed.

Lemma run_task_keeps_loop before after k p s :
  (k = LoopTask -> guarded p /\ listens (obj s)) ->
  filter is_loop_rejected (log (run_task options before after k p s))
  = filter is_loop_rejected (log s).
Proof.
  intros Hp. unfold run_task. destruct k.
  - destruct (Hp eq_refl) as [G L].
    pose proof (turn_guarded_listens p (obj s) G L) as H.
    destruct (turn options LoopTask p (obj s)) as [p' o']. simpl in H.
    destruct p' as [[|] | e | X c cont]; simpl; try contradiction;
      rewrite ?filter_app; simpl; rewrite ?app_nil_r; reflexivity.
  - destruct (turn options StopTask p (obj s)) as [p' o'].
    destruct p' as [[|] | e | X c cont]; simpl;
      rewrite ?filter_app; simpl; rewrite ?app_nil_r; reflexivity.
Qed.

(** With a listener that returns, no step of the process rejects the loop. *)
Lemma step_keeps_loop s s' :
  reachable options s -> step options s s' -> listens (obj s) ->
  filter is_loop_rejected (log s') = filter is_loop_rejected (log s).
Proof.
  intros R St L. pose proof (reachable_guarded s R) as G.
  destruct St as [s | s | s before after k X c cont out Ht Hc | s before after k Ht
                 | s fs | s l]; try reflexivity.
  - unfold start. destruct (running (obj s)); simpl; [reflexivity|].
    unfold loop.
    rewrite run_task_keeps_loop; [reflexivity|]. intros _. split; [exact I | exact L].
  - unfold stop. rewrite run_task_keeps_loop; [reflexivity | discriminate].
  - apply run_task_keeps_loop. intros ->. split; [|exact L].
    pose proof (G {| kind := LoopTask; cur := Call c cont |}) as Gc.
    simpl in Gc. rewrite Ht in Gc.
    specialize (Gc (proj2 (in_others before after _ _) (or_introl eq_refl)) eq_refl).
    destruct (Gc out) as [Gk | (F & _)]; [| exact Gk |].
    + intros F. rewrite (awaited_may_throw c Hc) in F. discriminate.
    + destruct c; simpl in F, Hc; discriminate.
  - apply run_task_keeps_loop. intros _. split; [exact I | exact L].
Qed.

End Rejection.

(** C6. With a listener registered for ['error'] that returns, in every
    environment, whatever the awaited calls of a round return or throw: a
    turn of [loop] that finds the signal not aborted ends in a next turn
    with [running] unchanged; an error thrown out of [maybePerformWork]
    is handed to the listener by the turn, and so are an error of the
    Batch Runner and an error of the release of the lock; unless that
    release fails, every error an awaited call of the round throws is
    handed over; a lock held elsewhere hands over nothing. No step of the
    process taken with such a listener rejects the loop. Without a
    listener an error thrown out of the round is thrown out of the turn,
    nothing is emitted and no sleep follows. *)
Theorem loop_emits_errors_and_continues (options : Options.t) :
  (forall St (h : Handler St) o s,
     aborted o = false -> listens o ->
     let work := exec h (maybePerformWork options (60 * 1000)) o s in
     let r := exec h (loop_iteration options) o s in
     outcome r = Returned Continue
     /\ running (obj_after r) = running o
     /\ (forall e, outcome work = Threw e ->
                   emitted (obj_after r) = emitted (obj_after work) ++ [e])
     /\ (forall e, In (Some e) (map runner_error (trace r)) ->
                   exists before after,
                     emitted (obj_after r) = emitted o ++ before ++ e :: after)
     /\ (forall e, In (Some e) (map release_error (trace r)) ->
                   exists before after,
                     emitted (obj_after r) = emitted o ++ before ++ e :: after)
     /\ (existsb release_failed (trace r) = false ->
         forall e, In (Some e) (map thrown_in_round (trace r)) ->
                   exists before after,
                     emitted (obj_after r) = emitted o ++ before ++ e :: after)
     /\ (existsb lock_refused (trace r) = true -> emitted (obj_after r) = emitted o))
  /\ (forall s s',
        reachable options s -> step options s s' -> listens (obj s) ->
        filter is_loop_rejected (log s') = filter is_loop_rejected (log s))
  /\ (forall St (h : Handler St) o s e,
        aborted o = false -> error_listener o = None ->
        outcome (exec h (maybePerformWork options (60 * 1000)) o s) = Threw e ->
        let r := exec h (loop_iteration options) o s in
        outcome r = Threw e /\ emitted (obj_after r) = emitted o
        /\ running (obj_after r) = running o
        /\ existsb is_sleep (trace r) = false).
Proof.
  split; [|split].
  - intros St h o s Ab L. apply loop_iteration_reports; assumption.
  - apply step_keeps_loop.
  - intros St h o s e Ab El Hw. apply loop_iteration_rejects; assumption.
Qed.

(** The database is down during the first round of a runner: with a
    listener that returns the error is handed over and the loop sleeps
    before its next turn. *)
Lemma loop_emits_errors_and_continues_witness :
  let s := play backfill_options error_with_listener initial in
  emitted (obj s) = [connection_refused]
  /\ map kind (tasks s) = [LoopTask]
  /\ existsb is_loop_rejected (log s) = false
  /\ outcome (exec (fun X c _ st => (database_down X c, st))
                (loop_iteration backfill_options)
                (set_listener (Some returning_listener) new_runner) tt)
     = Returned Continue.
Proof.
  intros s. split; [reflexivity|]. split; [reflexivity|]. split; [reflexivity|].
  destruct (loop_emits_errors_and_continues backfill_options) as (Turn & _ & _).
  apply (Turn unit (fun X c _ st => (database_down X c, st))
           (set_listener (Some returning_listener) new_runner) tt eq_refl).
  exists returning_listener. split; reflexivity.
Defined.

(** C6, as the spec has it, fails: on a runner without a listener for
    ['error'] the error of a round terminates the loop. [loop()] is
    rejected, nothing is emitted, [running] stays set, so that a new
    [start()] throws and a [stop()] keeps sleeping. *)
Lemma loop_is_rejected_without_a_listener :
  let s := play backfill_options error_without_listener initial in
  log s = [Awaits LoopTask (SelectOrStartRunningMigration "prairielearn");
           Rejected LoopTask connection_refused]
  /\ tasks s = []
  /\ emitted (obj s) = []
  /\ running (obj s) = true
  /\ fst (start backfill_options s) = Threw already_running
  /\ (let later := play backfill_options
                     [CallStop; Resume 0 all_well; Resume 0 all_well; Resume 0 all_well] s in
      map kind (tasks later) = [StopTask]
      /\ existsb is_stop_returned (log later) = false).
Proof. repeat split. Qed.

(** ** The module-level functions *)

(** C10. With the module-level [runner] unset, [enqueueBatchedMigration],
    [finalizeBatchedMigration], [startBatchedMigrations] and
    [stopBatchedMigrations] throw "Batched migrations not initialized" and
    do nothing else; [stopBatchedMigrations] unsets it once [stop()] has
    returned; [initBatchedMigrations] sets it when unset and throws
    "Batched migrations already initialized" when set; [start()] throws
    "BatchedMigrationsRunner is already running" when [running] is set,
    which it is in every reachable state with a loop in flight. *)
Theorem module_functions_need_the_runner :
  (forall identifier,
     Api.enqueueBatchedMigration None identifier = Throw not_initialized)
  /\ (forall identifier,
        Api.finalizeBatchedMigration None identifier = Throw not_initialized)
  /\ Api.startBatchedMigrations None = (Threw not_initialized, None)
  /\ Api.stopBatchedMigrations_enter None = (Threw not_initialized, None)
  /\ (forall runner, Api.stopBatchedMigrations_leave runner = None)
  /\ (forall options,
        Api.initBatchedMigrations options None
        = (Returned tt, Some {| instance_options := options; instance := initial |}))
  /\ (forall options r,
        Api.initBatchedMigrations options (Some r) = (Threw already_initialized, Some r))
  /\ (forall options s,
        running (obj s) = true -> start options s = (Threw already_running, s))
  /\ (forall options s t,
        reachable options s -> In t (tasks s) -> kind t = LoopTask ->
        start options s = (Threw already_running, s))
  /\ (let initialized := snd (Api.initBatchedMigrations backfill_options None) in
      let started := snd (Api.startBatchedMigrations initialized) in
      fst (Api.startBatchedMigrations initialized) = Returned tt
      /\ fst (Api.startBatchedMigrations started) = Threw already_running
      /\ fst (Api.initBatchedMigrations backfill_options started)
         = Threw already_initialized
      /\ fst (Api.stopBatchedMigrations_enter started) = Returned tt
      /\ Api.enqueueBatchedMigration
           (Api.stopBatchedMigrations_leave
              (snd (Api.stopBatchedMigrations_enter started)))
           backfill_identifier
         = Throw not_initialized)
  /\ not_initialized = "Batched migrations not initialized"%string
  /\ already_initialized = "Batched migrations already initialized"%string
  /\ already_running = "BatchedMigrationsRunner is already running"%string.
Proof.
  repeat split.
  - intros options s R. unfold start. rewrite R. reflexivity.
  - intros options s t R Hin K. apply reachable_invariant in R.
    unfold start. destruct (running (obj s)) eqn:Run; [reflexivity|].
    rewrite (inv_running _ R Run t Hin) in K. discriminate.
Qed.


(** * Further properties of the runner *)

(** ** [getMigrationFiles] *)

(** X1. In every environment [getMigrationFiles] awaits at most one
    call; with the migration files already stored it returns them without
    awaiting anything and changes nothing; when it returns a list, that
    list is stored and the next call returns it without reading the
    directories again; when the read fails nothing is stored. *)
Theorem getMigrationFiles_reads_once (options : Options.t) :
  forall St (h : Handler St) o s,
    let r := exec h (getMigrationFiles options) o s in
    (List.length (trace r) <= 1)%nat
    /\ (forall fs, migrationFiles o = Some fs ->
                   outcome r = Returned fs /\ trace r = []
                   /\ obj_after r = o /\ env_after r = s)
    /\ (forall fs, outcome r = Returned fs ->
                   migrationFiles (obj_after r) = Some fs
                   /\ forall s',
                        outcome (exec h (getMigrationFiles options) (obj_after r) s')
                        = Returned fs
                        /\ trace (exec h (getMigrationFiles options) (obj_after r) s') = [])
    /\ (forall e, outcome r = Threw e ->
                  migrationFiles (obj_after r) = None /\ obj_after r = o).
Proof.
  intros St h o s. cbv zeta. unfold getMigrationFiles. simpl.
  destruct (migrationFiles o) as [cached|] eqn:E; simpl.
  - split; [lia|]. split; [|split].
    + intros fs F. inversion F; subst. auto.
    + intros fs F. inversion F; subst. split; [exact E|].
      intros s'. rewrite E. simpl. auto.
    + intros e F. discriminate.
  - destruct (h _ _ o s) as [[fs | e] s1]; simpl.
    + split; [lia|]. split; [|split].
      * intros fs' F. discriminate.
      * intros fs' F. inversion F; subst. auto.
      * intros e F. discriminate.
    + split; [lia|]. split; [|split].
      * intros fs' F. discriminate.
      * intros fs' F. discriminate.
      * intros e' _. auto.
Qed.

(** ** Identifiers *)

Ltac settle_calls_eq h :=
  repeat (simpl;
          match goal with
          | |- context [emit _ _] => unfold emit
          | |- context [h ?X ?c ?o ?s] =>
              let out := fresh "out" in
              let s' := fresh "s" in
              let E := fresh "Ecall" in
              destruct (h X c o s) as [[out | out] s'] eqn:E
          | |- context [match migrationFiles ?o with _ => _ end] =>
              let E := fresh "Efiles" in
              destruct (migrationFiles o) eqn:E
          | |- context [find ?f ?l] =>
              let E := fresh "Efind" in
              destruct (find f l) eqn:E
          | |- context [match ?x with Some _ => _ | None => _ end] => destruct x
          | |- context [if ?b then _ else _] =>
              let E := fresh "Eif" in
              destruct b eqn:E
          end).

Lemma split_head_app (sep : ascii) (s rest : string) :
  split_head sep (s ++ String sep rest) = split_head sep s.
Proof.
  induction s as [|c s IH]; simpl.
  - rewrite Ascii.eqb_refl. reflexivity.
  - destruct (Ascii.eqb c sep); [reflexivity|]. rewrite IH. reflexivity.
Qed.

Lemma split_head_no_char (sep : ascii) (s : string) :
  no_char sep s = true -> split_head sep s = s.
Proof.
  induction s as [|c s IH]; simpl; intros H; [reflexivity|].
  apply andb_prop in H. destruct H as [H1 H2].
  destruct (Ascii.eqb c sep); [discriminate|]. rewrite IH; auto.
Qed.

(** Identifiers with the same timestamp are the same identifier to
    [enqueueBatchedMigration] and [finalizeBatchedMigration], up to the
    text of an error. *)
Lemma same_timestamp_same_effects (options : Options.t) (id1 id2 : string) :
  split_head underscore id1 = split_head underscore id2 ->
  forall St (h : Handler St) o s,
    same_effects (exec h (enqueueBatchedMigration options id1) o s)
                 (exec h (enqueueBatchedMigration options id2) o s)
    /\ same_effects (exec h (finalizeBatchedMigration options id1) o s)
                    (exec h (finalizeBatchedMigration options id2) o s).
Proof.
  intros H St h o s. unfold same_effects. split.
  - unfold enqueueBatchedMigration, getMigrationForIdentifier, getMigrationFiles,
      loadMigrationClass.
    rewrite H. settle_calls h; repeat split; reflexivity.
  - unfold finalizeBatchedMigration, getMigrationForIdentifier, getMigrationFiles,
      loadMigrationClass.
    rewrite H. settle_calls h; repeat split; reflexivity.
Qed.

(** X2. What follows the first underscore of an identifier is ignored:
    an identifier and the same identifier with an underscore and any text
    appended name the same migration file, and in every environment
    [enqueueBatchedMigration] and [finalizeBatchedMigration] await the same
    calls with either, leave the same object and environment, and both
    return or both throw. *)
Theorem identifier_suffix_is_ignored (options : Options.t) (identifier suffix : string) :
  let longer := (identifier ++ String underscore suffix)%string in
  getMigrationForIdentifier options longer = getMigrationForIdentifier options identifier
  /\ forall St (h : Handler St) o s,
       same_effects (exec h (enqueueBatchedMigration options longer) o s)
                    (exec h (enqueueBatchedMigration options identifier) o s)
       /\ same_effects (exec h (finalizeBatchedMigration options longer) o s)
                       (exec h (finalizeBatchedMigration options identifier) o s).
Proof.
  cbv zeta. split.
  - unfold getMigrationForIdentifier. rewrite split_head_app. reflexivity.
  - apply same_timestamp_same_effects. apply split_head_app.
Qed.

Lemma find_first {A} (f : A -> bool) (l : list A) :
  match find f l with
  | Some x =>
      exists before after,
        l = before ++ x :: after /\ f x = true
        /\ forall y, In y before -> f y = false
  | None => forall y, In y l -> f y = false
  end.
Proof.
  induction l as [|a l IH]; simpl.
  - intros y [].
  - destruct (f a) eqn:Fa.
    + exists [], l. simpl. repeat split; auto. intros y [].
    + destruct (find f l) as [x|].
      * destruct IH as (before & after & -> & Fx & Hb).
        exists (a :: before), after. simpl. repeat split; auto.
        intros y [<- | Hy]; auto.
      * intros y [<- | Hy]; auto.
Qed.

(** X3. In every environment, when [getMigrationForIdentifier] returns,
    the object holds the migration files; a file returned is the first of
    them whose timestamp is what precedes the first underscore of the
    identifier, and [null] is returned only when none of them has that
    timestamp. *)
Theorem getMigrationForIdentifier_returns_first_match
  (options : Options.t) (identifier : string) :
  forall St (h : Handler St) o s,
    let r := exec h (getMigrationForIdentifier options identifier) o s in
    forall found, outcome r = Returned found ->
      exists files,
        migrationFiles (obj_after r) = Some files
        /\ match found with
           | Some f =>
               exists before after,
                 files = before ++ f :: after
                 /\ MigrationFile.timestamp f = split_head underscore identifier
                 /\ forall g, In g before ->
                      MigrationFile.timestamp g <> split_head underscore identifier
           | None =>
               forall g, In g files ->
                 MigrationFile.timestamp g <> split_head underscore identifier
           end.
Proof.
  intros St h o s. cbv zeta.
  assert (Hfind : forall files,
             match find (fun m => String.eqb (MigrationFile.timestamp m)
                                    (split_head underscore identifier)) files with
             | Some f =>
                 exists before after,
                   files = before ++ f :: after
                   /\ MigrationFile.timestamp f = split_head underscore identifier
                   /\ forall g, In g before ->
                        MigrationFile.timestamp g <> split_head underscore identifier
             | None =>
                 forall g, In g files ->
                   MigrationFile.timestamp g <> split_head underscore identifier
             end).
  { intros files.
    pose proof (find_first (fun m => String.eqb (MigrationFile.timestamp m)
                                       (split_head underscore identifier)) files) as F.
    destruct (find _ files) as [f|].
    - destruct F as (before & after & E & Ef & Hb).
      exists before, after. repeat split; auto.
      + apply String.eqb_eq. exact Ef.
      + intros g Hg. apply String.eqb_neq. auto.
    - intros g Hg. apply String.eqb_neq. auto. }
  unfold getMigrationForIdentifier, getMigrationFiles. simpl.
  destruct (migrationFiles o) as [cached|] eqn:E; simpl.
  - intros found F. inversion F; subst. exists cached. split; [exact E|]. apply Hfind.
  - destruct (h _ _ o s) as [[fs | e] s1]; simpl.
    + intros found F. inversion F; subst. exists fs. split; [reflexivity|]. apply Hfind.
    + intros found F. discriminate.
Qed.

(** A new runner in the world of the scenario finds the file of the
    scenario for its identifier. *)
Lemma getMigrationForIdentifier_returns_first_match_witness :
  let r := exec (world_handler spec_runner)
             (getMigrationForIdentifier backfill_options backfill_identifier)
             new_runner (backfill_world backfill_parameters) in
  outcome r = Returned (Some backfill_file)
  /\ exists files,
       migrationFiles (obj_after r) = Some files
       /\ exists before after,
            files = before ++ backfill_file :: after
            /\ MigrationFile.timestamp backfill_file
               = split_head underscore backfill_identifier
            /\ forall g, In g before ->
                 MigrationFile.timestamp g <> split_head underscore backfill_identifier.
Proof.
  intros r. split; [reflexivity|].
  apply (getMigrationForIdentifier_returns_first_match backfill_options
           backfill_identifier World (world_handler spec_runner) new_runner
           (backfill_world backfill_parameters) (Some backfill_file) eq_refl).
Defined.

(** ** Enqueueing *)

(** X4. In every environment [enqueueBatchedMigration] awaits at most
    one insert, as its last call, and returns exactly when that insert
    returned; the record handed over carries the project of the options
    and, as timestamp, what precedes the first underscore of the
    identifier. An error is the "no migration found" or "invalid migration
    class" error or the one the last awaited call threw. The method takes
    no lock, runs no batch, updates no status and leaves the flags and the
    emitted errors of the object alone. *)
Theorem enqueue_inserts_last_or_not_at_all (options : Options.t) (identifier : string) :
  forall St (h : Handler St) o s,
    let r := exec h (enqueueBatchedMigration options identifier) o s in
    (List.length (filter is_insert (trace r)) <= 1)%nat
    /\ existsb is_insert (removelast (trace r)) = false
    /\ is_returned (outcome r) = existsb insert_returned (trace r)
    /\ (forall m, In (Some m) (map inserted (trace r)) ->
          NewBatchedMigration.project m = Options.project options
          /\ NewBatchedMigration.timestamp m = split_head underscore identifier)
    /\ (forall e, outcome r = Threw e ->
          e = no_migration_found identifier
          \/ (exists path, e = invalid_migration_class path)
          \/ last (map thrown (trace r)) None = Some e)
    /\ existsb is_lock_try (trace r) = false
    /\ existsb is_runner_run (trace r) = false
    /\ existsb is_update_status (trace r) = false
    /\ running (obj_after r) = running o
    /\ aborted (obj_after r) = aborted o
    /\ emitted (obj_after r) = emitted o.
Proof.
  intros St h o s. cbv zeta.
  unfold enqueueBatchedMigration, getMigrationForIdentifier, getMigrationFiles,
    loadMigrationClass.
  settle_calls_eq h; simpl;
    (split; [lia|]); (split; [reflexivity|]); (split; [reflexivity|]);
    (split; [|split; [|repeat split; reflexivity]]).
  all: try match goal with
           | |- forall e, _ = Threw e -> _ =>
               intros err Herr; inversion Herr; subst;
               first [ left; reflexivity
                     | right; left; eexists; reflexivity
                     | right; right; reflexivity ]
           end.
  all: try (intros rec Hrec; simpl in Hrec; intuition (try discriminate)).
  all: try match goal with
           | Hrec : Some _ = Some _ |- _ => inversion Hrec; subst; simpl; auto
           end.
  all: try match goal with
           | Hf : find _ _ = Some _ |- _ =>
               apply find_some in Hf; destruct Hf as [_ Hf];
               apply String.eqb_eq in Hf; exact Hf
           end.
Qed.

(** ** Lock names *)

Lemma append_inv_head (p a b : string) : (p ++ a = p ++ b)%string -> a = b.
Proof.
  induction p as [|c p IH]; simpl; intros H; [exact H|].
  inversion H. auto.
Qed.

(** X5. The lock names of one project tell its migrations apart, and
    those of projects whose names hold no colon tell project and migration
    apart; two projects of which one has a colon in its name can share a
    lock name. *)
Theorem lock_names_tell_migrations_apart :
  (forall options t1 t2,
     lockNameForTimestamp options t1 = lockNameForTimestamp options t2 -> t1 = t2)
  /\ (forall o1 o2 t1 t2,
        no_char colon (Options.project o1) = true ->
        no_char colon (Options.project o2) = true ->
        lockNameForTimestamp o1 t1 = lockNameForTimestamp o2 t2 ->
        Options.project o1 = Options.project o2 /\ t1 = t2)
  /\ (exists o1 o2 t1 t2,
        Options.project o1 <> Options.project o2
        /\ lockNameForTimestamp o1 t1 = lockNameForTimestamp o2 t2).
Proof.
  split; [|split].
  - intros options t1 t2 H. unfold lockNameForTimestamp in H.
    apply append_inv_head in H. apply append_inv_head in H.
    apply append_inv_head in H. exact H.
  - intros o1 o2 t1 t2 H1 H2 H. unfold lockNameForTimestamp in H.
    apply append_inv_head in H.
    assert (P : Options.project o1 = Options.project o2).
    { apply (f_equal (split_head colon)) in H.
      change (":" ++ t1)%string with (String colon t1) in H.
      change (":" ++ t2)%string with (String colon t2) in H.
      rewrite !split_head_app in H.
      rewrite !split_head_no_char in H by assumption. exact H. }
    split; [exact P|]. rewrite P in H.
    apply append_inv_head in H. apply append_inv_head in H. exact H.
  - exists (Options.mk "a:b" []), (Options.mk "a" []), "c"%string, "b:c"%string.
    split; [discriminate | reflexivity].
Qed.

(** ** A round of work *)

(** X6. In every environment a round of [maybePerformWork] asks for at
    most one lock and runs the Batch Runner at most once, only while it
    holds the lock, and hands the lock back before its end. The lock is
    the one named after the project and what precedes the first
    underscore of the timestamp of the migration [getOrStartMigration]
    returned; the Batch Runner is given that migration, the abort signal
    and the duration of the round. *)
Theorem work_runs_under_the_lock_of_its_migration (options : Options.t) (durationMs : Z) :
  forall St (h : Handler St) o s,
    let r := exec h (maybePerformWork options durationMs) o s in
    lock_scan None (trace r) = true
    /\ (List.length (filter is_lock_try (trace r)) <= 1)%nat
    /\ (List.length (filter is_runner_run (trace r)) <= 1)%nat
    /\ (forall name, In (Some name) (map lock_asked (trace r)) ->
          exists row,
            hd_error (map started (trace r)) = Some (Some row)
            /\ name = lockNameForTimestamp options
                        (split_head underscore (BatchedMigrationRow.timestamp row)))
    /\ (forall row opts, In (Some (row, opts)) (map run_given (trace r)) ->
          hd_error (map started (trace r)) = Some (Some row)
          /\ opts = Some {| signal := true; durationMs := durationMs |}).
Proof.
  intros St h o s. cbv zeta.
  unfold maybePerformWork, getOrStartMigration, getMigrationForIdentifier,
    getMigrationFiles, tryWithLock, loadMigrationClass.
  settle_calls_eq h; simpl; rewrite ?String.eqb_refl; simpl;
    (split; [reflexivity|]); (split; [lia|]); (split; [lia|]);
    (split;
     [ intros name Hin;
       repeat (destruct Hin as [Hin | Hin]; try discriminate);
       try contradiction;
       inversion Hin; subst; eexists; (split; [reflexivity|]);
       match goal with
       | Hf : find _ _ = Some _ |- _ =>
           apply find_some in Hf; destruct Hf as [_ Hf];
           apply String.eqb_eq in Hf; rewrite <- Hf; reflexivity
       end
     | intros row opts Hin;
       repeat (destruct Hin as [Hin | Hin]; try discriminate);
       try contradiction;
       inversion Hin; subst; split; reflexivity ]).
Qed.

Ltac settle_calls_all h :=
  repeat (simpl;
          match goal with
          | |- context [emit _ _] => unfold emit
          | |- context [h ?X ?c ?o ?s] =>
              let out := fresh "out" in
              let s' := fresh "s" in
              let E := fresh "Ecall" in
              destruct (h X c o s) as [[out | out] s'] eqn:E
          | |- context [match migrationFiles ?o with _ => _ end] =>
              let E := fresh "Efiles" in
              destruct (migrationFiles o) eqn:E
          | |- context [match error_listener ?o with _ => _ end] =>
              let E := fresh "Elistener" in
              destruct (error_listener o) eqn:E
          | |- context [find ?f ?l] =>
              let E := fresh "Efind" in
              destruct (find f l) eqn:E
          | |- context [match ?x with Some _ => _ | None => _ end] =>
              let E := fresh "Eheard" in
              destruct x eqn:E
          | |- context [if ?b then _ else _] =>
              let E := fresh "Eif" in
              destruct b eqn:E
          end).

(** The listener found on the way is not one that returns. *)
Ltac no_such_listener :=
  repeat match goal with
         | H : Some _ = Some _ |- _ => inversion H; subst; clear H
         | H : Some _ = None |- _ => discriminate H
         | H : None = Some _ |- _ => discriminate H
         end;
  match goal with
  | L : listens ?o, E : error_listener ?o = None |- _ =>
      destruct L as (? & L & _); congruence
  | L : listens ?o, E : error_listener ?o = Some ?l, H : ?l _ = Some _ |- _ =>
      let l' := fresh "l" in
      let El := fresh "El" in
      let Hl := fresh "Hl" in
      destruct L as (l' & El & Hl); rewrite El in E; inversion E; subst;
      rewrite Hl in H; discriminate
  end.

(** X7. In every environment: a round of [maybePerformWork] that returns
    [true] was granted the lock; one that returns [false] was granted no
    lock, ran no batch and emitted nothing. Once the Batch Runner has run
    and the lock was released, the round returns [true] if the Batch
    Runner returned, and also if it threw and a listener for ['error']
    is registered that returns; with no listener registered an error of
    the Batch Runner is thrown out of the round and nothing is emitted.
    An error of the round is one an awaited call threw, the "invalid
    migration class" error or one a listener threw. *)
Theorem work_is_reported_when_the_lock_was_granted
  (options : Options.t) (durationMs : Z) :
  forall St (h : Handler St) o s,
    let r := exec h (maybePerformWork options durationMs) o s in
    (outcome r = Returned true -> existsb lock_acquired (trace r) = true)
    /\ (outcome r = Returned false ->
        existsb lock_acquired (trace r) = false
        /\ existsb is_runner_run (trace r) = false
        /\ emitted (obj_after r) = emitted o)
    /\ (existsb is_runner_run (trace r) = true ->
        existsb release_failed (trace r) = false ->
        existsb runner_threw (trace r) = false \/ listens o ->
        outcome r = Returned true)
    /\ (forall e, In (Some e) (map runner_error (trace r)) ->
          existsb release_failed (trace r) = false ->
          error_listener o = None ->
          outcome r = Threw e /\ emitted (obj_after r) = emitted o)
    /\ (forall e, outcome r = Threw e ->
          In (Some e) (map thrown (trace r))
          \/ (exists path, e = invalid_migration_class path)
          \/ (exists listener err,
                error_listener o = Some listener /\ listener err = Some e)).
Proof.
  intros St h o s. cbv zeta.
  unfold maybePerformWork, getOrStartMigration, getMigrationForIdentifier,
    getMigrationFiles, tryWithLock, loadMigrationClass.
  settle_calls_all h; simpl;
    (split; [intros H; first [discriminate | reflexivity]|]);
    (split; [intros H; first [discriminate | repeat split; reflexivity]|]);
    (split;
     [intros H1 H2 [H3 | H3];
      first [discriminate | reflexivity | no_such_listener]|]);
    (split;
     [intros thrown_here Hin Hrel Enone;
      repeat (destruct Hin as [Hin | Hin]; try discriminate);
      try contradiction; try discriminate; try congruence;
      inversion Hin; subst; split; reflexivity|]);
    (intros thrown_here H; try discriminate; inversion H; subst;
     first [ left; simpl; tauto
           | right; left; eexists; reflexivity
           | right; right; eauto ]).
Qed.

(** ** Finalizing *)

Ltac read_conditions :=
  repeat match goal with
         | H : negb _ = true |- _ => apply negb_true_iff in H
         | H : negb _ = false |- _ => apply negb_false_iff in H
         | H : status_eqb _ _ = true |- _ => apply status_eqb_eq in H
         | H : status_eqb _ _ = false |- _ => apply status_eqb_neq in H
         end.

(** X9. In every environment [finalizeBatchedMigration] returns only
    when its last read of the record found it [succeeded]. It reads the
    record of the project under what precedes the first underscore of the
    identifier; it updates at most once, to [finalizing], the record it
    read first, when that was neither [succeeded] nor [finalizing]; it
    runs the Batch Runner at most once, without abort signal or duration,
    on the record the update returned or on the record read when that was
    [finalizing] already; it inserts nothing. *)
Theorem finalize_returns_only_on_succeeded (options : Options.t) (identifier : string) :
  forall St (h : Handler St) o s,
    let r := exec h (finalizeBatchedMigration options identifier) o s in
    (outcome r = Returned tt -> last (map status_read (trace r)) None = Some Succeeded)
    /\ (forall key, In (Some key) (map read_key (trace r)) ->
          key = (Options.project options, split_head underscore identifier))
    /\ (List.length (filter is_update_status (trace r)) <= 1)%nat
    /\ (forall id st, In (Some (id, st)) (map update_asked (trace r)) ->
          st = Finalizing
          /\ exists m,
               hd_error (map read_row (trace r)) = Some (Some m)
               /\ id = BatchedMigrationRow.id m
               /\ BatchedMigrationRow.status m <> Succeeded
               /\ BatchedMigrationRow.status m <> Finalizing)
    /\ (List.length (filter is_runner_run (trace r)) <= 1)%nat
    /\ (forall row opts, In (Some (row, opts)) (map run_given (trace r)) ->
          opts = None
          /\ (In (Some row) (map updated_row (trace r))
              \/ (hd_error (map read_row (trace r)) = Some (Some row)
                  /\ BatchedMigrationRow.status row = Finalizing)))
    /\ existsb is_insert (trace r) = false.
Proof.
  intros St h o s. cbv zeta.
  unfold finalizeBatchedMigration, getMigrationForIdentifier, getMigrationFiles,
    loadMigrationClass.
  settle_calls_eq h; simpl; read_conditions;
    (split; [intros H; try discriminate; simpl; try congruence|]);
    (split;
     [ intros key Hin;
       repeat (destruct Hin as [Hin | Hin]; try discriminate);
       try contradiction; inversion Hin; reflexivity |]);
    (split; [lia|]);
    (split;
     [ intros id st Hin;
       repeat (destruct Hin as [Hin | Hin]; try discriminate);
       try contradiction; inversion Hin; subst;
       (split; [reflexivity|]); eexists; repeat split; eauto |]);
    (split; [lia|]);
    (split; [|reflexivity]);
    intros row opts Hin;
    repeat (destruct Hin as [Hin | Hin]; try discriminate);
    try contradiction; inversion Hin; subst;
    (split; [reflexivity|]); simpl; tauto.
Qed.

(** ** The statements of batched-migration.sql *)

Lemma update_again_changes (rows : list StoredRow.t) (now later id : Z)
  (s : BatchedMigrationStatus) :
  (exists r, In r rows /\ BatchedMigrationRow.id (StoredRow.columns r) = id) ->
  now <> later ->
  update_batched_migration_status_at later id s
    (update_batched_migration_status_at now id s rows)
  <> update_batched_migration_status_at now id s rows.
Proof.
  intros (r & Hin & Hid) Hne Heq. apply Z.eqb_eq in Hid.
  assert (In {| StoredRow.columns := set_status s (set_status s (StoredRow.columns r));
                StoredRow.updated_at := later |}
             (update_batched_migration_status_at later id s
                (update_batched_migration_status_at now id s rows))) as Here.
  { apply in_map_iff.
    exists {| StoredRow.columns := set_status s (StoredRow.columns r);
              StoredRow.updated_at := now |}.
    split; [simpl; rewrite Hid; reflexivity|].
    apply in_map_iff. exists r. rewrite Hid. auto. }
  rewrite Heq in Here. apply in_map_iff in Here. destruct Here as (r0 & E & _).
  destruct (BatchedMigrationRow.id (StoredRow.columns r0) =? id) eqn:E0.
  - inversion E. congruence.
  - subst r0. simpl in E0. congruence.
Qed.

(** X10. [update_batched_migration_status], with the [updated_at] it
    sets: the rows keep their order and, but for [status], their columns;
    a row with another id is unchanged, a row with the id has the new
    status and the current time; read without [updated_at] the result is
    that of the update the runner's methods are verified on. An update
    after another of the same id leaves what it alone would leave, and
    updates of different ids can be swapped; but updating is not
    idempotent over time: a second update of an id some row has, at
    another time, changes the table again, the status being the same. *)
Theorem status_updates_compose
  (rows : list StoredRow.t) (now later : Z) (id1 id2 : Z)
  (s1 s2 : BatchedMigrationStatus) :
  let update := update_batched_migration_status_at in
  map (fun r => fixed_columns (StoredRow.columns r)) (update now id1 s1 rows)
  = map (fun r => fixed_columns (StoredRow.columns r)) rows
  /\ (forall r, In r rows -> BatchedMigrationRow.id (StoredRow.columns r) <> id1 ->
                In r (update now id1 s1 rows))
  /\ (forall r, In r (update now id1 s1 rows) ->
                (BatchedMigrationRow.id (StoredRow.columns r) = id1
                 /\ BatchedMigrationRow.status (StoredRow.columns r) = s1
                 /\ StoredRow.updated_at r = now)
                \/ (BatchedMigrationRow.id (StoredRow.columns r) <> id1 /\ In r rows))
  /\ (forall w,
        table w = map StoredRow.columns rows ->
        table (update_batched_migration_status id1 s1 w)
        = map StoredRow.columns (update now id1 s1 rows))
  /\ update later id1 s2 (update now id1 s1 rows) = update later id1 s2 rows
  /\ (id1 <> id2 ->
      update now id1 s1 (update later id2 s2 rows)
      = update later id2 s2 (update now id1 s1 rows))
  /\ ((exists r, In r rows /\ BatchedMigrationRow.id (StoredRow.columns r) = id1) ->
      now <> later ->
      update later id1 s1 (update now id1 s1 rows) <> update now id1 s1 rows).
Proof.
  cbv zeta. unfold update_batched_migration_status_at.
  split; [|split; [|split; [|split; [|split; [|split]]]]].
  - rewrite map_map. apply map_ext. intros r.
    destruct (BatchedMigrationRow.id (StoredRow.columns r) =? id1); reflexivity.
  - intros r Hin Hid. apply in_map_iff. exists r. split; [|exact Hin].
    apply Z.eqb_neq in Hid. rewrite Hid. reflexivity.
  - intros r Hin. apply in_map_iff in Hin. destruct Hin as (r0 & E & Hin).
    destruct (BatchedMigrationRow.id (StoredRow.columns r0) =? id1) eqn:Eid; subst r.
    + left. apply Z.eqb_eq in Eid. simpl. auto.
    + right. apply Z.eqb_neq in Eid. auto.
  - intros w Hw. unfold update_batched_migration_status. simpl.
    rewrite Hw, !map_map. apply map_ext. intros r.
    destruct (BatchedMigrationRow.id (StoredRow.columns r) =? id1); reflexivity.
  - rewrite map_map. apply map_ext. intros r.
    destruct (BatchedMigrationRow.id (StoredRow.columns r) =? id1) eqn:E; simpl;
      rewrite E; reflexivity.
  - intros Hne. rewrite !map_map. apply map_ext. intros r.
    destruct (BatchedMigrationRow.id (StoredRow.columns r) =? id1) eqn:E1;
      destruct (BatchedMigrationRow.id (StoredRow.columns r) =? id2) eqn:E2;
      simpl; rewrite ?E1, ?E2; try reflexivity.
    apply Z.eqb_eq in E1. apply Z.eqb_eq in E2. congruence.
  - intros Has Hne. apply (update_again_changes rows now later id1 s1 Has Hne).
Qed.

(** ** The abort signal *)

Lemma obj_handle_keeps_abort {X} (c : Cmd X) (o o' : ObjState) (x : Outcome X) :
  obj_handle c o = Some (x, o') -> aborted o = true -> aborted o' = true.
Proof.
  destruct c; simpl; intros E A; inversion E; subst; simpl; auto.
  pose proof (emit_keeps_fields err o) as (_ & F & _).
  match goal with H : emit _ _ = _ |- _ => rewrite H in F end.
  simpl in F. congruence.
Qed.

Lemma advance_keeps_abort {A} (p : Prog A) : forall o,
  aborted o = true -> aborted (snd (advance p o)) = true.
Proof.
  induction p as [a | e | X c k IH]; intros o Ab; simpl; auto.
  destruct (obj_handle c o) as [[x o']|] eqn:E; simpl; auto.
  apply IH. apply (obj_handle_keeps_abort c o o' x E Ab).
Qed.

Lemma turn_keeps_abort options k p o :
  aborted o = true -> aborted (snd (turn options k p o)) = true.
Proof.
  intros A. unfold turn.
  pose proof (advance_keeps_abort p o A) as H.
  destruct (advance p o) as [p1 o1]. simpl in H.
  destruct p1 as [[|] | e | X c cont]; simpl; auto.
  apply advance_keeps_abort. exact H.
Qed.

Lemma run_task_obj options before after k p s :
  obj (run_task options before after k p s) = snd (turn options k p (obj s)).
Proof.
  unfold run_task. destruct (turn options k p (obj s)) as [p' o'].
  destruct p' as [[|] | e | X c cont]; reflexivity.
Qed.

(** X11. The abort signal is never cleared: [stop()] sets it, and no
    step of the process, a later [start()] included, undoes it. So a
    runner object that was stopped cannot be started again: on an object
    that is aborted and not running, [start()] throws nothing, its loop
    leaves at once without awaiting anything, and the object is left as
    it was. On an object that is not running [stop()] returns at once. *)
Theorem abort_is_never_undone (options : Options.t) :
  (forall s, aborted (obj (stop options s)) = true)
  /\ (forall s s', step options s s' -> aborted (obj s) = true -> aborted (obj s') = true)
  /\ (forall s,
        aborted (obj s) = true -> running (obj s) = false ->
        start options s
        = (Returned tt,
           {| obj := obj s; tasks := tasks s; log := log s ++ [LoopExited] |}))
  /\ (forall s,
        running (obj s) = false ->
        stop options s
        = {| obj := set_aborted (obj s); tasks := tasks s;
             log := log s ++ [StopReturned] |}).
Proof.
  split; [|split; [|split]].
  - intros s. unfold stop. rewrite run_task_obj. apply turn_keeps_abort.
    simpl. reflexivity.
  - intros s s' St A.
    destruct St as [s | s | s before after k X c cont out Ht Hc | s before after k Ht
                   | s fs | s l].
    + unfold start. destruct (running (obj s)); simpl; [exact A|].
      unfold loop. rewrite run_task_obj. apply turn_keeps_abort. simpl. exact A.
    + unfold stop. rewrite run_task_obj. apply turn_keeps_abort. reflexivity.
    + rewrite run_task_obj. apply turn_keeps_abort. exact A.
    + rewrite run_task_obj. apply turn_keeps_abort. exact A.
    + simpl. exact A.
    + simpl. exact A.
  - intros s A R. unfold start. rewrite R.
    unfold loop, run_task, turn. cbn [advance obj tasks log body].
    rewrite advance_loop_iteration. simpl. rewrite A. simpl.
    rewrite app_nil_r. f_equal. f_equal.
    destruct (obj s) as [r a m l e]. simpl in *. subst. reflexivity.
  - intros s R. unfold stop, run_task, turn. cbn [advance obj tasks log body].
    simpl obj_handle. cbn [advance snd].
    rewrite advance_stop_iteration. simpl. rewrite R. simpl.
    rewrite app_nil_r. reflexivity.
Qed.

(** ** The loop and the [running] flag *)

Lemma never_after_app trigger banned l : forall seen l',
  never_after trigger banned seen (l ++ l') =
  never_after trigger banned seen l
  && never_after trigger banned (seen || existsb trigger l) l'.
Proof.
  induction l as [|e l IH]; intros seen l'; simpl.
  - rewrite orb_false_r. reflexivity.
  - rewrite IH, <- andb_assoc, orb_assoc. reflexivity.
Qed.

Lemma never_after_seen trigger banned l :
  never_after trigger banned true l = true -> existsb banned l = false.
Proof.
  induction l as [|e l IH]; simpl; intros H; [reflexivity|].
  apply andb_prop in H. destruct H as [H1 H2].
  destruct (banned e); [discriminate|]. simpl. apply IH. exact H2.
Qed.

Lemma never_after_split trigger banned earlier x later :
  never_after trigger banned false (earlier ++ x :: later) = true ->
  trigger x = true -> existsb banned later = false.
Proof.
  rewrite never_after_app. simpl. intros H T. rewrite T, orb_true_r in H.
  apply andb_prop in H. destruct H as [_ H].
  apply andb_prop in H. destruct H as [_ H].
  apply (never_after_seen trigger banned). exact H.
Qed.

Lemma never_after_event trigger banned l ev :
  never_after trigger banned false l = true ->
  (existsb trigger l = true -> banned ev = false) ->
  never_after trigger banned false (l ++ [ev]) = true.
Proof.
  intros H Hev. rewrite never_after_app, H. simpl.
  destruct (existsb trigger l); [rewrite Hev; reflexivity | reflexivity].
Qed.

Section Alive.

Variable options : Options.t.

Lemma run_task_stuck_or_alive before after k p s :
  in_turn k p ->
  (k = LoopTask ->
   running (obj s) = true /\ existsb is_loop_rejected (log s) = false
   /\ forall t, In t (before ++ after) -> kind t = StopTask) ->
  (running (obj s) = true ->
   k = LoopTask \/ (exists t, In t (before ++ after) /\ kind t = LoopTask)
   \/ existsb is_loop_rejected (log s) = true) ->
  (existsb is_loop_rejected (log s) = true ->
   running (obj s) = true /\ k = StopTask
   /\ forall t, In t (before ++ after) -> kind t = StopTask) ->
  never_after is_loop_rejected is_stop_returned false (log s) = true ->
  stuck_or_alive (run_task options before after k p s).
Proof.
  intros Hp Loop Alive Stuck Never. unfold run_task.
  pose proof (turn_cases options k p (obj s) Hp) as Cases. cbv zeta in Cases.
  destruct (turn options k p (obj s)) as [p' o']. simpl in Cases.
  destruct Cases as [(T' & F1 & F2 & _) | (-> & Exits)].
  - assert (stuck_or_alive {| obj := o';
                              tasks := before ++ {| kind := k; cur := p' |} :: after;
                              log := log s |}) as Kept.
    { constructor; simpl.
      - intros R. rewrite F1 in R. destruct (Alive R) as [-> | [(t & Hin & K) | Rej]].
        + left. eexists. split; [apply in_others; left; reflexivity | reflexivity].
        + left. exists t. split; [apply in_others; auto | exact K].
        + right. exact Rej.
      - intros Rej. destruct (Stuck Rej) as (R & K & Others). rewrite F1.
        split; [exact R|]. intros t Hin. apply in_others in Hin.
        destruct Hin as [-> | Hin]; auto.
      - exact Never. }
    destruct p' as [[|] | e | X c cont]; simpl.
    + exact Kept.
    + inversion T'; subst. discriminate.
    + destruct Kept as [K1 K2 K3]. simpl in *. destruct k.
      * (* the call of loop is rejected *)
        destruct (Loop eq_refl) as (R & NotYet & Others).
        constructor; simpl.
        -- intros _. right. rewrite existsb_app. simpl. apply orb_true_r.
        -- intros _. split; [congruence | exact Others].
        -- apply never_after_event; [exact Never | reflexivity].
      * constructor; simpl.
        -- intros R. rewrite existsb_app. simpl. rewrite orb_false_r.
           destruct (K1 R) as [(t & Hin & K) | Rej]; [|auto].
           apply in_others in Hin. destruct Hin as [-> | Hin]; [discriminate|].
           left. eauto.
        -- rewrite existsb_app. simpl. rewrite orb_false_r. intros Rej.
           destruct (K2 Rej) as [R Others]. split; [exact R|].
           intros t Hin. apply Others. apply in_others. auto.
        -- apply never_after_event; [exact Never | reflexivity].
    + destruct Kept as [K1 K2 K3]. simpl in *.
      constructor; simpl.
      * intros R. rewrite existsb_app. simpl. rewrite orb_false_r. auto.
      * rewrite existsb_app. simpl. rewrite orb_false_r. exact K2.
      * apply never_after_event; [exact Never | reflexivity].
  - simpl. destruct k.
    + destruct Exits as (_ & R & _).
      destruct (Loop eq_refl) as (_ & NotYet & Others).
      constructor; simpl.
      * intros R'. congruence.
      * rewrite existsb_app. simpl. rewrite orb_false_r. intros Rej. congruence.
      * apply never_after_event; [exact Never | reflexivity].
    + destruct Exits as (R0 & R & _).
      assert (existsb is_loop_rejected (log s) = false) as NotYet.
      { destruct (existsb is_loop_rejected (log s)) eqn:Rej; [|reflexivity].
        destruct (Stuck eq_refl) as (R' & _). congruence. }
      constructor; simpl.
      * intros R'. congruence.
      * rewrite existsb_app. simpl. rewrite orb_false_r. intros Rej. congruence.
      * apply never_after_event; [exact Never|]. intros Rej. congruence.
Qed.

Lemma task_stuck_or_alive s before after k p0 p :
  invariant s -> stuck_or_alive s ->
  tasks s = before ++ {| kind := k; cur := p0 |} :: after ->
  in_turn k p ->
  stuck_or_alive (run_task options before after k p s).
Proof.
  intros Inv [J1 J2 J3] Ht Hp.
  assert (In {| kind := k; cur := p0 |} (tasks s)) as Here.
  { rewrite Ht. apply in_others. auto. }
  apply run_task_stuck_or_alive; auto.
  - intros ->.
    assert (running (obj s) = true) as R.
    { destruct (running (obj s)) eqn:Run; [reflexivity|].
      pose proof (inv_running _ Inv Run _ Here) as K. discriminate. }
    split; [exact R|]. split.
    + destruct (existsb is_loop_rejected (log s)) eqn:Rej; [|reflexivity].
      destruct (J2 eq_refl) as [_ Stops]. pose proof (Stops _ Here) as K. discriminate.
    + apply no_loop_task. pose proof (inv_one_loop _ Inv) as One.
      rewrite Ht, count_loop_others in One. unfold is_loop_task in One at 2.
      simpl in One. lia.
  - intros R. destruct (J1 R) as [(t & Hin & K) | Rej]; [|auto].
    rewrite Ht in Hin. apply in_others in Hin.
    destruct Hin as [-> | Hin]; [left; exact K | right; left; eauto].
  - intros Rej. destruct (J2 Rej) as [R Stops]. split; [exact R|]. split.
    + apply (Stops _ Here).
    + intros t Hin. apply Stops. rewrite Ht. apply in_others. auto.
Qed.

Lemma reachable_stuck_or_alive s : reachable options s -> stuck_or_alive s.
Proof.
  induction 1 as [| s s' Rs IH St].
  { constructor; simpl; try discriminate; reflexivity. }
  pose proof (reachable_invariant options s Rs) as Inv.
  destruct St as [s | s | s before after k X c cont out Ht Hc | s before after k Ht
                 | s fs | s l].
  - unfold start. destruct (running (obj s)) eqn:Run; simpl; [exact IH|].
    destruct IH as [J1 J2 J3].
    assert (existsb is_loop_rejected (log s) = false) as NotYet.
    { destruct (existsb is_loop_rejected (log s)) eqn:Rej; [|reflexivity].
      destruct (J2 eq_refl) as [R _]. congruence. }
    unfold loop. apply run_task_stuck_or_alive; simpl.
    + apply Shape_ret. reflexivity.
    + intros _. split; [reflexivity|]. split; [exact NotYet|].
      rewrite app_nil_r. apply (inv_running _ Inv Run).
    + auto.
    + intros Rej. congruence.
    + exact J3.
  - destruct IH as [J1 J2 J3].
    unfold stop. apply run_task_stuck_or_alive; simpl.
    + apply Shape_ret. reflexivity.
    + discriminate.
    + rewrite app_nil_r. intros R. right. apply J1. exact R.
    + rewrite app_nil_r. intros Rej. destruct (J2 Rej) as [R Stops]. auto.
    + exact J3.
  - apply task_stuck_or_alive with (p0 := Call c cont); [exact Inv | exact IH | exact Ht |].
    pose proof (inv_turns _ Inv {| kind := k; cur := Call c cont |}) as T. simpl in T.
    eapply Shape_call_inv.
    + apply T. rewrite Ht. apply in_others. auto.
    + intros F. rewrite (awaited_may_throw c Hc) in F. discriminate.
  - apply task_stuck_or_alive with (p0 := Ret Continue); [exact Inv | exact IH | exact Ht |].
    apply Shape_ret. reflexivity.
  - destruct IH as [J1 J2 J3]. constructor; simpl; auto.
  - destruct IH as [J1 J2 J3]. constructor; simpl; auto.
Qed.

End Alive.

(** X12. At every moment of the process [running] is set exactly when a
    call of [loop] is in flight or one was rejected, and there is never
    more than one in flight. Once [loop()] was rejected (an error met no
    listener that returns) the object stays as it is: [running] stays
    set with no call of [loop] in flight, so that [start()] throws, and
    no [stop()] returns after the rejection. [start()] throws nothing
    exactly when no call of [loop] is in flight and none was rejected. *)
Theorem running_tells_whether_the_loop_is_alive (options : Options.t) (s : Sys) :
  reachable options s ->
  (running (obj s) = true
   <-> (exists t, In t (tasks s) /\ kind t = LoopTask)
       \/ existsb is_loop_rejected (log s) = true)
  /\ (List.length (filter is_loop_task (tasks s)) <= 1)%nat
  /\ (existsb is_loop_rejected (log s) = true ->
      (forall t, In t (tasks s) -> kind t = StopTask)
      /\ fst (start options s) = Threw already_running)
  /\ (forall earlier e later,
        log s = earlier ++ Rejected LoopTask e :: later ->
        existsb is_stop_returned later = false)
  /\ (fst (start options s) = Returned tt
      <-> (forall t, In t (tasks s) -> kind t = StopTask)
          /\ existsb is_loop_rejected (log s) = false).
Proof.
  intros R. pose proof (reachable_invariant options s R) as Inv.
  destruct (reachable_stuck_or_alive options s R) as [J1 J2 J3].
  assert (running (obj s) = true
          <-> (exists t, In t (tasks s) /\ kind t = LoopTask)
              \/ existsb is_loop_rejected (log s) = true) as E.
  { split; [exact J1|].
    intros [(t & Hin & K) | Rej]; [|apply (J2 Rej)].
    destruct (running (obj s)) eqn:Run; [reflexivity|].
    rewrite (inv_running _ Inv Run t Hin) in K. discriminate. }
  split; [exact E|]. split; [apply (inv_one_loop _ Inv)|]. split; [|split].
  - intros Rej. destruct (J2 Rej) as [Run Stops]. split; [exact Stops|].
    unfold start. rewrite Run. reflexivity.
  - intros earlier e later El. rewrite El in J3.
    apply (never_after_split _ _ _ _ _ J3). reflexivity.
  - unfold start. destruct (running (obj s)) eqn:Run; simpl.
    + split; [discriminate|]. intros [Stops NotYet]. destruct E as [E _].
      destruct (E eq_refl) as [(t & Hin & K) | Rej]; [|congruence].
      rewrite (Stops t Hin) in K. discriminate.
    + split; [|reflexivity]. intros _. split; [apply (inv_running _ Inv Run)|].
      destruct (existsb is_loop_rejected (log s)) eqn:Rej; [|reflexivity].
      destruct (J2 eq_refl) as [Run' _]. congruence.
Qed.

(** The database is down during the first round of a runner without a
    listener: the loop is gone, [running] is set and [start()] throws. *)
Lemma running_tells_whether_the_loop_is_alive_witness :
  let s := play backfill_options error_without_listener initial in
  running (obj s) = true
  /\ tasks s = []
  /\ fst (start backfill_options s) = Threw already_running.
Proof.
  intros s.
  assert (reachable backfill_options s) as R
    by (apply play_reachable; apply reachable_initial).
  destruct (running_tells_whether_the_loop_is_alive backfill_options s R)
    as (_ & _ & Stuck & _).
  split; [reflexivity|]. split; [reflexivity|]. apply Stuck. reflexivity.
Defined.

(** ** Stopping *)

Lemma split_at_app {A} (before : list A) (x : A) (after : list A) :
  split_at (List.length before) (before ++ x :: after) = Some (before, x, after).
Proof.
  induction before as [|y before IH]; simpl; [reflexivity|].
  rewrite IH. reflexivity.
Qed.

Lemma obj_handle_none_awaited {X} (c : Cmd X) (o : ObjState) :
  obj_handle c o = None -> awaited c = true.
Proof. destruct c; simpl; intros H; try discriminate; reflexivity. Qed.

Lemma play_app options (l1 l2 : list Move) (s : Sys) :
  play options (l1 ++ l2) s = play options l2 (play options l1 s).
Proof. unfold play. apply fold_left_app. Qed.

Lemma play_cons options (m : Move) (ms : list Move) (s : Sys) :
  play options (m :: ms) s = play options ms (play_move options m s).
Proof. reflexivity. Qed.

Section Draining.

Variable options : Options.t.
Variable answer : Answers.

(** With the signal aborted and a listener that returns, a call of
    [loop] leaves once the calls it awaits have settled. *)
Lemma loop_task_drains : forall p,
  in_turn LoopTask p -> guarded p ->
  forall s before after,
    aborted (obj s) = true -> listens (obj s) ->
    exists n,
      let s' := play options (resumes answer (repeat (List.length before) n))
                  (run_task options before after LoopTask p s) in
      tasks s' = before ++ after
      /\ aborted (obj s') = true /\ running (obj s') = false
      /\ filter is_stop_returned (log s') = filter is_stop_returned (log s).
Proof.
  induction p as [a | e | X c k IH]; intros Hp G s before after Ab L.
  - inversion Hp; subst. exists 0%nat. simpl.
    unfold run_task, turn. cbn [advance body].
    rewrite advance_loop_iteration, Ab. simpl.
    rewrite filter_app. simpl. rewrite app_nil_r. auto.
  - contradiction.
  - destruct (obj_handle c (obj s)) as [[out o']|] eqn:E.
    + assert (run_task options before after LoopTask (Call c k) s
              = run_task options before after LoopTask (k out)
                  {| obj := o'; tasks := tasks s; log := log s |}) as Same.
      { unfold run_task, turn. cbn [advance obj log]. rewrite E. reflexivity. }
      rewrite Same.
      assert (in_turn LoopTask (k out)) as Hk.
      { eapply Shape_call_inv; [exact Hp|]. apply (obj_handle_returns c _ o' out E). }
      assert (guarded (k out)) as Gk.
      { destruct (G out (obj_handle_returns c _ o' out E)) as [Gk | (F & _)];
          [exact Gk|].
        rewrite (emit_returns_to_listener c _ o' out L E) in F. discriminate. }
      destruct (IH out Hk Gk {| obj := o'; tasks := tasks s; log := log s |}
                  before after) as (n & Hn).
      { simpl. apply (obj_handle_keeps_abort c (obj s) o' out E Ab). }
      { simpl. unfold listens. rewrite (obj_handle_keeps_listener c _ o' out E).
        exact L. }
      exists n. exact Hn.
    + pose proof (obj_handle_none_awaited c (obj s) E) as Aw.
      assert (run_task options before after LoopTask (Call c k) s
              = {| obj := obj s;
                   tasks := before ++ {| kind := LoopTask; cur := Call c k |} :: after;
                   log := log s ++ [Awaits LoopTask c] |}) as Waits.
      { unfold run_task, turn. cbn [advance]. rewrite E. reflexivity. }
      rewrite Waits.
      assert (always_returns c = true -> exists x, answer X c = Returned x) as Free.
      { intros F. rewrite (awaited_may_throw c Aw) in F. discriminate. }
      assert (in_turn LoopTask (k (answer X c))) as Hk.
      { eapply Shape_call_inv; [exact Hp | exact Free]. }
      assert (guarded (k (answer X c))) as Gk.
      { destruct (G (answer X c) Free) as [Gk | (F & _)]; [exact Gk|].
        destruct c; simpl in F, Aw; discriminate. }
      destruct (IH (answer X c) Hk Gk
                  {| obj := obj s;
                     tasks := before ++ {| kind := LoopTask; cur := Call c k |} :: after;
                     log := log s ++ [Awaits LoopTask c] |}
                  before after Ab L) as (n & Hn).
      set (s1 := {| obj := obj s;
                    tasks := before ++ {| kind := LoopTask; cur := Call c k |} :: after;
                    log := log s ++ [Awaits LoopTask c] |}) in *.
      assert (resume options answer (List.length before) s1
              = run_task options before after LoopTask (k (answer X c)) s1) as Goes.
      { unfold resume. cbn [tasks s1]. rewrite split_at_app. cbn [cur kind].
        rewrite Aw. reflexivity. }
      exists (S n).
      change (resumes answer (repeat (List.length before) (S n)))
        with (Resume (List.length before) answer
                :: resumes answer (repeat (List.length before) n)).
      rewrite play_cons. cbn [play_move]. rewrite Goes.
      cbv zeta in Hn |- *. destruct Hn as (H1 & H2 & H3 & H4).
      split; [exact H1|]. split; [exact H2|]. split; [exact H3|].
      rewrite H4. unfold s1. cbn [log]. rewrite filter_app. simpl.
      rewrite app_nil_r. reflexivity.
Qed.

End Draining.

Lemma advance_waits {A} (p : Prog A) : forall o,
  match fst (advance p o) with
  | Call c _ => awaited c = true
  | _ => True
  end.
Proof.
  induction p as [a | e | X c k IH]; intros o; simpl; auto.
  destruct (obj_handle c o) as [[x o']|] eqn:E.
  - apply IH.
  - simpl. apply (obj_handle_none_awaited c o E).
Qed.

Lemma filter_stop_tasks (l : list Task) :
  (forall t, In t l -> kind t = StopTask) -> filter is_stop_task l = l.
Proof.
  induction l as [|t l IH]; simpl; intros H; [reflexivity|].
  unfold is_stop_task at 1, is_loop_task. rewrite (H t (or_introl eq_refl)). simpl.
  rewrite IH; auto.
Qed.

Lemma stop_sleep_ends_after_reply : ends_after_reply stop_sleep.
Proof. intros [[] | e]; simpl; eauto. Qed.

Section Waiting.

Variable options : Options.t.

Lemma turn_waits k p o :
  match fst (turn options k p o) with
  | Call c _ => awaited c = true
  | _ => True
  end.
Proof.
  unfold turn. pose proof (advance_waits p o) as H.
  destruct (advance p o) as [p1 o1]. simpl in H.
  destruct p1 as [[|] | e | X c cont]; simpl; auto.
  apply advance_waits.
Qed.

Lemma run_task_waits before after k p s :
  (forall t, In t (before ++ after) -> waits (cur t) = true) ->
  forall t, In t (tasks (run_task options before after k p s)) -> waits (cur t) = true.
Proof.
  intros Others. unfold run_task. pose proof (turn_waits k p (obj s)) as H.
  destruct (turn options k p (obj s)) as [p' o']. simpl in H.
  destruct p' as [[|] | e | X c cont]; simpl; auto;
    intros t Hin; apply in_others in Hin; destruct Hin as [-> | Hin]; auto.
Qed.

Lemma reachable_waits s :
  reachable options s -> forall t, In t (tasks s) -> waits (cur t) = true.
Proof.
  induction 1 as [| s s' Rs IH St]; [intros t []|].
  destruct St as [s | s | s before after k X c cont out Ht Hc | s before after k Ht
                 | s fs | s l].
  - unfold start. destruct (running (obj s)); simpl; [exact IH|].
    unfold loop. apply run_task_waits. rewrite app_nil_r. exact IH.
  - unfold stop. apply run_task_waits. rewrite app_nil_r. exact IH.
  - apply run_task_waits. intros t Hin. apply IH. rewrite Ht. apply in_others. auto.
  - apply run_task_waits. intros t Hin. apply IH. rewrite Ht. apply in_others. auto.
  - exact IH.
  - exact IH.
Qed.

(** A call of [stop] in flight stands at its [await sleep(1000)]. *)
Lemma run_task_stop_sleep before after k p s :
  (forall t, In t (before ++ after) -> kind t = StopTask -> cur t = stop_sleep) ->
  (k = StopTask -> p = Ret Continue \/ exists e, p = Throw e) ->
  forall t, In t (tasks (run_task options before after k p s)) ->
            kind t = StopTask -> cur t = stop_sleep.
Proof.
  intros Others Hp. destruct k.
  - unfold run_task. destruct (turn options LoopTask p (obj s)) as [p' o'].
    destruct p' as [[|] | e | X c cont]; simpl; auto;
      intros t Hin K; apply in_others in Hin; destruct Hin as [-> | Hin]; auto;
      discriminate.
  - destruct (Hp eq_refl) as [-> | [e ->]].
    + unfold run_task, turn. cbn [advance body]. rewrite advance_stop_iteration.
      destruct (running (obj s)); simpl; auto.
      intros t Hin K. apply in_others in Hin. destruct Hin as [-> | Hin]; auto.
    + unfold run_task, turn. simpl. auto.
Qed.

Lemma reachable_stop_sleep s :
  reachable options s ->
  forall t, In t (tasks s) -> kind t = StopTask -> cur t = stop_sleep.
Proof.
  induction 1 as [| s s' Rs IH St]; [intros t []|].
  destruct St as [s | s | s before after k X c cont out Ht Hc | s before after k Ht
                 | s fs | s l]; [| | | | exact IH | exact IH].
  - unfold start. destruct (running (obj s)); simpl; [exact IH|].
    unfold loop. apply run_task_stop_sleep; [|discriminate].
    rewrite app_nil_r. exact IH.
  - unfold stop. apply run_task_stop_sleep; [|auto].
    rewrite app_nil_r. exact IH.
  - apply run_task_stop_sleep.
    + intros t Hin. apply IH. rewrite Ht. apply in_others. auto.
    + intros ->.
      assert (Call c cont = stop_sleep) as E.
      { apply (IH {| kind := StopTask; cur := Call c cont |});
          [rewrite Ht; apply in_others; auto | reflexivity]. }
      pose proof stop_sleep_ends_after_reply as H. rewrite <- E in H. apply H.
  - apply run_task_stop_sleep.
    + intros t Hin. apply IH. rewrite Ht. apply in_others. auto.
    + auto.
Qed.

End Waiting.

Section Stopping.

Variable options : Options.t.
Variable answer : Answers.

(** With the loop gone, each call of [stop] in flight returns when its
    sleep ends. *)
Lemma stop_tasks_drain : forall n s,
  List.length (tasks s) = n ->
  (forall t, In t (tasks s) -> kind t = StopTask /\ cur t = stop_sleep) ->
  running (obj s) = false ->
  answer unit (Sleep 1000 false) = Returned tt ->
  let s' := play options (resumes answer (repeat 0%nat n)) s in
  tasks s' = [] /\ obj s' = obj s /\ log s' = log s ++ repeat StopReturned n.
Proof.
  induction n as [|n IH]; intros s Hlen Hstop Run Hans; cbv zeta.
  - simpl. destruct (tasks s); [|discriminate]. rewrite app_nil_r. auto.
  - destruct (tasks s) as [|t rest] eqn:Ht; [discriminate|].
    destruct (Hstop t (or_introl eq_refl)) as [K C]. destruct t as [k p].
    simpl in K, C. subst k p.
    change (resumes answer (repeat 0%nat (S n)))
      with (Resume 0 answer :: resumes answer (repeat 0%nat n)).
    rewrite play_cons. cbn [play_move].
    assert (resume options answer 0 s
            = {| obj := obj s; tasks := rest; log := log s ++ [StopReturned] |}) as Goes.
    { unfold resume. rewrite Ht. cbn [split_at cur kind stop_sleep bind call awaited].
      rewrite Hans. unfold run_task, turn. cbn [bind advance body].
      rewrite advance_stop_iteration, Run. reflexivity. }
    rewrite Goes.
    destruct (IH {| obj := obj s; tasks := rest; log := log s ++ [StopReturned] |})
      as (H1 & H2 & H3); simpl; auto.
    + intros t Hin. apply Hstop. right. exact Hin.
    + split; [exact H1|]. split; [exact H2|].
      rewrite H3. simpl. rewrite <- app_assoc. reflexivity.
Qed.

(** With the signal aborted and a listener that returns, a loop that was
    not rejected leaves once the calls it awaits have settled; the calls
    of [stop] in flight stay. *)
Lemma loop_leaves s :
  reachable options s ->
  aborted (obj s) = true ->
  listens (obj s) ->
  existsb is_loop_rejected (log s) = false ->
  exists positions,
    let s1 := play options (resumes answer positions) s in
    running (obj s1) = false
    /\ tasks s1 = filter is_stop_task (tasks s)
    /\ filter is_stop_returned (log s1) = filter is_stop_returned (log s).
Proof.
  intros R Ab L NotYet. pose proof (reachable_invariant options s R) as Inv.
  destruct (running (obj s)) eqn:Run.
  - destruct (alive_or_rejected _ (reachable_stuck_or_alive options s R) Run)
      as [(t & Hin & K) | Rej]; [|congruence].
    apply in_split in Hin. destruct Hin as (before & after & Ht).
    destruct t as [k p]. simpl in K. subst k.
    assert (forall t, In t (before ++ after) -> kind t = StopTask) as Others.
    { apply no_loop_task.
      pose proof (inv_one_loop _ Inv) as One. rewrite Ht, count_loop_others in One.
      unfold is_loop_task in One at 2. simpl in One. lia. }
    assert (filter is_stop_task (tasks s) = before ++ after) as Left.
    { rewrite Ht, filter_app. simpl. rewrite <- filter_app.
      apply filter_stop_tasks. exact Others. }
    pose proof (reachable_waits options s R {| kind := LoopTask; cur := p |}) as W.
    pose proof (inv_turns _ Inv {| kind := LoopTask; cur := p |}) as T.
    pose proof (reachable_guarded options s R {| kind := LoopTask; cur := p |}) as G.
    rewrite Ht in W, T, G. simpl in W, T, G.
    specialize (W (proj2 (in_others before after _ _) (or_introl eq_refl))).
    specialize (T (proj2 (in_others before after _ _) (or_introl eq_refl))).
    specialize (G (proj2 (in_others before after _ _) (or_introl eq_refl)) eq_refl).
    assert (exists p', in_turn LoopTask p' /\ guarded p'
                       /\ resume options answer (List.length before) s
                          = run_task options before after LoopTask p' s)
      as (p' & Hp' & Gp' & Goes).
    { destruct p as [[|] | e | X c cont]; simpl in W; try discriminate.
      - exists (Ret Continue). split; [exact T|]. split; [exact I|].
        unfold resume. rewrite Ht, split_at_app. reflexivity.
      - assert (always_returns c = true -> exists x, answer X c = Returned x) as Free.
        { intros F. rewrite (awaited_may_throw c W) in F. discriminate. }
        exists (cont (answer X c)). split; [|split].
        + eapply Shape_call_inv; [exact T | exact Free].
        + destruct (G (answer X c) Free) as [Gk | (F & _)]; [exact Gk|].
          destruct c; simpl in F, W; discriminate.
        + unfold resume. rewrite Ht, split_at_app. cbn [cur kind]. rewrite W.
          reflexivity. }
    destruct (loop_task_drains options answer p' Hp' Gp' s before after Ab L)
      as (n & H1 & H2 & H3 & H4).
    exists (repeat (List.length before) (S n)).
    change (resumes answer (repeat (List.length before) (S n)))
      with (Resume (List.length before) answer
              :: resumes answer (repeat (List.length before) n)).
    cbv zeta. rewrite play_cons. cbn [play_move]. rewrite Goes.
    split; [exact H3|]. split; [|exact H4]. rewrite Left. exact H1.
  - exists []. simpl. split; [exact Run|]. split; [|reflexivity].
    symmetry. apply filter_stop_tasks. apply (inv_running _ Inv Run).
Qed.

End Stopping.

Lemma count_repeat_stop_returned n :
  filter is_stop_returned (repeat StopReturned n) = repeat StopReturned n.
Proof. induction n as [|n IH]; simpl; [reflexivity|]. rewrite IH. reflexivity. Qed.

(** X13. With the abort signal set, a listener registered for ['error']
    that returns and the loop not rejected, the process comes to rest:
    from any such moment of the process there is a way on, in which only
    calls awaited settle, however they settle as long as the sleep of
    [stop()] ends, after which the loop has left, [running] is cleared,
    no call is in flight and every call of [stop()] that was in flight
    has returned; neither [start()] nor [stop()] is called on that way. *)
Theorem stop_returns_once_the_calls_settle
  (options : Options.t) (answer : Answers) (s : Sys) :
  reachable options s ->
  aborted (obj s) = true ->
  listens (obj s) ->
  existsb is_loop_rejected (log s) = false ->
  answer unit (Sleep 1000 false) = Returned tt ->
  exists positions,
    let s' := play options (resumes answer positions) s in
    tasks s' = [] /\ running (obj s') = false
    /\ List.length (filter is_stop_returned (log s'))
       = (List.length (filter is_stop_returned (log s))
          + List.length (filter is_stop_task (tasks s)))%nat.
Proof.
  intros R Ab L NotYet Hans.
  destruct (loop_leaves options answer s R Ab L NotYet) as (positions & Run & Ht & Hl).
  cbv zeta in Run, Ht, Hl.
  set (s1 := play options (resumes answer positions) s) in *.
  assert (reachable options s1) as R1 by (apply play_reachable; exact R).
  pose proof (reachable_invariant options s1 R1) as Inv1.
  destruct (stop_tasks_drain options answer (List.length (tasks s1)) s1 eq_refl)
    as (H1 & H2 & H3); auto.
  { intros t Hin. split.
    - apply (inv_running _ Inv1 Run t Hin).
    - apply (reachable_stop_sleep options s1 R1 t Hin).
      apply (inv_running _ Inv1 Run t Hin). }
  exists (positions ++ repeat 0%nat (List.length (tasks s1))).
  cbv zeta. unfold resumes. rewrite map_app, play_app. fold (resumes answer positions).
  fold s1. fold (resumes answer (repeat 0%nat (List.length (tasks s1)))).
  split; [exact H1|]. split; [rewrite H2; exact Run|].
  rewrite H3, filter_app, count_repeat_stop_returned, length_app, repeat_length.
  rewrite Hl, Ht. reflexivity.
Qed.

(** A listener is registered; [stop()] is called while the loop awaits
    its migration files, and the import of the class then fails: the
    error is handed over, the loop and [stop()] go on to their ends. *)
Lemma stop_returns_once_the_calls_settle_witness :
  let s := play backfill_options
             [Listen (Some returning_listener); CallStart; Resume 0 all_well; CallStop]
             initial in
  aborted (obj s) = true
  /\ List.length (tasks s) = 2%nat
  /\ exists positions,
       let s' := play backfill_options (resumes import_fails positions) s in
       tasks s' = [] /\ running (obj s') = false
       /\ List.length (filter is_stop_returned (log s'))
          = (List.length (filter is_stop_returned (log s))
             + List.length (filter is_stop_task (tasks s)))%nat.
Proof.
  intros s. split; [reflexivity|]. split; [reflexivity|].
  apply (stop_returns_once_the_calls_settle backfill_options import_fails s).
  - apply play_reachable. apply reachable_initial.
  - reflexivity.
  - exists returning_listener. split; reflexivity.
  - reflexivity.
  - reflexivity.
Defined.

(** ** The migration files of an object *)

(** X14. A method that runs to its end with nothing else of the
    process in between, from an object that holds the migration files,
    reads no directory and keeps the files held: so it is for
    [enqueueBatchedMigration], [finalizeBatchedMigration],
    [maybePerformWork] and a turn of [loop], in every environment. But
    [getMigrationFiles] tests and stores on either side of an [await]: a
    call that finds no files stored awaits the read and leaves the object
    as it is, so that a second call then reads as well; and when the read
    settles its result is stored whatever the object holds by then. *)
Theorem stored_files_are_reused_and_a_late_read_overwrites
  (options : Options.t) (identifier : string) (durationMs : Z) :
  (forall fs o,
     migrationFiles o = Some fs ->
     forall St (h : Handler St) s,
       keeps_the_files fs (exec h (enqueueBatchedMigration options identifier) o s)
       /\ keeps_the_files fs (exec h (finalizeBatchedMigration options identifier) o s)
       /\ keeps_the_files fs (exec h (maybePerformWork options durationMs) o s)
       /\ keeps_the_files fs (exec h (loop_iteration options) o s))
  /\ (forall o,
        migrationFiles o = None ->
        exists k,
          advance (getMigrationFiles options) o
          = (Call (ReadAndValidateMigrationsFromDirectories
                     (Options.directories options) EXTENSIONS) k, o)
          /\ forall fs later,
               advance (k (Returned fs)) later = (Ret fs, set_migrationFiles fs later)).
Proof.
  split.
  - intros fs o Hfs St h s. unfold keeps_the_files.
    unfold loop_iteration, loop_round, enqueueBatchedMigration, finalizeBatchedMigration,
      maybePerformWork, getOrStartMigration, getMigrationForIdentifier, getMigrationFiles,
      tryWithLock, loadMigrationClass.
    split; [|split; [|split]].
    all: settle_calls_eq h; simpl; try congruence; split; congruence.
  - intros o Hnone. unfold getMigrationFiles. simpl. rewrite Hnone. simpl.
    eexists. split; [reflexivity|]. intros fs later. reflexivity.
Qed.

(** On an object that holds the migration files of the scenario, in the
    world of the scenario. *)
Lemma stored_files_are_reused_and_a_late_read_overwrites_witness :
  let o := set_migrationFiles [backfill_file] new_runner in
  let w := backfill_world backfill_parameters in
  keeps_the_files [backfill_file]
    (exec (world_handler spec_runner)
       (enqueueBatchedMigration backfill_options backfill_identifier) o w)
  /\ keeps_the_files [backfill_file]
       (exec (world_handler spec_runner)
          (finalizeBatchedMigration backfill_options backfill_identifier) o w)
  /\ keeps_the_files [backfill_file]
       (exec (world_handler spec_runner)
          (maybePerformWork backfill_options 60000) o w)
  /\ keeps_the_files [backfill_file]
       (exec (world_handler spec_runner) (loop_iteration backfill_options) o w).
Proof.
  intros o w.
  destruct (stored_files_are_reused_and_a_late_read_overwrites backfill_options
              backfill_identifier 60000) as [Reuse _].
  apply (Reuse [backfill_file] o eq_refl World (world_handler spec_runner) w).
Defined.

Ltac found_file :=
  match goal with
  | Hf : find _ ?files = Some ?f |- _ =>
      let Hfile := fresh "Hfile" in
      apply find_some in Hf; destruct Hf as [Hfile Hf];
      apply String.eqb_eq in Hf;
      exists f, files; repeat split; simpl; auto
  end.

(** X15. In every environment the class whose parameters
    [enqueueBatchedMigration] asks for, and the class whose batches
    [finalizeBatchedMigration] and [maybePerformWork] run, is the one
    imported from directory and file name of a migration file the object
    holds, and the timestamp of that file is what precedes the first
    underscore of the identifier ([maybePerformWork]: of the timestamp of
    the migration [getOrStartMigration] returned). *)
Theorem methods_use_the_class_of_the_file_found
  (options : Options.t) (identifier : string) (durationMs : Z) :
  forall St (h : Handler St) o s,
    uses_the_class_found identifier
      (exec h (enqueueBatchedMigration options identifier) o s)
    /\ uses_the_class_found identifier
         (exec h (finalizeBatchedMigration options identifier) o s)
    /\ (forall row,
          hd_error (map started (trace (exec h (maybePerformWork options durationMs) o s)))
          = Some (Some row) ->
          uses_the_class_found (BatchedMigrationRow.timestamp row)
            (exec h (maybePerformWork options durationMs) o s)).
Proof.
  intros St h o s. unfold uses_the_class_found.
  unfold enqueueBatchedMigration, finalizeBatchedMigration,
    maybePerformWork, getOrStartMigration, getMigrationForIdentifier, getMigrationFiles,
    tryWithLock, loadMigrationClass.
  split; [|split].
  - settle_calls_eq h; simpl; intros cls Hin;
      repeat (destruct Hin as [Hin | Hin]; try discriminate);
      try contradiction; inversion Hin; subst; found_file.
  - settle_calls_eq h; simpl; intros cls Hin;
      repeat (destruct Hin as [Hin | Hin]; try discriminate);
      try contradiction; inversion Hin; subst; found_file.
  - settle_calls_eq h; simpl; intros row Hrow cls Hin;
      repeat (destruct Hin as [Hin | Hin]; try discriminate);
      try contradiction; inversion Hin; subst; inversion Hrow; subst; found_file.
Qed.

(** ** When the loop goes straight on *)

(** X16. In every environment a turn of [loop] that finds the signal
    not aborted sleeps at most once. With a listener registered for
    ['error'] that returns, the turn ends in a next turn and goes there
    without sleeping exactly when the Batch Runner ran, whether it
    returned or threw, and the lock was released; in every other case,
    an error of the round included, it sleeps first. With no listener
    registered the turn throws exactly when the round failed (an awaited
    call threw or the class imported is invalid), nothing is emitted, and
    it sleeps exactly when the Batch Runner did not run and the round did
    not fail. *)
Theorem loop_goes_straight_on_after_a_batch_run (options : Options.t) (o : ObjState) :
  aborted o = false ->
  forall St (h : Handler St) s,
    let r := exec h (loop_iteration options) o s in
    (List.length (filter is_sleep (trace r)) <= 1)%nat
    /\ (listens o ->
        outcome r = Returned Continue
        /\ existsb is_sleep (trace r)
           = negb (existsb is_runner_run (trace r)
                   && negb (existsb release_failed (trace r))))
    /\ (error_listener o = None ->
        is_returned (outcome r) = negb (existsb round_failed (trace r))
        /\ existsb is_sleep (trace r)
           = negb (existsb is_runner_run (trace r))
             && negb (existsb round_failed (trace r))
        /\ emitted (obj_after r) = emitted o).
Proof.
  intros Ab St h s. cbv zeta. rewrite (exec_loop_iteration h options o s Ab).
  unfold loop_after_check, loop_round, maybePerformWork, getOrStartMigration,
    getMigrationForIdentifier, getMigrationFiles, tryWithLock, loadMigrationClass.
  settle_calls_all h; simpl;
    (split; [lia|]);
    (split;
     [intros L; first [no_such_listener | split; reflexivity]
     |intros Enone; first [congruence | repeat split; reflexivity]]).
Qed.

(** A turn of a new runner, no listener registered, in the world of the
    scenario with the migration stuck at [running]: the Batch Runner runs
    and the turn does not sleep. *)
Lemma loop_goes_straight_on_after_a_batch_run_witness :
  let r := exec (world_handler spec_runner) (loop_iteration backfill_options)
             new_runner (stuck_world [] [backfill_file]) in
  existsb is_runner_run (trace r) = true
  /\ existsb is_sleep (trace r) = false
  /\ outcome r = Returned Continue.
Proof.
  intros r.
  destruct (loop_goes_straight_on_after_a_batch_run backfill_options new_runner eq_refl
              World (world_handler spec_runner) (stuck_world [] [backfill_file]))
    as (_ & _ & Quiet).
  destruct (Quiet eq_refl) as (_ & Sleeps & _).
  split; [reflexivity|]. split; [|reflexivity].
  fold r in Sleeps. rewrite Sleeps. reflexivity.
Defined.
